(** * Client-side resilience layer of the attendance app

    A shallow embedding of the mobile client's offline queue store
    ([store/offlineStore.ts]), its integrity hash ([utils/helpers.ts]),
    its storage wrapper ([utils/storage.ts]) and the token-refreshing
    response interceptor of [services/api.ts], with the properties the
    design document states about them; and of what surrounds them: the
    hook that drains the queue ([hooks/useOfflineSync.ts]), the session
    in storage ([services/auth.service.ts]) and the clock-in handler
    ([modules/attendance/ClockInScreen.tsx]), with properties of their
    own. *)

From Stdlib Require Import ZArith String Ascii HexadecimalString DecimalString
  DecimalPos Lia.
From Stdlib Require HexadecimalFacts HexadecimalPos DecimalN.
From stdpp Require Import base option list sorting strings gmap.

Set Warnings "-register-all,-clear-no-such-hyp".

Local Open Scope string_scope.
Local Open Scope Z_scope.
Local Open Scope list_scope.

(** ** utils/helpers.ts : the integrity hash *)

Module Helpers.

(** JavaScript values that can occur in a payload.  A number is carried by
    its [ToString] rendering, which is all [JSON.stringify] looks at for a
    finite number; an object is the list of its own enumerable properties
    in property order. *)
Inductive json : Type :=
| JUndefined
| JNull
| JBool (b : bool)
| JNum (repr : string)
| JStr (s : string)
| JArr (elems : list json)
| JObj (props : list (string * json)).

Definition object := list (string * json).

(** *** Property order of ordinary objects *)

Definition digit_of (c : ascii) : option N :=
  let n := N_of_ascii c in
  if ((48 <=? n) && (n <=? 57))%N then Some (n - 48)%N else None.

Fixpoint digits_value (acc : N) (s : string) : option N :=
  match s with
  | EmptyString => Some acc
  | String c s' =>
      match digit_of c with
      | Some d => digits_value (10 * acc + d)%N s'
      | None => None
      end
  end.

(** A property key is an array index when it is the canonical decimal
    rendering of an integer below 2^32 - 1. *)
Definition array_index (k : string) : option N :=
  match k with
  | EmptyString => None
  | String c rest =>
      if (Ascii.eqb c "0" && negb (String.eqb rest ""))%bool then None
      else if (10 <? Z.of_nat (String.length k)) then None
      else match digits_value 0 k with
           | Some n => if (n <? 4294967295)%N then Some n else None
           | None => None
           end
  end.

(** [payload[key]] *)
Fixpoint get_prop (o : object) (k : string) : json :=
  match o with
  | [] => JUndefined
  | (k', v) :: o' => if String.eqb k' k then v else get_prop o' k
  end.

Fixpoint has_prop (o : object) (k : string) : bool :=
  match o with
  | [] => false
  | (k', _) :: o' => String.eqb k' k || has_prop o' k
  end.

Fixpoint replace_prop (o : object) (k : string) (v : json) : object :=
  match o with
  | [] => []
  | (k', v') :: o' =>
      if String.eqb k' k then (k', v) :: o' else (k', v') :: replace_prop o' k v
  end.

(** A new array-index key goes in ascending numeric order among the index
    keys, which come before every other key. *)
Fixpoint insert_index (o : object) (n : N) (k : string) (v : json) : object :=
  match o with
  | [] => [(k, v)]
  | (k', v') :: o' =>
      match array_index k' with
      | Some n' =>
          if (n' <? n)%N then (k', v') :: insert_index o' n k v
          else (k, v) :: o
      | None => (k, v) :: o
      end
  end.

(** Defining the own property [k] of [o], as an object literal or a
    spread does ([CreateDataProperty]): a key that is there keeps its
    place, a new array-index key goes among the index keys, any other new
    key at the end. *)
Definition set_prop (o : object) (k : string) (v : json) : object :=
  if has_prop o k then replace_prop o k v
  else match array_index k with
       | Some n => insert_index o n k v
       | None => (o ++ [(k, v)])%list
       end.

(** [acc[key] = v] on an object that started as [{}]: the assignment goes
    through the prototype chain, where the only setter is the one
    [Object.prototype] has for [__proto__]; that one changes the prototype
    (or does nothing) and gives [acc] no own property.  Every other key is
    defined as an own property. *)
Definition assign_prop (o : object) (k : string) (v : json) : object :=
  if String.eqb k "__proto__" then o else set_prop o k v.

(** [Object.keys(o)] *)
Definition Object_keys (o : object) : list string := o.*1.

(** *** [Array.prototype.sort] with the default comparison *)

Definition str_le (a b : string) : Prop := String.leb a b = true.

#[global] Instance str_le_dec a b : Decision (str_le a b).
Proof. unfold str_le. apply _. Defined.

Definition sort (l : list string) : list string := merge_sort str_le l.

(** *** [JSON.stringify] *)

Definition hex_digit (n : N) : ascii :=
  ascii_of_N (if (n <? 10)%N then 48 + n else 87 + n)%N.

(** One code unit inside a JSON string literal. *)
Definition quote_char (c : ascii) : string :=
  let n := N_of_ascii c in
  if (n =? 34)%N then String "\" (String (ascii_of_N 34) "")
  else if (n =? 92)%N then "\\"
  else if (n =? 8)%N then "\b"
  else if (n =? 12)%N then "\f"
  else if (n =? 10)%N then "\n"
  else if (n =? 13)%N then "\r"
  else if (n =? 9)%N then "\t"
  else if (n <? 32)%N then
    "\u00" +:+ String (hex_digit (n / 16)) (String (hex_digit (n mod 16)) "")
  else String c "".

Fixpoint quote_body (s : string) : string :=
  match s with
  | EmptyString => ""
  | String c s' => quote_char c +:+ quote_body s'
  end.

Definition QuoteJSONString (s : string) : string :=
  String (ascii_of_N 34) (quote_body s +:+ String (ascii_of_N 34) "").

(** [SerializeJSONProperty]: [None] stands for [undefined]. *)
Fixpoint SerializeJSONProperty (v : json) : option string :=
  match v with
  | JUndefined => None
  | JNull => Some "null"
  | JBool true => Some "true"
  | JBool false => Some "false"
  | JNum repr => Some repr
  | JStr s => Some (QuoteJSONString s)
  | JArr elems =>
      Some ("[" +:+
            String.concat ","
              ((fix items (l : list json) : list string :=
                  match l with
                  | [] => []
                  | x :: l' =>
                      default "null" (SerializeJSONProperty x) :: items l'
                  end) elems) +:+ "]")
  | JObj props =>
      Some ("{" +:+
            String.concat ","
              ((fix members (l : list (string * json)) : list string :=
                  match l with
                  | [] => []
                  | (k, x) :: l' =>
                      match SerializeJSONProperty x with
                      | Some s => (QuoteJSONString k +:+ ":" +:+ s) :: members l'
                      | None => members l'
                      end
                  end) props) +:+ "}")
  end.

Definition JSON_stringify (o : object) : string :=
  default "" (SerializeJSONProperty (JObj o)).

(** *** The rolling hash *)

(** [ToInt32] *)
Definition to_int32 (z : Z) : Z := (z + 2 ^ 31) mod 2 ^ 32 - 2 ^ 31.

(** [data.charCodeAt(i)].  A [string] here is a sequence of code units
    below 256, so the model covers the payloads whose serialization stays
    in that range (Latin-1); a code unit above it is outside the model. *)
Definition charCode (c : ascii) : Z := Z.of_N (N_of_ascii c).

(** One turn of the loop:
    [hash = (hash << 5) - hash + char; hash |= 0]. *)
Definition hash_step (hash : Z) (c : ascii) : Z :=
  to_int32 (to_int32 (Z.shiftl hash 5) - hash + charCode c).

Fixpoint hash_loop (hash : Z) (data : string) : Z :=
  match data with
  | EmptyString => hash
  | String c data' => hash_loop (hash_step hash c) data'
  end.

(** [n.toString(16)] for an integer [n >= 0] *)
Definition toString16 (n : Z) : string :=
  HexadecimalString.NilZero.string_of_uint (N.to_hex_uint (Z.to_N n)).

Fixpoint repeat_char (c : ascii) (n : nat) : string :=
  match n with
  | O => ""
  | S n' => String c (repeat_char c n')
  end.

Definition padStart (s : string) (target : nat) (c : ascii) : string :=
  repeat_char c (target - String.length s) +:+ s.

(** [Object.keys(payload).sort().reduce((acc, key) => { acc[key] =
    payload[key]; return acc; }, {})] *)
Definition ordered (payload : object) : object :=
  foldl (fun acc key => assign_prop acc key (get_prop payload key))
        [] (sort (Object_keys payload)).

Definition generateIntegrityHash (payload : object) : string :=
  let data := JSON_stringify (ordered payload) in
  let hash := hash_loop 0 data in
  padStart (toString16 (Z.abs hash)) 16 "0".

(** *** What the design document asks of the hash

    Two values hold the same content when they agree up to the order in
    which the keys of every object in them, nested ones included, were
    inserted. *)
Inductive same_content : json -> json -> Prop :=
| same_refl v : same_content v v
| same_arr xs ys :
    Forall2 same_content xs ys -> same_content (JArr xs) (JArr ys)
| same_obj ps qs :
    NoDup (Object_keys ps) -> NoDup (Object_keys qs) ->
    (forall k v, (k, v) ∈ ps -> exists w, (k, w) ∈ qs /\ same_content v w) ->
    (forall k w, (k, w) ∈ qs -> exists v, (k, v) ∈ ps /\ same_content v w) ->
    same_content (JObj ps) (JObj qs).

(** The keys [JSON.stringify] meets first, the array indices, are
    compared by their numeric value. *)
Definition index_of (k : string) : N := default 0%N (array_index k).

Definition index_le (a b : string) : Prop := (index_of a <= index_of b)%N.

Definition is_index (k : string) : Prop := is_Some (array_index k).

(** The keys that come after them: neither an array index nor
    [__proto__]. *)
Definition plain_key (k : string) : Prop :=
  array_index k = None /\ k <> "__proto__".

#[global] Instance is_index_dec k : Decision (is_index k).
Proof. unfold is_index. apply _. Defined.

#[global] Instance plain_key_dec k : Decision (plain_key k).
Proof. unfold plain_key. apply _. Defined.

(** A payload with two array-index keys, a [__proto__] key and two other
    keys, none in its place. *)
Definition payload_mixed_keys : object :=
  [("b", JNum "1"); ("10", JNum "2"); ("__proto__", JNull); ("9", JNum "3");
   ("a", JNum "4")].

(** A payload whose [geo] value is an object, built twice with its inner
    keys inserted in opposite orders. *)
Definition payload_lat_first : object :=
  [("geo", JObj [("lat", JNum "1"); ("lon", JNum "2")])].
Definition payload_lon_first : object :=
  [("geo", JObj [("lon", JNum "2"); ("lat", JNum "1")])].

(** The most significant digit of a numeral written least significant
    digit first is not zero. *)
Fixpoint top_nonzero (d : Hexadecimal.uint) : bool :=
  match d with
  | Hexadecimal.Nil => false
  | Hexadecimal.D0 d' => top_nonzero d'
  | Hexadecimal.D1 d' | Hexadecimal.D2 d' | Hexadecimal.D3 d'
  | Hexadecimal.D4 d' | Hexadecimal.D5 d' | Hexadecimal.D6 d'
  | Hexadecimal.D7 d' | Hexadecimal.D8 d' | Hexadecimal.D9 d'
  | Hexadecimal.Da d' | Hexadecimal.Db d' | Hexadecimal.Dc d'
  | Hexadecimal.Dd d' | Hexadecimal.De d' | Hexadecimal.Df d' =>
      match d' with
      | Hexadecimal.Nil => true
      | _ => top_nonzero d'
      end
  end.

(** *** [formatDuration]

    [n.toString()] for an integer [n] *)
Definition toString10 (n : Z) : string :=
  DecimalString.NilZero.string_of_int (Z.to_int n).

(** [formatDuration(minutes)] for a whole number of minutes:
    [Math.floor(minutes / 60)] rounds down and [%] takes the sign of the
    dividend. *)
Definition formatDuration (minutes : Z) : string :=
  let hours := minutes / 60 in
  let mins := Z.rem minutes 60 in
  padStart (toString10 hours) 2 "0" +:+ ":" +:+ padStart (toString10 mins) 2 "0".

End Helpers.

(** ** utils/storage.ts : the encrypted key/value store *)

Module Storage.

(** [EncryptedStorage]: raw strings by key. *)
Abbreviation EncryptedStorage := (gmap string string).

(** The result of a call that may throw. *)
Inductive outcome (A : Type) : Type :=
| Return (a : A)
| Throw (e : string).
Arguments Return {A} a.
Arguments Throw {A} e.

Definition bind {A B} (m : outcome A) (k : A -> outcome B) : outcome B :=
  match m with
  | Return a => k a
  | Throw e => Throw e
  end.

(** [try { body } catch { handler }] *)
Definition try_catch {A} (body : outcome A) (handler : string -> outcome A)
  : outcome A :=
  match body with
  | Return a => Return a
  | Throw e => handler e
  end.

Notation "'let*' x ':=' m 'in' k" := (bind m (fun x => k))
  (at level 10, x name, m at level 100, k at level 200).

Definition get (key : string) (es : EncryptedStorage) : option string :=
  es !! key.

Definition set (key value : string) (es : EncryptedStorage) : EncryptedStorage :=
  <[key := value]> es.

Definition remove (key : string) (es : EncryptedStorage) : EncryptedStorage :=
  delete key es.

Section Objects.
Context {T : Type}.

(** [JSON.stringify] and [JSON.parse(raw) as T] at the type [T].  A
    parse either throws a [SyntaxError] or returns the value, [None]
    when the text is the JSON [null]. *)
Variable JSON_stringify : T -> string.
Variable JSON_parse : string -> outcome (option T).

Definition setObject (key : string) (value : T) (es : EncryptedStorage)
  : EncryptedStorage :=
  <[key := JSON_stringify value]> es.

Definition getObject (key : string) (es : EncryptedStorage)
  : outcome (option T) :=
  match es !! key with
  | None => Return None
  | Some raw =>
      if String.eqb raw "" then Return None
      else try_catch (JSON_parse raw) (fun _ => Return None)
  end.
End Objects.

End Storage.

(** ** utils/constants.ts *)

Module Constants.
Definition ACCESS_TOKEN : string := "access_token".
Definition REFRESH_TOKEN : string := "refresh_token".
Definition OFFLINE_QUEUE : string := "offline_queue".
Definition USER_DATA : string := "user_data".
Definition TENANT_SLUG : string := "tenant_slug".
Definition MAX_QUEUE_SIZE : nat := 50.
Definition SYNC_INTERVAL_MS : Z := 30000.
End Constants.

(** ** store/offlineStore.ts : the offline queue

    The store's state and the storage it persists to make up a [world].
    [Date.now()], [Math.random()] and the clock are arguments of the
    operations; the backend, [JSON.stringify] and [JSON.parse] are
    parameters.  A write to storage is taken to succeed and to land at once.
    Each operation is first given whole, from call to return, and then,
    for calls that overlap, as the turns of the event loop it is made
    of. *)

Module OfflineStore.
Import Storage Constants.

Section Store.
(** The attendance submission carried by a queued event. *)
Variable OfflineAttendancePayload : Type.

Record OfflineRecord : Type := mkRecord {
  id : string;
  payload : OfflineAttendancePayload;
  createdAt : string;
  synced : bool;
  syncError : option string
}.

Record OfflineState : Type := mkState {
  queue : list OfflineRecord;
  isSyncing : bool;
  lastSyncAt : option string
}.

(** The store together with the storage it persists to. *)
Record world : Type := mkWorld {
  state : OfflineState;
  disk : EncryptedStorage
}.

Definition initial : OfflineState :=
  {| queue := []; isSyncing := false; lastSyncAt := None |}.

Variable JSON_stringify : list OfflineRecord -> string.
Variable JSON_parse : string -> outcome (option (list OfflineRecord)).

(** How [attendanceService.syncOfflineRecord] settles: it resolves, or
    rejects with an error whose [response?.data?.detail] is [detail]. *)
Inductive delivery : Type :=
| Delivered
| Rejected (detail : option string).

(** The backend as the queue sees it: a state and what each submission
    does to it. *)
Variable backend : Type.
Variable syncOfflineRecord :
  backend -> OfflineAttendancePayload -> backend * delivery.

Definition unsynced (r : OfflineRecord) : bool := negb (synced r).

(** [`offline_${Date.now()}_${Math.random().toString(36).slice(2, 9)}`] *)
Definition new_id (now rnd : string) : string :=
  "offline_" +:+ now +:+ "_" +:+ rnd.

(** [addToQueue]; [now], [rnd] and [iso] are what [Date.now()],
    [Math.random()] and [new Date().toISOString()] give. *)
Definition addToQueue (p : OfflineAttendancePayload) (now rnd iso : string)
    (w : world) : bool * world :=
  let q := queue (state w) in
  if (MAX_QUEUE_SIZE <=? length q)%nat then (false, w)
  else
    let record := {| id := new_id now rnd; payload := p; createdAt := iso;
                     synced := false; syncError := None |} in
    let updated := (q ++ [record])%list in
    (true,
     {| state := {| queue := updated; isSyncing := isSyncing (state w);
                    lastSyncAt := lastSyncAt (state w) |};
        disk := setObject JSON_stringify OFFLINE_QUEUE updated (disk w) |}).

(** [{...r, synced: true}] *)
Definition mark_synced (r : OfflineRecord) : OfflineRecord :=
  {| id := id r; payload := payload r; createdAt := createdAt r;
     synced := true; syncError := syncError r |}.

(** [err.response?.data?.detail || 'Sync failed'] *)
Definition error_message (detail : option string) : string :=
  match detail with
  | Some d => if String.eqb d "" then "Sync failed" else d
  | None => "Sync failed"
  end.

(** [{...r, syncError: msg}] *)
Definition record_error (r : OfflineRecord) (msg : string) : OfflineRecord :=
  {| id := id r; payload := payload r; createdAt := createdAt r;
     synced := synced r; syncError := Some msg |}.

(** [updated.findIndex(r => r.id === record.id)] *)
Definition findIndex (updated : list OfflineRecord) (record : OfflineRecord)
  : option (nat * OfflineRecord) :=
  list_find (fun r => id r = id record) updated.

(** The body of the loop once the delivery of [record] has settled. *)
Definition settle (record : OfflineRecord) (out : delivery)
    (updated : list OfflineRecord) : list OfflineRecord :=
  match findIndex updated record with
  | Some (idx, r) =>
      match out with
      | Delivered => <[idx := mark_synced r]> updated
      | Rejected detail => <[idx := record_error r (error_message detail)]> updated
      end
  | None => updated
  end.

(** What one pass of the loop has done so far. *)
Record progress : Type := mkProgress {
  updated : list OfflineRecord;
  synced_count : nat;
  failed_count : nat;
  attempts : list OfflineAttendancePayload
}.

Definition after_delivery (record : OfflineRecord) (out : delivery)
    (pr : progress) : progress :=
  {| updated := settle record out (updated pr);
     synced_count := match out with
                     | Delivered => S (synced_count pr)
                     | Rejected _ => synced_count pr
                     end;
     failed_count := match out with
                     | Delivered => failed_count pr
                     | Rejected _ => S (failed_count pr)
                     end;
     attempts := (attempts pr ++ [payload record])%list |}.

(** [for (const record of pending) { try { await ... } catch ... }] *)
Fixpoint sync_loop (pending : list OfflineRecord) (b : backend) (pr : progress)
  : backend * progress :=
  match pending with
  | [] => (b, pr)
  | record :: rest =>
      let '(b', out) := syncOfflineRecord b (payload record) in
      sync_loop rest b' (after_delivery record out pr)
  end.

(** What [syncAll] resolves to, with the submissions it made in order. *)
Record sync_result : Type := mkResult {
  res_synced : nat;
  res_failed : nat;
  res_attempts : list OfflineAttendancePayload
}.

(** [syncAll], run from its call to its return; [iso] is what
    [new Date().toISOString()] gives at the end. *)
Definition syncAll (iso : string) (b : backend) (w : world)
  : sync_result * backend * world :=
  let q := queue (state w) in
  let pending := filter (fun r => unsynced r = true) q in
  match pending with
  | [] => ({| res_synced := 0; res_failed := 0; res_attempts := [] |}, b, w)
  | _ :: _ =>
      let '(b', pr) :=
        sync_loop pending b
          {| updated := q; synced_count := 0; failed_count := 0;
             attempts := [] |} in
      ({| res_synced := synced_count pr; res_failed := failed_count pr;
          res_attempts := attempts pr |}, b',
       {| state := {| queue := updated pr; isSyncing := false;
                      lastSyncAt := Some iso |};
          disk := setObject JSON_stringify OFFLINE_QUEUE (updated pr) (disk w) |})
  end.

(** [loadQueue].  [JSON.parse(raw) as OfflineRecord[]] is taken at its
    type: the text under the queue's key is only ever written by the
    store, from a queue.  A text that parses to a value of another shape
    would be made the queue unchecked; it is outside the model. *)
Definition loadQueue (w : world) : outcome world :=
  let* stored := getObject JSON_parse OFFLINE_QUEUE (disk w) in
  match stored with
  | Some q =>
      Return {| state := {| queue := q; isSyncing := isSyncing (state w);
                            lastSyncAt := lastSyncAt (state w) |};
                disk := disk w |}
  | None => Return w
  end.

(** [clearSynced] *)
Definition clearSynced (w : world) : world :=
  let remaining := filter (fun r => unsynced r = true) (queue (state w)) in
  {| state := {| queue := remaining; isSyncing := isSyncing (state w);
                 lastSyncAt := lastSyncAt (state w) |};
     disk := setObject JSON_stringify OFFLINE_QUEUE remaining (disk w) |}.

(** *** Sequences of whole operations *)

(** What is on disk for the queue is what it was at the start or the
    serialization of a queue within the limit. *)
Definition disk_bounded (d0 : EncryptedStorage) (w : world) : Prop :=
  disk w !! OFFLINE_QUEUE = d0 !! OFFLINE_QUEUE
  \/ exists q, (length q <= MAX_QUEUE_SIZE)%nat
               /\ disk w !! OFFLINE_QUEUE = Some (JSON_stringify q).


Inductive op : Type :=
| Enqueue (p : OfflineAttendancePayload) (now rnd iso : string)
| Drain (iso : string)
| Compact.

Definition apply_op (o : op) (bw : backend * world) : backend * world :=
  match o with
  | Enqueue p now rnd iso => (bw.1, (addToQueue p now rnd iso bw.2).2)
  | Drain iso => let '(_, b', w') := syncAll iso bw.1 bw.2 in (b', w')
  | Compact => (bw.1, clearSynced bw.2)
  end.

Definition run_ops (ops : list op) (bw : backend * world) : backend * world :=
  foldl (fun acc o => apply_op o acc) bw ops.

(** The same, with restarts: [loadQueue] may come between operations. *)
Inductive op_or_load : Type :=
| Op (o : op)
| LoadQueue.

Definition apply_op_or_load (o : op_or_load) (bw : backend * world)
  : backend * world :=
  match o with
  | Op o => apply_op o bw
  | LoadQueue =>
      match loadQueue bw.2 with
      | Return w' => (bw.1, w')
      | Throw _ => bw
      end
  end.

Definition run_with_loads (ops : list op_or_load) (bw : backend * world)
  : backend * world :=
  foldl (fun acc o => apply_op_or_load o acc) bw ops.

(** *** The drain as the design document words it

    Go through the queue oldest first; leave an event that is already
    synced alone; submit every other one, mark it synced when the
    submission succeeds, record the error on it when it fails, and go on
    in both cases; count both kinds. *)
Fixpoint drain_spec (b : backend) (q : list OfflineRecord)
  : backend * list OfflineRecord * sync_result :=
  match q with
  | [] => (b, [], {| res_synced := 0; res_failed := 0; res_attempts := [] |})
  | r :: q' =>
      if synced r then
        let '(b', q'', res) := drain_spec b q' in (b', r :: q'', res)
      else
        let '(b1, out) := syncOfflineRecord b (payload r) in
        let '(b', q'', res) := drain_spec b1 q' in
        match out with
        | Delivered =>
            (b', {| id := id r; payload := payload r; createdAt := createdAt r;
                    synced := true; syncError := syncError r |} :: q'',
             {| res_synced := S (res_synced res); res_failed := res_failed res;
                res_attempts := payload r :: res_attempts res |})
        | Rejected detail =>
            (b', {| id := id r; payload := payload r; createdAt := createdAt r;
                    synced := false;
                    syncError := Some match detail with
                                      | Some "" | None => "Sync failed"
                                      | Some d => d
                                      end |} :: q'',
             {| res_synced := res_synced res; res_failed := S (res_failed res);
                res_attempts := payload r :: res_attempts res |})
        end
  end.

(** What a drain may make of one entry: the event stays; an entry that
    was synced is left as it is; one that was not is now synced, or is
    still unsynced and carries an error. *)
Definition drained (r r' : OfflineRecord) : Prop :=
  id r' = id r /\ payload r' = payload r /\ createdAt r' = createdAt r
  /\ (synced r = true -> r' = r)
  /\ (synced r = false ->
      (synced r' = true /\ syncError r' = syncError r)
      \/ (synced r' = false /\ exists msg, syncError r' = Some msg)).

(** The part of a record no operation writes to. *)
Definition event_of (r : OfflineRecord)
  : string * OfflineAttendancePayload * string :=
  (id r, payload r, createdAt r).

(** [r'] is a later state of the queued event [r] whose flag has not gone
    back. *)
Definition flag_kept (r r' : OfflineRecord) : Prop :=
  event_of r' = event_of r /\ (synced r = true -> synced r' = true).

(** The events that the operations of a run hand to [addToQueue], in the
    order of the calls. *)
Fixpoint enqueued (ops : list op_or_load)
  : list (string * OfflineAttendancePayload * string) :=
  match ops with
  | [] => []
  | Op (Enqueue p now rnd iso) :: ops' => (new_id now rnd, p, iso) :: enqueued ops'
  | _ :: ops' => enqueued ops'
  end.

(** The disk holds nothing for the queue yet, or the queue in memory. *)
Definition coherent (w : world) : Prop :=
  disk w !! OFFLINE_QUEUE = None
  \/ disk w !! OFFLINE_QUEUE = Some (JSON_stringify (queue (state w))).

(** *** Interleaved calls

    A [syncAll] call suspended at its [await]: [todo] starts with the
    record whose delivery it waits for. *)
Record drain : Type := mkDrain {
  todo : list OfflineRecord;
  so_far : progress
}.

(** The suspended call a [syncAll] leaves behind on a queue [q] with
    something pending. *)
Definition fresh_drain (q : list OfflineRecord) : drain :=
  {| todo := filter (fun r => unsynced r = true) q;
     so_far := {| updated := q; synced_count := 0; failed_count := 0;
                  attempts := [] |} |}.

Record sys : Type := mkSys {
  now_world : world;
  running : list drain
}.

Inductive event : Type :=
| CallAddToQueue (p : OfflineAttendancePayload) (now rnd iso : string)
| CallSyncAll
| DeliverySettled (k : nat) (out : delivery) (iso : string)
| CallClearSynced
| CallLoadQueue.

Definition with_world (s : sys) (w : world) : sys :=
  {| now_world := w; running := running s |}.

(** One turn of the event loop; [None] when the event cannot happen in
    [s]. *)
Definition tick (s : sys) (e : event) : option sys :=
  match e with
  | CallAddToQueue p now rnd iso =>
      Some (with_world s (addToQueue p now rnd iso (now_world s)).2)
  | CallSyncAll =>
      let q := queue (state (now_world s)) in
      match filter (fun r => unsynced r = true) q with
      | [] => Some s
      | _ :: _ =>
          Some {| now_world :=
                    {| state := {| queue := q; isSyncing := true;
                                   lastSyncAt := lastSyncAt (state (now_world s)) |};
                       disk := disk (now_world s) |};
                  running := (running s ++ [fresh_drain q])%list |}
      end
  | DeliverySettled k out iso =>
      match running s !! k with
      | Some {| todo := record :: rest; so_far := pr |} =>
          let pr' := after_delivery record out pr in
          match rest with
          | [] =>
              Some {| now_world :=
                        {| state := {| queue := updated pr'; isSyncing := false;
                                       lastSyncAt := Some iso |};
                           disk := setObject JSON_stringify OFFLINE_QUEUE
                                     (updated pr') (disk (now_world s)) |};
                      running := delete k (running s) |}
          | _ :: _ =>
              Some {| now_world := now_world s;
                      running := <[k := {| todo := rest; so_far := pr' |}]> (running s) |}
          end
      | _ => None
      end
  | CallClearSynced => Some (with_world s (clearSynced (now_world s)))
  | CallLoadQueue =>
      match loadQueue (now_world s) with
      | Return w' => Some (with_world s w')
      | Throw _ => None
      end
  end.

Fixpoint ticks (s : sys) (es : list event) : option sys :=
  match es with
  | [] => Some s
  | e :: es' =>
      match tick s e with
      | Some s' => ticks s' es'
      | None => None
      end
  end.

Definition start (w : world) : sys := {| now_world := w; running := [] |}.

(** The events that the turns of a run hand to [addToQueue], in the order
    of the calls. *)
Fixpoint called (es : list event)
  : list (string * OfflineAttendancePayload * string) :=
  match es with
  | [] => []
  | CallAddToQueue p now rnd iso :: es' => (new_id now rnd, p, iso) :: called es'
  | _ :: es' => called es'
  end.

(** The events of the queue in memory, of the copy that every running
    drain holds and of the queue on disk are, in that order, among those
    of [E]. *)
Definition within (E : list (string * OfflineAttendancePayload * string))
    (s : sys) : Prop :=
  sublist (map event_of (queue (state (now_world s)))) E
  /\ Forall (fun d => sublist (map event_of (updated (so_far d))) E) (running s)
  /\ (disk (now_world s) !! OFFLINE_QUEUE = None
      \/ exists q, disk (now_world s) !! OFFLINE_QUEUE = Some (JSON_stringify q)
                   /\ sublist (map event_of q) E).

(** The answers the backend gives to the one drain that is running, as
    events. *)
Fixpoint deliveries (pending : list OfflineRecord) (b : backend) (iso : string)
  : list event :=
  match pending with
  | [] => []
  | record :: rest =>
      let '(b', out) := syncOfflineRecord b (payload record) in
      DeliverySettled 0 out iso :: deliveries rest b' iso
  end.

End Store.

Arguments mkRecord {_} _ _ _ _ _.
Arguments id {_} _.
Arguments payload {_} _.
Arguments createdAt {_} _.
Arguments synced {_} _.
Arguments syncError {_} _.
Arguments queue {_} _.
Arguments isSyncing {_} _.
Arguments lastSyncAt {_} _.
Arguments state {_} _.
Arguments disk {_} _.
Arguments initial {_}.

End OfflineStore.

(** ** services/api.ts : the response interceptor that refreshes the token

    The interceptor runs on one event loop: a run of the rejection handler
    goes on until its next [await] and other handlers run in between.  The
    model is a machine whose steps are those stretches.  A call made
    through [api] is named by a number; the module-level [isRefreshing]
    and [failedQueue] and the stored tokens are its shared state.  A
    storage call is taken to succeed and to take effect when it
    completes. *)

Module Api.
Import Storage Constants.

(** What a call can be rejected with: an [AxiosError] with its
    [response?.status] ([None] when no response came), or the
    [Error('No refresh token')] the interceptor throws. *)
Inductive error : Type :=
| AxiosError (status : option Z)
| NoRefreshToken.

(** [originalRequest]: the [_retry] mark and the [Authorization] header. *)
Record config : Type := mkConfig {
  _retry : bool;
  Authorization : option string
}.

(** Where a call made through [api] stands.  The five phases from
    [GettingRefreshToken] to [RemovingRefresh] are the [await]s of the
    interceptor run that performs the refresh. *)
Inductive phase : Type :=
| InFlight
| GettingRefreshToken
| Exchanging (refreshToken : string)
| StoringAccess (access : string)
| RemovingAccess (refreshError : error)
| RemovingRefresh (refreshError : error)
| Parked
| Fulfilled
| Failed (e : error).

Record call : Type := mkCall {
  originalRequest : config;
  at_phase : phase
}.

(** What goes out on the network. *)
Inductive wire : Type :=
| Request (c : nat) (auth : option string)
| RefreshExchange (c : nat) (refresh : string).

Record state : Type := mkState {
  isRefreshing : bool;
  failedQueue : list nat;
  storage : EncryptedStorage;
  calls : gmap nat call;
  sent : list wire
}.

Definition at_startup (es : EncryptedStorage) : state :=
  {| isRefreshing := false; failedQueue := []; storage := es; calls := ∅;
     sent := [] |}.

Definition Bearer (token : string) : string := "Bearer " +:+ token.

Definition with_call (c : nat) (k : call) (s : state) : state :=
  {| isRefreshing := isRefreshing s; failedQueue := failedQueue s;
     storage := storage s; calls := <[c := k]> (calls s); sent := sent s |}.

Definition with_storage (es : EncryptedStorage) (s : state) : state :=
  {| isRefreshing := isRefreshing s; failedQueue := failedQueue s;
     storage := es; calls := calls s; sent := sent s |}.

Definition with_refreshing (b : bool) (s : state) : state :=
  {| isRefreshing := b; failedQueue := failedQueue s;
     storage := storage s; calls := calls s; sent := sent s |}.

(** The request interceptor: attach the stored access token, if any. *)
Definition attach (es : EncryptedStorage) (cfg : config) : config :=
  match get ACCESS_TOKEN es with
  | Some token =>
      if String.eqb token "" then cfg
      else {| _retry := _retry cfg; Authorization := Some (Bearer token) |}
  | None => cfg
  end.

(** [api(cfg)] for the call [c] *)
Definition dispatch (c : nat) (cfg : config) (s : state) : state :=
  let cfg' := attach (storage s) cfg in
  {| isRefreshing := isRefreshing s; failedQueue := failedQueue s;
     storage := storage s;
     calls := <[c := {| originalRequest := cfg'; at_phase := InFlight |}]> (calls s);
     sent := (sent s ++ [Request c (Authorization cfg')])%list |}.

(** The [resolve] closure pushed for a parked call. *)
Definition resolve_parked (token : string) (s : state) (p : nat) : state :=
  match calls s !! p with
  | Some k =>
      dispatch p {| _retry := _retry (originalRequest k);
                    Authorization := Some (Bearer token) |} s
  | None => s
  end.

(** Its [reject]. *)
Definition reject_parked (e : error) (s : state) (p : nat) : state :=
  match calls s !! p with
  | Some k =>
      with_call p {| originalRequest := originalRequest k; at_phase := Failed e |} s
  | None => s
  end.

(** What [processQueue] does for one entry of the wait-list. *)
Definition settle_one (err : option error) (token : string) (s : state)
    (p : nat) : state :=
  match err with
  | Some e => reject_parked e s p
  | None => resolve_parked token s p
  end.

(** [processQueue(error, token)] *)
Definition processQueue (err : option error) (token : string) (s : state)
  : state :=
  let s' := foldl (settle_one err token) s (failedQueue s) in
  {| isRefreshing := isRefreshing s'; failedQueue := [];
     storage := storage s'; calls := calls s'; sent := sent s' |}.

(** The [catch] block up to its first [await]. *)
Definition catch_refresh (c : nat) (cfg : config) (e : error) (s : state)
  : state :=
  with_call c {| originalRequest := cfg; at_phase := RemovingAccess e |}
    (processQueue (Some e) "" s).

(** The rejection handler of the response interceptor, run for the call
    [c] up to its first [await] or its return. *)
Definition on_rejected (c : nat) (cfg : config) (status : option Z) (s : state)
  : state :=
  if negb (bool_decide (status = Some 401)) || _retry cfg then
    with_call c {| originalRequest := cfg; at_phase := Failed (AxiosError status) |} s
  else if isRefreshing s then
    {| isRefreshing := true; failedQueue := (failedQueue s ++ [c])%list;
       storage := storage s;
       calls := <[c := {| originalRequest := cfg; at_phase := Parked |}]> (calls s);
       sent := sent s |}
  else
    {| isRefreshing := true; failedQueue := failedQueue s;
       storage := storage s;
       calls := <[c := {| originalRequest :=
                            {| _retry := true; Authorization := Authorization cfg |};
                          at_phase := GettingRefreshToken |}]> (calls s);
       sent := sent s |}.

(** What the event loop can deliver next. *)
Inductive event : Type :=
| Send (c : nat)
| RespondOk (c : nat)
| RespondError (c : nat) (status : option Z)
| GotRefreshToken (c : nat)
| RefreshSucceeded (c : nat) (access : string)
| RefreshFailed (c : nat) (status : option Z)
| AccessStored (c : nat)
| AccessRemoved (c : nat)
| RefreshRemoved (c : nat).

(** One turn of the event loop; [None] when the event cannot happen in
    [s]. *)
Definition step (s : state) (e : event) : option state :=
  match e with
  | Send c =>
      match calls s !! c with
      | None => Some (dispatch c {| _retry := false; Authorization := None |} s)
      | Some _ => None
      end
  | RespondOk c =>
      match calls s !! c with
      | Some {| originalRequest := cfg; at_phase := InFlight |} =>
          Some (with_call c {| originalRequest := cfg; at_phase := Fulfilled |} s)
      | _ => None
      end
  | RespondError c status =>
      match calls s !! c with
      | Some {| originalRequest := cfg; at_phase := InFlight |} =>
          Some (on_rejected c cfg status s)
      | _ => None
      end
  | GotRefreshToken c =>
      match calls s !! c with
      | Some {| originalRequest := cfg; at_phase := GettingRefreshToken |} =>
          match get REFRESH_TOKEN (storage s) with
          | Some refreshToken =>
              if String.eqb refreshToken "" then
                Some (catch_refresh c cfg NoRefreshToken s)
              else
                Some {| isRefreshing := isRefreshing s;
                        failedQueue := failedQueue s; storage := storage s;
                        calls := <[c := {| originalRequest := cfg;
                                           at_phase := Exchanging refreshToken |}]>
                                   (calls s);
                        sent := (sent s ++ [RefreshExchange c refreshToken])%list |}
          | None => Some (catch_refresh c cfg NoRefreshToken s)
          end
      | _ => None
      end
  | RefreshSucceeded c access =>
      match calls s !! c with
      | Some {| originalRequest := cfg; at_phase := Exchanging _ |} =>
          Some (with_call c {| originalRequest := cfg;
                               at_phase := StoringAccess access |} s)
      | _ => None
      end
  | RefreshFailed c status =>
      match calls s !! c with
      | Some {| originalRequest := cfg; at_phase := Exchanging _ |} =>
          Some (catch_refresh c cfg (AxiosError status) s)
      | _ => None
      end
  | AccessStored c =>
      match calls s !! c with
      | Some {| originalRequest := cfg; at_phase := StoringAccess access |} =>
          let s1 := with_storage (set ACCESS_TOKEN access (storage s)) s in
          let s2 := processQueue None access s1 in
          let s3 := dispatch c {| _retry := _retry cfg;
                                  Authorization := Some (Bearer access) |} s2 in
          Some (with_refreshing false s3)
      | _ => None
      end
  | AccessRemoved c =>
      match calls s !! c with
      | Some {| originalRequest := cfg; at_phase := RemovingAccess e |} =>
          Some (with_call c {| originalRequest := cfg; at_phase := RemovingRefresh e |}
                  (with_storage (remove ACCESS_TOKEN (storage s)) s))
      | _ => None
      end
  | RefreshRemoved c =>
      match calls s !! c with
      | Some {| originalRequest := cfg; at_phase := RemovingRefresh e |} =>
          Some (with_refreshing false
                  (with_call c {| originalRequest := cfg; at_phase := Failed e |}
                     (with_storage (remove REFRESH_TOKEN (storage s)) s)))
      | _ => None
      end
  end.

Fixpoint exec (s : state) (es : list event) : option state :=
  match es with
  | [] => Some s
  | e :: es' =>
      match step s e with
      | Some s' => exec s' es'
      | None => None
      end
  end.

(** Refresh exchanges sent and not yet answered. *)
Definition exchanging (k : call) : bool :=
  match at_phase k with
  | Exchanging _ => true
  | _ => false
  end.

Definition outstanding (s : state) : nat :=
  length (filter (fun ck => exchanging ck.2 = true) (map_to_list (calls s))).

(** Refresh exchanges sent so far. *)
Definition is_exchange (w : wire) : bool :=
  match w with
  | RefreshExchange _ _ => true
  | Request _ _ => false
  end.

Definition exchanges (s : state) : nat :=
  length (filter (fun w => is_exchange w = true) (sent s)).

(** The phases of the interceptor run that performs the refresh. *)
Definition refreshing (k : call) : bool :=
  match at_phase k with
  | GettingRefreshToken | Exchanging _ | StoringAccess _
  | RemovingAccess _ | RemovingRefresh _ => true
  | _ => false
  end.

(** What [processQueue] makes of a parked call. *)
Definition settled (err : option error) (token : string) (es : EncryptedStorage)
    (k : call) : call :=
  match err with
  | Some e => {| originalRequest := originalRequest k; at_phase := Failed e |}
  | None =>
      {| originalRequest :=
           attach es {| _retry := _retry (originalRequest k);
                        Authorization := Some (Bearer token) |};
         at_phase := InFlight |}
  end.

(** The facts about a state that every run from [at_startup] keeps. *)
Record well_formed (s : state) : Prop := mkWF {
  wf_single :
    forall c1 k1 c2 k2,
      calls s !! c1 = Some k1 -> calls s !! c2 = Some k2 ->
      refreshing k1 = true -> refreshing k2 = true -> c1 = c2;
  wf_idle :
    isRefreshing s = false ->
    forall c k, calls s !! c = Some k -> refreshing k = false;
  wf_parked :
    forall p, p ∈ failedQueue s ->
              exists cfg, calls s !! p = Some {| originalRequest := cfg;
                                                 at_phase := Parked |}
}.

(** A call as it sits on the wait-list. *)
Definition park (k : call) : call :=
  {| originalRequest := originalRequest k; at_phase := Parked |}.

(** A call that went out unmarked and got no answer yet. *)
Definition fresh_in_flight (s : state) (c : nat) : Prop :=
  exists auth,
    calls s !! c = Some {| originalRequest := {| _retry := false;
                                                 Authorization := auth |};
                           at_phase := InFlight |}.

(** The state [s] while the call [r] refreshes, at phase [ph], with the
    calls [fq] parked and [snt] sent since the state [s0] in which [r] got
    its 401. *)
Record during (s0 : state) (r : nat) (ph : phase) (fq : list nat)
    (snt : list wire) (s : state) : Prop := mkDuring {
  du_refreshing : isRefreshing s = true;
  du_queue : failedQueue s = fq;
  du_storage : storage s = storage s0;
  du_sent : sent s = (sent s0 ++ snt)%list;
  du_refresher :
    exists auth, calls s !! r
                 = Some {| originalRequest := {| _retry := true;
                                                 Authorization := auth |};
                           at_phase := ph |};
  du_parked : forall p, p ∈ fq -> p <> r /\ calls s !! p = park <$> calls s0 !! p;
  du_others : forall c, c <> r -> c ∉ fq -> calls s !! c = calls s0 !! c
}.

(** The 401 responses that park the calls [ps], one after the other. *)
Definition unauthorized (ps : list nat) : list event :=
  map (fun p => RespondError p (Some 401)) ps.

(** A store holding both tokens. *)
Definition logged_in (access refresh : string) : EncryptedStorage :=
  {[ ACCESS_TOKEN := access; REFRESH_TOKEN := refresh ]}.

(** Refresh exchanges the call [c] has sent so far. *)
Definition is_exchange_of (c : nat) (w : wire) : bool :=
  match w with
  | RefreshExchange c' _ => bool_decide (c' = c)
  | Request _ _ => false
  end.

Definition exchanges_of (c : nat) (s : state) : nat :=
  length (filter (fun w => is_exchange_of c w = true) (sent s)).

(** A call that is refreshing carries the [_retry] mark, and a call that
    has sent a refresh exchange has sent one, carries the mark and is past
    the reading of the refresh token. *)
Record marked (s : state) : Prop := mkMarked {
  mk_refreshing :
    forall c k, calls s !! c = Some k -> refreshing k = true ->
                _retry (originalRequest k) = true;
  mk_once :
    forall c,
      exchanges_of c s = 0%nat
      \/ (exchanges_of c s = 1%nat
          /\ exists k, calls s !! c = Some k
                       /\ _retry (originalRequest k) = true
                       /\ at_phase k <> GettingRefreshToken)
}.

(** The wait-list names no call twice and every parked call is on it. *)
Record listed (s : state) : Prop := mkListed {
  li_nodup : NoDup (failedQueue s);
  li_parked :
    forall c k, calls s !! c = Some k -> at_phase k = Parked ->
                c ∈ failedQueue s
}.

End Api.

(** ** modules/attendance/ClockInScreen.tsx : what becomes of a failed call *)

Module ClockInScreen.
Import Api.

(** [if (!apiErr.response)]: the test by which a failed submission is
    taken for a network failure and put on the offline queue.  An
    [AxiosError] has a response when it has a status; the plain [Error] of
    the interceptor has none. *)
Definition taken_for_network_failure (apiErr : error) : bool :=
  match apiErr with
  | AxiosError (Some _) => false
  | AxiosError None => true
  | NoRefreshToken => true
  end.

End ClockInScreen.

(** ** A concrete instance to run the store on *)

Module Demo.
Import Storage Constants OfflineStore.

Abbreviation record := (OfflineRecord string).

#[global] Instance record_eq_dec : EqDecision record.
Proof. solve_decision. Defined.

#[global] Instance record_countable : Countable record :=
  inj_countable'
    (fun r : record => (id r, payload r, createdAt r, synced r, syncError r))
    (fun t => let '(i, p, c, s, e) := t in mkRecord i p c s e)
    (fun r => match r with mkRecord _ _ _ _ _ => eq_refl end).

(** A serializer with a parser that inverts it: the queue as one decimal
    numeral. *)
Definition stringify (q : list record) : string :=
  DecimalString.NilZero.string_of_uint (Pos.to_uint (encode q)).

Definition parse (raw : string) : outcome (option (list record)) :=
  match DecimalString.NilZero.uint_of_string raw with
  | Some u =>
      match Pos.of_uint u with
      | Npos n =>
          match decode n with
          | Some q => Return (Some q)
          | None => Throw "SyntaxError"
          end
      | N0 => Throw "SyntaxError"
      end
  | None => Throw "SyntaxError"
  end.

(** A backend that counts the submissions it gets and turns down the
    payload ["mock"]. *)
Definition submit (n : nat) (p : string) : nat * delivery :=
  (S n, if String.eqb p "mock" then Rejected (Some "Mock location detected")
        else Delivered).

Definition empty_world : world string := {| state := initial; disk := ∅ |}.

Definition entry (i p : string) (s : bool) : record :=
  mkRecord i p "2024-01-01T08:00:00.000Z" s None.

(** Three queued events, the second of which the backend will refuse. *)
Definition three : list record :=
  [entry "offline_1_a" "in" false; entry "offline_2_b" "mock" false;
   entry "offline_3_c" "out" false].

Definition world_of (q : list record) : world string :=
  {| state := {| queue := q; isSyncing := false; lastSyncAt := None |};
     disk := ∅ |}.

(** A backend that takes every submission. *)
Definition accept (n : nat) (p : string) : nat * delivery := (S n, Delivered).

(** A queue that synced events fill to the limit. *)
Definition full_of_synced : world string :=
  world_of (replicate MAX_QUEUE_SIZE (entry "offline_1_a" "in" true)).

(** A user carried by its e-mail address, with a serializer that a
    parser inverts, and a tenant for everyone but the operator. *)
Definition user_stringify (u : string) : string := String "u" u.

Definition user_parse (raw : string) : outcome (option string) :=
  match raw with
  | String "u" u => Return (Some u)
  | _ => Throw "SyntaxError"
  end.

Definition user_slug (u : string) : option string :=
  if String.eqb u "operator@example.com" then None else Some "acme".

(** *** Runs of the interceptor *)

Import Api.

(** The state a run from startup ends in (the startup state itself when
    the run cannot happen). *)
Definition after (es : EncryptedStorage) (evs : list event) : state :=
  default (at_startup es) (exec (at_startup es) evs).

Definition both_tokens : EncryptedStorage := logged_in "old" "r1".

(** The store once the refresh token is gone: only the access token. *)
Definition access_only : EncryptedStorage := {[ ACCESS_TOKEN := "old" ]}.

(** Call 1 gets a 401 and refreshes; call 2 gets its 401 meanwhile and is
    parked; the refresh succeeds and both are replayed. *)
Definition refresh_with_one_parked : list event :=
  [Send 1; Send 2; RespondError 1 (Some 401); RespondError 2 (Some 401);
   GotRefreshToken 1; RefreshSucceeded 1 "new"; AccessStored 1].

(** The backend turns the refresh down; call 2 gets its 401 while the
    interceptor is removing the tokens. *)
Definition refresh_rejected_late_401 : list event :=
  [Send 1; Send 2; RespondError 1 (Some 401); GotRefreshToken 1;
   RefreshFailed 1 (Some 401); RespondError 2 (Some 401);
   AccessRemoved 1; RefreshRemoved 1].

(** No refresh token is stored; call 2 gets its 401 while the interceptor
    is removing the tokens. *)
Definition no_refresh_token_late_401 : list event :=
  [Send 1; Send 2; RespondError 1 (Some 401); GotRefreshToken 1;
   RespondError 2 (Some 401); AccessRemoved 1; RefreshRemoved 1].

(** Three calls get a 401 around one refresh that the backend turns
    down: call 1 performs it, call 2 is parked while the exchange is out,
    and the 401 of call 3 comes while the interceptor is removing the
    tokens. *)
Definition burst_with_late_401 : list event :=
  [Send 1; Send 2; Send 3; RespondError 1 (Some 401); RespondError 2 (Some 401);
   GotRefreshToken 1; RefreshFailed 1 (Some 401); RespondError 3 (Some 401);
   AccessRemoved 1; RefreshRemoved 1].

(** Later a fourth call gets a 401 and finds no refresh token. *)
Definition next_refresh_attempt : list event :=
  [Send 4; RespondError 4 (Some 401); GotRefreshToken 4].

(** The phase and the retry mark of a call. *)
Definition status_of (c : nat) (s : state) : option (phase * bool) :=
  (fun k => (at_phase k, _retry (originalRequest k))) <$> calls s !! c.

(** How often the call [c] went out. *)
Definition times_sent (c : nat) (s : state) : nat :=
  length (filter (fun w => match w with
                           | Request c' _ => bool_decide (c' = c)
                           | RefreshExchange _ _ => false
                           end = true) (sent s)).

End Demo.

(** ** hooks/useOfflineSync.ts : what the triggers call *)

Module UseOfflineSync.
Import Storage Constants OfflineStore.

Section Hook.
Variable OfflineAttendancePayload : Type.
Variable JSON_stringify : list (OfflineRecord OfflineAttendancePayload) -> string.
Variable backend : Type.
Variable syncOfflineRecord :
  backend -> OfflineAttendancePayload -> backend * delivery.

(** [queue.filter(r => !r.synced).length] *)
Definition pendingCount (q : list (OfflineRecord OfflineAttendancePayload)) : nat :=
  length (filter (fun r => unsynced _ r = true) q).

(** The callback [syncNow] alone, from its call to its return:
    [clearSynced] is called when the drain delivered something.  What the
    hook's effect does besides when the drain has changed [pendingCount],
    a [loadQueue] of its own, is the matter of [mounted] below. *)
Definition syncNow (iso : string) (b : backend)
    (w : world OfflineAttendancePayload)
  : sync_result OfflineAttendancePayload * backend * world OfflineAttendancePayload :=
  let '(result, b', w') :=
    syncAll _ JSON_stringify backend syncOfflineRecord iso b w in
  if (0 <? res_synced _ result)%nat
  then (result, b', clearSynced _ JSON_stringify w')
  else (result, b', w').

(** What the app does to the store once the queue is loaded: the clock-in
    screen calls [addToQueue], the hook's timer, connectivity listener and
    button call [syncNow]. *)
Inductive app_op : Type :=
| Queue (p : OfflineAttendancePayload) (now rnd iso : string)
| SyncNow (iso : string).

Definition apply_app_op (o : app_op)
    (bw : backend * world OfflineAttendancePayload)
  : backend * world OfflineAttendancePayload :=
  match o with
  | Queue p now rnd iso =>
      (bw.1, (addToQueue _ JSON_stringify p now rnd iso bw.2).2)
  | SyncNow iso => let '(_, b', w') := syncNow iso bw.1 bw.2 in (b', w')
  end.

Definition run_app (ops : list app_op)
    (bw : backend * world OfflineAttendancePayload)
  : backend * world OfflineAttendancePayload :=
  foldl (fun acc o => apply_app_op o acc) bw ops.

(** *** The mounted hook once a drain has delivered something

    The effect of the hook depends on [pendingCount].  When the drain of a
    [syncNow] ends having delivered something, the count has changed: the
    effect runs again and calls [loadQueue], once for every component that
    has the hook mounted.  A [loadQueue] reads the disk and, some turns of
    the event loop later, makes what it read the queue; meanwhile
    [syncNow] goes on to its [clearSynced]. *)
Variable JSON_parse :
  string -> outcome (option (list (OfflineRecord OfflineAttendancePayload))).

(** The store, what the [loadQueue] calls under way have read, and
    whether [syncNow] has still to call [clearSynced]. *)
Record mounted : Type := mkMounted {
  store : world OfflineAttendancePayload;
  reading : list (option (list (OfflineRecord OfflineAttendancePayload)));
  will_clear : bool
}.

Inductive turn : Type :=
| ClearSyncedRuns
| LoadQueueReads
| LoadQueueLands (k : nat).

(** What [await secureStorage.getObject(OFFLINE_QUEUE)] resolves to;
    [getObject] catches what the parser throws. *)
Definition stored_queue (d : EncryptedStorage)
  : option (list (OfflineRecord OfflineAttendancePayload)) :=
  match getObject JSON_parse OFFLINE_QUEUE d with
  | Return stored => stored
  | Throw _ => None
  end.

(** [if (stored) { set({queue: stored}) }] *)
Definition land (stored : option (list (OfflineRecord OfflineAttendancePayload)))
    (w : world OfflineAttendancePayload) : world OfflineAttendancePayload :=
  match stored with
  | Some q =>
      {| state := {| queue := q; isSyncing := isSyncing (state w);
                     lastSyncAt := lastSyncAt (state w) |};
         disk := disk w |}
  | None => w
  end.

(** One turn of the event loop; [None] when the turn cannot happen. *)
Definition hook_step (h : mounted) (t : turn) : option mounted :=
  match t with
  | ClearSyncedRuns =>
      if will_clear h
      then Some {| store := clearSynced _ JSON_stringify (store h);
                   reading := reading h; will_clear := false |}
      else None
  | LoadQueueReads =>
      Some {| store := store h;
              reading := (reading h ++ [stored_queue (disk (store h))])%list;
              will_clear := will_clear h |}
  | LoadQueueLands k =>
      match reading h !! k with
      | Some stored =>
          Some {| store := land stored (store h);
                  reading := delete k (reading h);
                  will_clear := will_clear h |}
      | None => None
      end
  end.

Fixpoint hook_run (h : mounted) (ts : list turn) : option mounted :=
  match ts with
  | [] => Some h
  | t :: ts' =>
      match hook_step h t with
      | Some h' => hook_run h' ts'
      | None => None
      end
  end.

(** What holds from the end of a drain that left the queue [q1] in memory
    and on disk: memory and every value read hold [q1], with or without
    its synced events; so does the disk, without them once [clearSynced]
    has run. *)
Definition reloading (q1 : list (OfflineRecord OfflineAttendancePayload))
    (h : mounted) : Prop :=
  let remaining := filter (fun r => unsynced _ r = true) q1 in
  (queue (state (store h)) = q1 \/ queue (state (store h)) = remaining)
  /\ Forall (fun stored => stored = Some q1 \/ stored = Some remaining) (reading h)
  /\ (disk (store h) !! OFFLINE_QUEUE = Some (JSON_stringify q1)
      \/ disk (store h) !! OFFLINE_QUEUE = Some (JSON_stringify remaining))
  /\ (will_clear h = false ->
      disk (store h) !! OFFLINE_QUEUE = Some (JSON_stringify remaining)).

(** [syncNow] up to the return of its [syncAll], with no [loadQueue]
    under way. *)
Definition syncNow_drained (iso : string) (b : backend)
    (w : world OfflineAttendancePayload)
  : sync_result OfflineAttendancePayload * backend * mounted :=
  let '(result, b', w') :=
    syncAll _ JSON_stringify backend syncOfflineRecord iso b w in
  (result, b',
   {| store := w'; reading := []; will_clear := (0 <? res_synced _ result)%nat |}).

End Hook.

End UseOfflineSync.

(** ** services/auth.service.ts : the session in storage *)

Module AuthService.
Import Storage Constants Api.

(** Whether a [string | null] counts as true. *)
Definition truthy (v : option string) : bool :=
  match v with
  | Some s => negb (String.eqb s "")
  | None => false
  end.

(** How a call made through [api] settles: with the response's data or
    with an error. *)
Inductive reply (A : Type) : Type :=
| Resolves (data : A)
| Rejects (e : error).
Arguments Resolves {A} data.
Arguments Rejects {A} e.

Section Auth.
Variable User : Type.

(** [user.tenant_slug] *)
Variable tenant_slug : User -> option string.

Variable JSON_stringify : User -> string.
Variable JSON_parse : string -> outcome (option User).

(** [response.data] of [/auth/login/] *)
Record login_data : Type := mkLoginData {
  access : string;
  refresh : string;
  user : User
}.

(** [login]; [post es] is how [api.post('/auth/login/', payload)]
    settles and what the storage is by then: the call goes through the
    interceptors of [api], and the response interceptor removes or
    replaces the stored tokens when the answer is a 401. *)
Definition login (post : EncryptedStorage -> reply login_data * EncryptedStorage)
    (es : EncryptedStorage) : reply login_data * EncryptedStorage :=
  let '(response, es0) := post es in
  match response with
  | Rejects e => (Rejects e, es0)
  | Resolves data =>
      let es1 := set ACCESS_TOKEN (access data) es0 in
      let es2 := set REFRESH_TOKEN (refresh data) es1 in
      let es3 := setObject JSON_stringify USER_DATA (user data) es2 in
      let es4 := if truthy (tenant_slug (user data))
                 then set TENANT_SLUG (default "" (tenant_slug (user data))) es3
                 else es3 in
      (Resolves data, es4)
  end.

(** [logout]; [post refresh es] is how [api.post('/auth/logout/',
    {refresh})] settles and what the storage is by then.  The result is
    the refresh token posted, if the call was made, whether [logout]
    itself rejects, and the storage it leaves. *)
Definition logout (post : string -> EncryptedStorage -> reply unit * EncryptedStorage)
    (es : EncryptedStorage) : option string * reply unit * EncryptedStorage :=
  let '(posted, tried, es1) :=
    match get REFRESH_TOKEN es with
    | Some refresh =>
        if truthy (Some refresh)
        then let '(r, es') := post refresh es in (Some refresh, r, es')
        else (None, Resolves tt, es)
    | None => (None, Resolves tt, es)
    end in
  (* catch: ignore logout API errors *)
  let caught := match tried with
                | Resolves _ => Resolves tt
                | Rejects _ => Resolves tt
                end in
  (* finally *)
  let es2 := remove ACCESS_TOKEN es1 in
  let es3 := remove REFRESH_TOKEN es2 in
  let es4 := remove USER_DATA es3 in
  let es5 := remove TENANT_SLUG es4 in
  (posted, caught, es5).

Definition getStoredUser (es : EncryptedStorage) : outcome (option User) :=
  getObject JSON_parse USER_DATA es.

Definition isAuthenticated (es : EncryptedStorage) : bool :=
  truthy (get ACCESS_TOKEN es).

Definition getTenantSlug (es : EncryptedStorage) : option string :=
  get TENANT_SLUG es.

End Auth.

(** [getTenantPrefix] of services/attendance.service.ts *)
Definition getTenantPrefix (es : EncryptedStorage) : string :=
  if truthy (getTenantSlug es) then "/" +:+ default "" (getTenantSlug es) else "".

End AuthService.

(** ** modules/attendance/ClockInScreen.tsx : [handleClockIn] *)

Module HandleClockIn.
Import Helpers Storage Constants OfflineStore Api ClockInScreen.

(** What [getCurrentLocation()] resolves to; a number is carried by its
    rendering. *)
Record LocationData : Type := mkLocation {
  latitude : string;
  longitude : string;
  accuracy : string;
  isMockLocation : bool
}.

(** What the screen holds when the button is pressed: the route's
    [shiftId], the selfie taken and what [useDeviceSecurity] gave. *)
Record screen : Type := mkScreen {
  shiftId : string;
  selfieBase64 : option string;
  deviceId : option string;
  isRooted : bool
}.

Definition clockInPayload (shift selfie device timestamp : string)
    (location : LocationData) (rooted : bool) : object :=
  [("shift_id", JStr shift);
   ("selfie", JStr selfie);
   ("latitude", JNum (latitude location));
   ("longitude", JNum (longitude location));
   ("gps_accuracy", JNum (accuracy location));
   ("device_id", JStr device);
   ("liveness_score", JNum "0.95");
   ("face_match_score", JNum "0.92");
   ("client_timestamp", JStr timestamp);
   ("is_mock_location", JBool (isMockLocation location || rooted))].

(** [{...payload}] *)
Definition spread (payload : object) : object :=
  foldl (fun acc kv => set_prop acc kv.1 kv.2) [] payload.

(** [{...payload, integrity_hash: generateIntegrityHash(payload),
    recorded_at: timestamp}] *)
Definition offlinePayload (payload : object) (timestamp : string) : object :=
  set_prop
    (set_prop (spread payload) "integrity_hash"
       (JStr (generateIntegrityHash payload)))
    "recorded_at" (JStr timestamp).

(** The alert the handler ends with; its text is left out. *)
Inductive alert : Type :=
| AlertSuccess
| AlertOffline
| AlertQueueFull
| AlertValidationFailed
| AlertError.

Section Handler.
Variable JSON_stringify : list (OfflineRecord object) -> string.

(** [handleClockIn]: [location] is how [getCurrentLocation()] settles,
    [timestamp] what [getCurrentTimestamp()] gives, [clockIn] how
    [attendanceService.clockIn] settles ([None] when it resolves), and
    [now], [rnd], [iso] what [addToQueue] reads.  The result is the alert
    shown, if any, and the store afterwards. *)
Definition handleClockIn (sc : screen) (location : outcome LocationData)
    (timestamp : string) (clockIn : object -> option error)
    (now rnd iso : string) (w : world object) : option alert * world object :=
  match selfieBase64 sc, deviceId sc with
  | Some selfie, Some device =>
      if String.eqb selfie "" || String.eqb device "" then (None, w)
      else
        match location with
        | Throw _ => (Some AlertError, w)
        | Return loc =>
            let payload :=
              clockInPayload (shiftId sc) selfie device timestamp loc
                (isRooted sc) in
            match clockIn payload with
            | None => (Some AlertSuccess, w)
            | Some apiErr =>
                if taken_for_network_failure apiErr then
                  let '(queued, w') :=
                    addToQueue object JSON_stringify
                      (offlinePayload payload timestamp) now rnd iso w in
                  (Some (if queued then AlertOffline else AlertQueueFull), w')
                else (Some AlertValidationFailed, w)
            end
        end
  | _, _ => (None, w)
  end.

End Handler.

End HandleClockIn.

(** ** The ids of queued events *)

Module QueueIds.
Import Storage Constants OfflineStore.

(** [String(Date.now())]: a whole number of milliseconds in decimal. *)
Definition milliseconds (t : N) : string :=
  DecimalString.NilZero.string_of_uint (N.to_uint t).

Section Ids.
Variable OfflineAttendancePayload : Type.

(** The ids the enqueues among [ops] generate, in order. *)
Fixpoint enqueued_ids (ops : list (op OfflineAttendancePayload)) : list string :=
  match ops with
  | [] => []
  | Enqueue _ _ now rnd _ :: ops' => new_id now rnd :: enqueued_ids ops'
  | _ :: ops' => enqueued_ids ops'
  end.

End Ids.

End QueueIds.

(** ** A concrete clock-in *)

Module DemoClockIn.
Import Api HandleClockIn.

Definition at_the_gate : LocationData :=
  mkLocation "24.7136" "46.6753" "5" false.

Definition ready : screen :=
  mkScreen "shift-1" (Some "c2VsZmll") (Some "device-1") false.

Definition no_network (payload : Helpers.object) : option error :=
  Some (AxiosError None).

End DemoClockIn.

(** Close a decidable closed goal by evaluating its decision procedure. *)
Ltac by_decide := apply (bool_decide_unpack _); vm_compute; exact I.

Module HelpersFacts.
Import Helpers.

Lemma ascii_compare_N a b :
  Ascii.compare a b = N.compare (N_of_ascii a) (N_of_ascii b).
Proof. reflexivity. Qed.

Lemma ascii_compare_lt_trans a b c :
  Ascii.compare a b = Lt -> Ascii.compare b c = Lt -> Ascii.compare a c = Lt.
Proof.
  rewrite !ascii_compare_N, !N.compare_lt_iff. lia.
Qed.

Lemma str_compare_lt_trans s1 : forall s2 s3,
  String.compare s1 s2 = Lt -> String.compare s2 s3 = Lt ->
  String.compare s1 s3 = Lt.
Proof.
  induction s1 as [|a s1 IH]; intros [|b s2] [|c s3]; simpl; try congruence.
  destruct (Ascii.compare a b) eqn:Hab; try congruence;
    destruct (Ascii.compare b c) eqn:Hbc; try congruence; intros H1 H2.
  - apply Ascii.compare_eq_iff in Hab, Hbc. subst.
    assert (Hcc : Ascii.compare c c = Eq)
      by (rewrite ascii_compare_N; apply N.compare_refl).
    rewrite Hcc. eauto.
  - apply Ascii.compare_eq_iff in Hab. subst. by rewrite Hbc.
  - apply Ascii.compare_eq_iff in Hbc. subst. by rewrite Hab.
  - by rewrite (ascii_compare_lt_trans _ _ _ Hab Hbc).
Qed.

Lemma str_compare_refl s : String.compare s s = Eq.
Proof.
  induction s as [|a s IH]; simpl; [done|].
  rewrite ascii_compare_N, N.compare_refl. done.
Qed.

#[local] Instance str_le_trans : Transitive str_le.
Proof.
  intros s1 s2 s3. unfold str_le, String.leb.
  destruct (String.compare s1 s2) eqn:H12; try congruence;
    destruct (String.compare s2 s3) eqn:H23; try congruence; intros _ _.
  - apply String.compare_eq_iff in H12, H23. subst. by rewrite str_compare_refl.
  - apply String.compare_eq_iff in H12. subst. by rewrite H23.
  - apply String.compare_eq_iff in H23. subst. by rewrite H12.
  - by rewrite (str_compare_lt_trans _ _ _ H12 H23).
Qed.

#[local] Instance str_le_antisym : AntiSymm (=) str_le.
Proof. intros s1 s2. apply String.leb_antisym. Qed.

#[local] Instance str_le_total : Total str_le.
Proof. intros s1 s2. apply String.leb_total. Qed.

Lemma sort_sorted l : Sorted str_le (sort l).
Proof. apply Sorted_merge_sort, _. Qed.

Lemma sort_perm l : sort l ≡ₚ l.
Proof. apply merge_sort_Permutation. Qed.

(** Sorting forgets the order its input came in. *)
Lemma sort_permutation_eq l1 l2 : l1 ≡ₚ l2 -> sort l1 = sort l2.
Proof.
  intros Hp. apply (Sorted_unique str_le); try apply sort_sorted.
  by rewrite !sort_perm.
Qed.

Lemma get_prop_elem o k v :
  NoDup (Object_keys o) -> (k, v) ∈ o -> get_prop o k = v.
Proof.
  unfold Object_keys. induction o as [|[k' v'] o IH]; simpl; intros Hnd Hin.
  - by apply elem_of_nil in Hin.
  - apply NoDup_cons in Hnd as [Hk' Hnd].
    apply elem_of_cons in Hin as [Heq|Hin].
    + inversion Heq; subst. by rewrite String.eqb_refl.
    + destruct (String.eqb_spec k' k) as [->|Hne]; [|by apply IH].
      exfalso. apply Hk'. apply list_elem_of_fmap. by exists (k, v).
Qed.

Lemma get_prop_absent o k : k ∉ Object_keys o -> get_prop o k = JUndefined.
Proof.
  unfold Object_keys. induction o as [|[k' v'] o IH]; simpl; intros Hk; [done|].
  apply not_elem_of_cons in Hk as [Hne Hk].
  destruct (String.eqb_spec k' k) as [->|_]; [done|by apply IH].
Qed.

Lemma elem_of_keys o k : k ∈ Object_keys o -> exists v, (k, v) ∈ o.
Proof.
  unfold Object_keys. intros Hk. apply list_elem_of_fmap in Hk as [[k' v] [-> Hin]].
  by exists v.
Qed.

(** Two property lists that are permutations of one another answer every
    lookup alike. *)
Lemma get_prop_permutation p1 p2 k :
  NoDup (Object_keys p1) -> p1 ≡ₚ p2 -> get_prop p1 k = get_prop p2 k.
Proof.
  intros Hnd Hp.
  assert (Hnd2 : NoDup (Object_keys p2)).
  { unfold Object_keys in *. by rewrite <- Hp. }
  destruct (decide (k ∈ Object_keys p1)) as [Hin|Hnin].
  - destruct (elem_of_keys _ _ Hin) as [v Hv].
    rewrite (get_prop_elem p1 k v) by done.
    symmetry. apply get_prop_elem; [done|]. by rewrite <- Hp.
  - rewrite get_prop_absent by done.
    symmetry. apply get_prop_absent. unfold Object_keys in *. by rewrite <- Hp.
Qed.

Lemma ordered_permutation p1 p2 :
  NoDup (Object_keys p1) -> p1 ≡ₚ p2 -> ordered p1 = ordered p2.
Proof.
  intros Hnd Hp. unfold ordered.
  assert (Hk : sort (Object_keys p1) = sort (Object_keys p2)).
  { apply sort_permutation_eq. unfold Object_keys. by rewrite Hp. }
  rewrite <- Hk. generalize (sort (Object_keys p1)) (@nil (string * json)).
  intros l. induction l as [|k l IH]; intros acc; simpl; [done|].
  rewrite (get_prop_permutation p1 p2 k) by done. apply IH.
Qed.

Lemma has_prop_keys o k : has_prop o k = true <-> k ∈ Object_keys o.
Proof.
  unfold Object_keys. induction o as [|[k' v'] o IH]; simpl.
  - split; [done|]. intros H. by apply elem_of_nil in H.
  - rewrite orb_true_iff, IH, elem_of_cons.
    destruct (String.eqb_spec k' k) as [->|Hne]; [by split; auto|].
    split; intros [H|H]; auto; congruence.
Qed.

Lemma get_prop_replace o k v k' :
  has_prop o k = true ->
  get_prop (replace_prop o k v) k' = if String.eqb k k' then v else get_prop o k'.
Proof.
  induction o as [|[k0 v0] o IH]; simpl; [done|].
  destruct (String.eqb_spec k0 k) as [->|Hne]; simpl.
  - intros _. by destruct (String.eqb_spec k k').
  - intros Hh. rewrite IH by done.
    destruct (String.eqb_spec k0 k'), (String.eqb_spec k k'); congruence.
Qed.

Lemma get_prop_insert_index o n k v k' :
  has_prop o k = false ->
  get_prop (insert_index o n k v) k' = if String.eqb k k' then v else get_prop o k'.
Proof.
  induction o as [|[k0 v0] o IH]; simpl; [done|].
  intros Hh. apply orb_false_iff in Hh as [Hne Hh].
  destruct (array_index k0) as [n'|]; [destruct (n' <? n)%N|]; simpl;
    rewrite ?IH by done; try done.
  destruct (String.eqb_spec k0 k'), (String.eqb_spec k k'); try congruence.
  subst. by rewrite String.eqb_refl in Hne.
Qed.

Lemma keys_insert_index o n k v :
  Object_keys (insert_index o n k v) ≡ₚ k :: Object_keys o.
Proof.
  unfold Object_keys. induction o as [|[k0 v0] o IH]; simpl; [done|].
  destruct (array_index k0) as [n'|]; [destruct (n' <? n)%N|]; simpl; try done.
  rewrite IH. apply Permutation_swap.
Qed.

Lemma get_prop_app o k v k' :
  has_prop o k = false ->
  get_prop (o ++ [(k, v)])%list k' = if String.eqb k k' then v else get_prop o k'.
Proof.
  induction o as [|[k0 v0] o IH]; simpl; [done|].
  intros Hh. apply orb_false_iff in Hh as [Hne Hh]. rewrite IH by done.
  destruct (String.eqb_spec k0 k'), (String.eqb_spec k k'); try congruence.
  subst. by rewrite String.eqb_refl in Hne.
Qed.

(** Reading back after [acc[key] = v]. *)
Lemma get_set_prop o k v k' :
  get_prop (set_prop o k v) k' = if String.eqb k k' then v else get_prop o k'.
Proof.
  unfold set_prop. destruct (has_prop o k) eqn:Hh.
  - by apply get_prop_replace.
  - destruct (array_index k); [by apply get_prop_insert_index|by apply get_prop_app].
Qed.

Lemma keys_set_prop_new o k v :
  k ∉ Object_keys o -> Object_keys (set_prop o k v) ≡ₚ k :: Object_keys o.
Proof.
  intros Hk. unfold set_prop.
  destruct (has_prop o k) eqn:Hh; [by apply has_prop_keys in Hh|].
  destruct (array_index k); [apply keys_insert_index|].
  unfold Object_keys. rewrite fmap_app. simpl.
  by rewrite Permutation_app_comm.
Qed.

Lemma reduce_keys (f : string -> json) l : forall acc,
  NoDup l -> (forall k, k ∈ l -> k ∉ Object_keys acc) ->
  Object_keys (foldl (fun a key => set_prop a key (f key)) acc l)
    ≡ₚ (Object_keys acc ++ l)%list.
Proof.
  induction l as [|k l IH]; intros acc Hnd Hdis; simpl.
  - by rewrite app_nil_r.
  - apply NoDup_cons in Hnd as [Hk Hnd].
    rewrite IH; [|done|].
    + rewrite keys_set_prop_new by (apply Hdis; left).
      by rewrite <- Permutation_middle.
    + intros k' Hk'. rewrite keys_set_prop_new by (apply Hdis; left).
      apply not_elem_of_cons. split; [congruence|]. apply Hdis. by right.
Qed.

Lemma reduce_get (f : string -> json) l : forall acc k,
  get_prop (foldl (fun a key => set_prop a key (f key)) acc l) k
  = if decide (k ∈ l) then f k else get_prop acc k.
Proof.
  induction l as [|k0 l IH]; intros acc k; simpl.
  - destruct (decide (k ∈ [])) as [H|_]; [by apply elem_of_nil in H|done].
  - rewrite IH, get_set_prop.
    destruct (decide (k ∈ l)) as [Hl|Hl], (decide (k ∈ k0 :: l)) as [H|H];
      destruct (String.eqb_spec k0 k) as [Heq|Hne]; subst; try done;
      exfalso; set_solver.
Qed.

(** [acc[key] = v] over a list of keys skips [__proto__] and defines the
    others. *)
Lemma reduce_assign (f : string -> json) l : forall acc,
  foldl (fun a key => assign_prop a key (f key)) acc l
  = foldl (fun a key => set_prop a key (f key)) acc
      (filter (fun k => k <> "__proto__") l).
Proof.
  induction l as [|k l IH]; intros acc; simpl; [done|].
  unfold assign_prop at 2. destruct (String.eqb_spec k "__proto__") as [->|Hne].
  - rewrite filter_cons_False by (intros H; by apply H). apply IH.
  - rewrite filter_cons_True by done. simpl. apply IH.
Qed.

Lemma reduce_ext (f g : string -> json) l : forall acc,
  (forall k, k ∈ l -> f k = g k) ->
  foldl (fun a key => set_prop a key (f key)) acc l
  = foldl (fun a key => set_prop a key (g key)) acc l.
Proof.
  induction l as [|k l IH]; intros acc Hfg; simpl; [done|].
  rewrite (Hfg k) by left. apply IH. intros k' Hk'. apply Hfg. by right.
Qed.

Lemma filter_strongly_sorted {A} (R : relation A) (P : A -> Prop)
    `{forall x, Decision (P x)} l :
  StronglySorted R l -> StronglySorted R (filter P l).
Proof.
  induction 1 as [|x l Hl IH Hx]; [constructor|].
  destruct (decide (P x)).
  - rewrite filter_cons_True by done. constructor; [done|].
    apply Forall_forall. intros y Hy. apply list_elem_of_filter in Hy as [_ Hy].
    by apply (proj1 (Forall_forall _ _) Hx).
  - by rewrite filter_cons_False.
Qed.

(** Sorting and leaving keys out can be done in either order. *)
Lemma sort_filter (P : string -> Prop) `{forall x, Decision (P x)} l :
  sort (filter P l) = filter P (sort l).
Proof.
  apply (StronglySorted_unique str_le).
  - apply Sorted_StronglySorted; [apply _|apply sort_sorted].
  - apply filter_strongly_sorted, Sorted_StronglySorted; [apply _|apply sort_sorted].
  - by rewrite !sort_perm.
Qed.

Lemma ordered_keys p :
  NoDup (Object_keys p) ->
  Object_keys (ordered p) ≡ₚ filter (fun k => k <> "__proto__") (Object_keys p).
Proof.
  intros Hnd. unfold ordered. rewrite reduce_assign, reduce_keys.
  - simpl. by rewrite sort_perm.
  - apply NoDup_filter. by rewrite sort_perm.
  - intros k _ H. by apply elem_of_nil in H.
Qed.

Lemma ordered_get p k :
  k <> "__proto__" -> get_prop (ordered p) k = get_prop p k.
Proof.
  intros Hk. unfold ordered. rewrite reduce_assign, reduce_get.
  destruct (decide _) as [|Hn]; [done|].
  simpl. symmetry. apply get_prop_absent. intros Hin. apply Hn.
  apply list_elem_of_filter. split; [done|]. by rewrite sort_perm.
Qed.

(** The sorted projection is already in the order the projection gives. *)
Lemma ordered_idempotent p : NoDup (Object_keys p) -> ordered (ordered p) = ordered p.
Proof.
  intros Hnd. unfold ordered at 1 3. rewrite !reduce_assign.
  rewrite (sort_permutation_eq _ _ (ordered_keys p Hnd)).
  rewrite sort_filter, list_filter_filter.
  rewrite (list_filter_iff _ (fun k => k <> "__proto__")) by tauto.
  apply reduce_ext. intros k Hk. apply list_elem_of_filter in Hk as [Hk _].
  by apply ordered_get.
Qed.

#[local] Instance index_le_trans : Transitive index_le.
Proof. unfold index_le. intros a b c. lia. Qed.

(** A new array-index key goes to its place among the index keys, which
    stay in ascending order before the other keys. *)
Lemma insert_index_order o n k v : forall idx rest,
  Object_keys o = (idx ++ rest)%list ->
  Forall is_index idx -> Forall (fun k' => array_index k' = None) rest ->
  StronglySorted index_le idx -> array_index k = Some n ->
  exists idx',
    Object_keys (insert_index o n k v) = (idx' ++ rest)%list
    /\ idx' ≡ₚ k :: idx /\ StronglySorted index_le idx'.
Proof.
  unfold Object_keys.
  induction o as [|[k0 v0] o IH]; intros idx rest Hkeys Hidx Hrest Hs Hk; simpl.
  - symmetry in Hkeys. apply app_eq_nil in Hkeys as [-> ->].
    exists [k]. repeat split; [done|]. repeat constructor.
  - simpl in Hkeys. destruct idx as [|i idx]; simpl in Hkeys.
    + subst rest. apply Forall_cons in Hrest as [H0 _]. rewrite H0.
      exists [k]. repeat split; [done|]. repeat constructor.
    + inversion Hkeys as [[Hi Hkeys']]. subst k0.
      apply Forall_cons in Hidx as [[n' Hn'] Hidx].
      apply StronglySorted_cons in Hs as [Hall Hs].
      rewrite Hn'. destruct (n' <? n)%N eqn:Hlt.
      * destruct (IH idx rest Hkeys' Hidx Hrest Hs Hk) as (idx' & He & Hp & Hs').
        exists (i :: idx'). rewrite fmap_cons, He. split; [done|]. split.
        -- rewrite Hp. apply Permutation_swap.
        -- apply StronglySorted_cons. split; [|done].
           rewrite Hp. apply Forall_cons. split; [|done].
           apply N.ltb_lt in Hlt. unfold index_le, index_of.
           rewrite Hn', Hk. simpl. lia.
      * exists (k :: i :: idx). simpl. rewrite Hkeys'. repeat split; [done|].
        apply N.ltb_ge in Hlt.
        assert (Hki : index_le k i).
        { unfold index_le, index_of. rewrite Hn', Hk. simpl. lia. }
        apply StronglySorted_cons. split.
        -- apply Forall_cons. split; [done|].
           eapply Forall_impl; [exact Hall|]. intros x Hx. by etrans.
        -- by apply StronglySorted_cons.
Qed.

(** Defining new keys one after the other: the index keys end up in
    ascending order before the other keys, which keep the order they came
    in. *)
Lemma reduce_keys_order (f : string -> json) l : forall acc idx rest,
  Object_keys acc = (idx ++ rest)%list ->
  Forall is_index idx -> Forall (fun k' => array_index k' = None) rest ->
  StronglySorted index_le idx ->
  NoDup l -> (forall k, k ∈ l -> k ∉ Object_keys acc) ->
  exists idx',
    Object_keys (foldl (fun a key => set_prop a key (f key)) acc l)
    = (idx' ++ rest ++ filter (fun k => array_index k = None) l)%list
    /\ idx' ≡ₚ (idx ++ filter is_index l)%list
    /\ StronglySorted index_le idx'.
Proof.
  induction l as [|k l IH]; intros acc idx rest Hkeys Hidx Hrest Hs Hnd Hdis; simpl.
  - exists idx. by rewrite !app_nil_r.
  - apply NoDup_cons in Hnd as [Hk Hnd].
    assert (Hnew : has_prop acc k = false).
    { destruct (has_prop acc k) eqn:Hh; [|done].
      apply has_prop_keys in Hh. exfalso. by apply (Hdis k); [left|]. }
    assert (Hdis' : forall v k', k' ∈ l -> k' ∉ Object_keys (set_prop acc k v)).
    { intros v k' Hk'. rewrite keys_set_prop_new by (apply Hdis; left).
      apply not_elem_of_cons. split; [congruence|]. apply Hdis. by right. }
    destruct (array_index k) as [n|] eqn:Hix.
    + destruct (insert_index_order acc n k (f k) idx rest Hkeys Hidx Hrest Hs Hix)
        as (idx1 & He & Hp & Hs1).
      assert (Hstep : Object_keys (set_prop acc k (f k)) = (idx1 ++ rest)%list).
      { unfold set_prop. by rewrite Hnew, Hix. }
      destruct (IH (set_prop acc k (f k)) idx1 rest Hstep) as (idx' & He' & Hp' & Hs');
        try done.
      { rewrite Hp. apply Forall_cons. split; [by eexists|done]. }
      { by apply Hdis'. }
      exists idx'. split; [|split; [|done]].
      * rewrite He'. rewrite (filter_cons_False _ k l) by (rewrite Hix; congruence).
        done.
      * rewrite Hp', Hp. rewrite (filter_cons_True is_index k l) by (by eexists).
        simpl. by rewrite <- Permutation_middle.
    + assert (Hstep : Object_keys (set_prop acc k (f k))
                      = (idx ++ (rest ++ [k]))%list).
      { unfold set_prop. rewrite Hnew, Hix. unfold Object_keys in *.
        by rewrite fmap_app, Hkeys, <- app_assoc. }
      destruct (IH (set_prop acc k (f k)) idx (rest ++ [k])%list Hstep)
        as (idx' & He' & Hp' & Hs'); try done.
      { apply Forall_app. split; [done|]. by repeat constructor. }
      { by apply Hdis'. }
      exists idx'. split; [|split; [|done]].
      * rewrite He'. rewrite (filter_cons_True _ k l) by done.
        by rewrite <- !app_assoc.
      * rewrite Hp'. rewrite (filter_cons_False is_index k l); [done|].
        intros [n Hn]. congruence.
Qed.

(** What [JSON.stringify] lists for the sorted projection: the array-index
    keys in ascending numeric order, then the other keys in sorted order,
    [__proto__] left out. *)
Lemma ordered_keys_order p :
  NoDup (Object_keys p) ->
  exists idx,
    Object_keys (ordered p)
    = (idx ++ filter plain_key (sort (Object_keys p)))%list
    /\ idx ≡ₚ filter is_index (Object_keys p)
    /\ StronglySorted index_le idx.
Proof.
  intros Hnd. unfold ordered. rewrite reduce_assign.
  destruct (reduce_keys_order (get_prop p)
              (filter (fun k => k <> "__proto__") (sort (Object_keys p)))
              [] [] []) as (idx & He & Hp & Hs); try done.
  - constructor.
  - apply NoDup_filter. by rewrite sort_perm.
  - intros k _ H. by apply elem_of_nil in H.
  - exists idx. split; [|split; [|done]].
    + rewrite He. simpl. by rewrite list_filter_filter.
    + rewrite Hp. simpl. rewrite list_filter_filter, sort_perm.
      apply reflexive_eq, list_filter_iff. intros k. split; [tauto|].
      intros Hk. split; [done|]. intros ->. by destruct Hk.
Qed.

(** C8, as the code has it: the token depends on the key/value pairs of
    the payload and not on the order in which its own (top-level) keys
    were inserted; hashing the sorted projection again gives the same
    token.  What is serialized holds the value of every key but
    [__proto__], and lists the keys that are array indices first, in
    ascending numeric order, then the other keys in sorted order,
    [__proto__] left out. *)
Theorem integrity_hash_top_level_key_order (p1 p2 : object) :
  NoDup (Object_keys p1) -> p1 ≡ₚ p2 ->
  generateIntegrityHash p1 = generateIntegrityHash p2
  /\ generateIntegrityHash (ordered p1) = generateIntegrityHash p1
  /\ (forall k, k <> "__proto__" -> get_prop (ordered p1) k = get_prop p1 k)
  /\ (exists idx,
        Object_keys (ordered p1)
        = (idx ++ filter plain_key (sort (Object_keys p1)))%list
        /\ idx ≡ₚ filter is_index (Object_keys p1)
        /\ StronglySorted index_le idx).
Proof.
  intros Hnd Hp. split; [|split; [|split]].
  - unfold generateIntegrityHash. by rewrite (ordered_permutation p1 p2).
  - unfold generateIntegrityHash. by rewrite ordered_idempotent.
  - intros k Hk. by apply ordered_get.
  - by apply ordered_keys_order.
Qed.

(** A payload with mixed keys: what is serialized has the index keys
    first, by value, then the others sorted, without [__proto__]. *)
Example mixed_keys_serialized :
  sort (Object_keys payload_mixed_keys) = ["10"; "9"; "__proto__"; "a"; "b"]
  /\ ordered payload_mixed_keys
     = [("9", JNum "3"); ("10", JNum "2"); ("a", JNum "4"); ("b", JNum "1")].
Proof. split; reflexivity. Qed.

Lemma integrity_hash_top_level_key_order_witness :
  generateIntegrityHash [("shift_id", JStr "s1"); ("latitude", JNum "24.7")]
  = generateIntegrityHash [("latitude", JNum "24.7"); ("shift_id", JStr "s1")].
Proof.
  apply (integrity_hash_top_level_key_order
           [("shift_id", JStr "s1"); ("latitude", JNum "24.7")]
           [("latitude", JNum "24.7"); ("shift_id", JStr "s1")]).
  - by_decide.
  - apply Permutation_swap.
Defined.

(** C8, as the design document states it, fails: the two payloads hold the
    same key/value pairs, the inner keys of [geo] inserted in opposite
    orders, and get different tokens. *)
Lemma integrity_hash_nested_key_order_differs :
  same_content (JObj payload_lat_first) (JObj payload_lon_first)
  /\ generateIntegrityHash payload_lat_first
     <> generateIntegrityHash payload_lon_first.
Proof.
  split.
  - assert (Hinner : same_content (JObj [("lat", JNum "1"); ("lon", JNum "2")])
                                  (JObj [("lon", JNum "2"); ("lat", JNum "1")])).
    { apply same_obj.
      - by_decide.
      - by_decide.
      - intros k v Hin. exists v. split; [|apply same_refl].
        rewrite !elem_of_cons in Hin. rewrite !elem_of_cons.
        destruct Hin as [H|[H|H]]; auto; by apply elem_of_nil in H.
      - intros k v Hin. exists v. split; [|apply same_refl].
        rewrite !elem_of_cons in Hin. rewrite !elem_of_cons.
        destruct Hin as [H|[H|H]]; auto; by apply elem_of_nil in H. }
    apply same_obj.
    + by_decide.
    + by_decide.
    + intros k v Hin. apply list_elem_of_singleton in Hin. inversion Hin; subst.
      eexists. split; [apply list_elem_of_singleton; reflexivity|exact Hinner].
    + intros k v Hin. apply list_elem_of_singleton in Hin. inversion Hin; subst.
      eexists. split; [apply list_elem_of_singleton; reflexivity|exact Hinner].
  - vm_compute. discriminate.
Qed.

End HelpersFacts.

Module OfflineStoreFacts.
Import Storage Constants OfflineStore.

Section Facts.
Context {Payload : Type}.
Variable JSON_stringify : list (OfflineRecord Payload) -> string.
Variable JSON_parse : string -> outcome (option (list (OfflineRecord Payload))).
Variable backend : Type.
Variable syncOfflineRecord : backend -> Payload -> backend * delivery.

Abbreviation record := (OfflineRecord Payload).
Abbreviation addToQueue := (addToQueue Payload JSON_stringify).
Abbreviation syncAll := (syncAll Payload JSON_stringify backend syncOfflineRecord).
Abbreviation sync_loop := (sync_loop Payload backend syncOfflineRecord).
Abbreviation drain_spec := (drain_spec Payload backend syncOfflineRecord).
Abbreviation clearSynced := (clearSynced Payload JSON_stringify).
Abbreviation loadQueue := (loadQueue Payload JSON_parse).
Abbreviation run_ops := (run_ops Payload JSON_stringify backend syncOfflineRecord).
Abbreviation apply_op := (apply_op Payload JSON_stringify backend syncOfflineRecord).
Abbreviation disk_bounded := (disk_bounded Payload JSON_stringify).
Notation "'pending_of' q" := (filter (fun r : record => unsynced Payload r = true) q) (at level 10, q at level 9, only parsing).

Implicit Types (q : list record) (r : record) (w : world Payload).

Lemma setObject_read {T} (f : T -> string) key (v : T) d :
  setObject f key v d !! key = Some (f v).
Proof. unfold setObject. by rewrite lookup_insert_eq. Qed.

(** **** The loop body *)

Lemma settle_length r out q : length (settle Payload r out q) = length q.
Proof.
  unfold settle. destruct (findIndex _ _ _) as [[idx r0]|]; [|done].
  destruct out; by rewrite length_insert.
Qed.

Lemma sync_loop_length pend : forall b pr,
  length (updated _ (sync_loop pend b pr).2) = length (updated _ pr).
Proof.
  induction pend as [|r pend IH]; intros b pr; simpl; [done|].
  destruct (syncOfflineRecord b (payload r)) as [b' out].
  rewrite IH. simpl. apply settle_length.
Qed.

Lemma sync_loop_attempts pend : forall b pr,
  attempts _ (sync_loop pend b pr).2 = (attempts _ pr ++ map payload pend)%list.
Proof.
  induction pend as [|r pend IH]; intros b pr; simpl.
  - by rewrite app_nil_r.
  - destruct (syncOfflineRecord b (payload r)) as [b' out].
    rewrite IH. simpl. by rewrite <- app_assoc.
Qed.

Lemma sync_loop_counts pend : forall b pr,
  (synced_count _ (sync_loop pend b pr).2 + failed_count _ (sync_loop pend b pr).2
   = synced_count _ pr + failed_count _ pr + length pend)%nat.
Proof.
  induction pend as [|r pend IH]; intros b pr; simpl; [lia|].
  destruct (syncOfflineRecord b (payload r)) as [b' out].
  rewrite IH. destruct out; simpl; lia.
Qed.

(** **** Queue length under whole operations *)

Lemma addToQueue_length p now rnd iso w :
  (length (queue (state w)) <= MAX_QUEUE_SIZE)%nat ->
  (length (queue (state (addToQueue p now rnd iso w).2)) <= MAX_QUEUE_SIZE)%nat.
Proof.
  intros Hle. unfold OfflineStore.addToQueue.
  destruct (Nat.leb_spec MAX_QUEUE_SIZE (length (queue (state w)))); simpl; [done|].
  rewrite length_app. simpl. lia.
Qed.

Lemma syncAll_length iso b w :
  length (queue (state (syncAll iso b w).2)) = length (queue (state w)).
Proof.
  unfold OfflineStore.syncAll.
  destruct (pending_of (queue (state w))) as [|r0 pend] eqn:Hp; [done|].
  destruct (sync_loop (r0 :: pend) b _) as [b' pr] eqn:Hl. simpl.
  change pr with (b', pr).2. rewrite <- Hl. by rewrite sync_loop_length.
Qed.

Lemma apply_op_length o b w :
  (length (queue (state w)) <= MAX_QUEUE_SIZE)%nat ->
  (length (queue (state (apply_op o (b, w)).2)) <= MAX_QUEUE_SIZE)%nat.
Proof.
  intros Hle. destruct o as [p now rnd iso|iso|]; simpl.
  - by apply addToQueue_length.
  - pose proof (syncAll_length iso b w) as Hs.
    destruct (syncAll iso b w) as [[res b'] w']. simpl in *. lia.
  - etrans; [apply length_filter|done].
Qed.

Lemma run_ops_length ops : forall b w,
  (length (queue (state w)) <= MAX_QUEUE_SIZE)%nat ->
  (length (queue (state (run_ops ops (b, w)).2)) <= MAX_QUEUE_SIZE)%nat.
Proof.
  unfold OfflineStore.run_ops.
  induction ops as [|o ops IH]; intros b w Hle; simpl; [done|].
  pose proof (apply_op_length o b w Hle) as Hstep.
  destruct (apply_op o (b, w)) as [b' w']. by apply IH.
Qed.

Lemma apply_op_disk d0 o b w :
  (length (queue (state w)) <= MAX_QUEUE_SIZE)%nat ->
  disk_bounded d0 w -> disk_bounded d0 (apply_op o (b, w)).2.
Proof.
  intros Hle Hd. destruct o as [p now rnd iso|iso|]; simpl.
  - pose proof (addToQueue_length p now rnd iso w Hle) as Hlen.
    revert Hlen. unfold OfflineStore.addToQueue.
    destruct (Nat.leb_spec MAX_QUEUE_SIZE (length (queue (state w)))); simpl; [done|].
    intros Hlen. right. eexists. split; [exact Hlen|]. apply setObject_read.
  - pose proof (syncAll_length iso b w) as Hs. revert Hs.
    unfold OfflineStore.syncAll.
    destruct (pending_of (queue (state w))) as [|r0 pend]; [done|].
    destruct (sync_loop (r0 :: pend) b _) as [b' pr]. simpl. intros Hs.
    right. exists (updated _ pr). split; [lia|]. apply setObject_read.
  - right. eexists. split; [|apply setObject_read].
    etrans; [apply length_filter|done].
Qed.

Lemma run_ops_disk d0 ops : forall b w,
  (length (queue (state w)) <= MAX_QUEUE_SIZE)%nat ->
  disk_bounded d0 w -> disk_bounded d0 (run_ops ops (b, w)).2.
Proof.
  unfold OfflineStore.run_ops.
  induction ops as [|o ops IH]; intros b w Hle Hd; simpl; [done|].
  pose proof (apply_op_length o b w Hle) as Hstep.
  pose proof (apply_op_disk d0 o b w Hle Hd) as Hdisk.
  destruct (apply_op o (b, w)) as [b' w']. by apply IH.
Qed.

(** C3: [addToQueue] fails closed on a full queue, leaving memory and
    disk as they were, and otherwise appends one unsynced record and
    persists the whole queue; so from the initial store no sequence of
    operations takes the queue, in memory or on disk, past
    [MAX_QUEUE_SIZE] = 50. *)
Theorem addToQueue_bounded :
  MAX_QUEUE_SIZE = 50%nat
  /\ (forall p now rnd iso w,
        ((MAX_QUEUE_SIZE <= length (queue (state w)))%nat
         /\ addToQueue p now rnd iso w = (false, w))
        \/ ((length (queue (state w)) < MAX_QUEUE_SIZE)%nat
            /\ exists r w',
                 addToQueue p now rnd iso w = (true, w')
                 /\ queue (state w') = (queue (state w) ++ [r])%list
                 /\ payload r = p /\ synced r = false /\ syncError r = None
                 /\ disk w' !! OFFLINE_QUEUE
                    = Some (JSON_stringify (queue (state w')))))
  /\ (forall ops b d0,
        let w' := (run_ops ops (b, {| state := initial; disk := d0 |})).2 in
        (length (queue (state w')) <= MAX_QUEUE_SIZE)%nat
        /\ disk_bounded d0 w').
Proof.
  split; [done|split].
  - intros p now rnd iso w. unfold OfflineStore.addToQueue.
    destruct (Nat.leb_spec MAX_QUEUE_SIZE (length (queue (state w)))) as [Hfull|Hroom].
    + by left.
    + right. split; [done|]. eexists _, _. split; [reflexivity|]. simpl.
      repeat split; try done. apply setObject_read.
  - intros ops b d0 w'. subst w'. split.
    + apply run_ops_length. simpl. unfold MAX_QUEUE_SIZE. lia.
    + apply run_ops_disk; [simpl; unfold MAX_QUEUE_SIZE; lia|by left].
Qed.

(** **** Loading *)

(** What is stored and parses becomes the queue. *)
Lemma loadQueue_hydrates (d : EncryptedStorage) st raw q :
  d !! OFFLINE_QUEUE = Some raw -> raw <> "" ->
  JSON_parse raw = Return (Some q) ->
  loadQueue {| state := st; disk := d |}
  = Return {| state := {| queue := q; isSyncing := isSyncing st;
                          lastSyncAt := lastSyncAt st |};
              disk := d |}.
Proof.
  intros Hd Hne Hparse. unfold OfflineStore.loadQueue, getObject. simpl.
  rewrite Hd. destruct (String.eqb_spec raw "") as [|_]; [done|].
  by rewrite Hparse.
Qed.

(** C9: [loadQueue] never throws and leaves the disk alone; what is
    stored under the queue's key and parses becomes the queue in memory,
    the rest of the state staying; and when nothing is stored there, or
    what is stored does not parse, it leaves the store as it was, so that
    at startup the queue is the initial, empty one. *)
Theorem loadQueue_tolerant (d : EncryptedStorage) :
  (forall st, exists w',
      loadQueue {| state := st; disk := d |} = Return w' /\ disk w' = d
      /\ isSyncing (state w') = isSyncing st
      /\ lastSyncAt (state w') = lastSyncAt st)
  /\ (forall st raw q,
        d !! OFFLINE_QUEUE = Some raw -> raw <> "" ->
        JSON_parse raw = Return (Some q) ->
        loadQueue {| state := st; disk := d |}
        = Return {| state := {| queue := q; isSyncing := isSyncing st;
                                lastSyncAt := lastSyncAt st |};
                    disk := d |})
  /\ (d !! OFFLINE_QUEUE = None
      \/ (exists raw e, d !! OFFLINE_QUEUE = Some raw /\ JSON_parse raw = Throw e) ->
      (exists w', loadQueue {| state := initial; disk := d |} = Return w'
                  /\ queue (state w') = [] /\ disk w' = d)
      /\ (forall st, loadQueue {| state := st; disk := d |}
                     = Return {| state := st; disk := d |})).
Proof.
  split; [|split].
  - intros st. unfold OfflineStore.loadQueue, getObject. simpl.
    destruct (d !! OFFLINE_QUEUE) as [raw|]; [|by eexists].
    destruct (String.eqb raw ""); [by eexists|].
    destruct (JSON_parse raw) as [[q|]|e]; by eexists.
  - intros st raw q. apply loadQueue_hydrates.
  - intros Hd.
    assert (Hget : getObject JSON_parse OFFLINE_QUEUE d = Return None).
    { unfold getObject. destruct Hd as [->|(raw & e & -> & Hthrow)]; [done|].
      destruct (String.eqb raw ""); [done|]. by rewrite Hthrow. }
    assert (Hall : forall st, loadQueue {| state := st; disk := d |}
                              = Return {| state := st; disk := d |}).
    { intros st. unfold OfflineStore.loadQueue. simpl. by rewrite Hget. }
    split; [|exact Hall].
    eexists. split; [apply Hall|]. done.
Qed.

(** **** The drain against its description *)

Lemma findIndex_unique pre r post :
  id r ∉ map id pre ->
  findIndex Payload (pre ++ r :: post) r = Some (length pre, r).
Proof.
  intros Hfresh. unfold findIndex. apply list_find_Some. split; [|split].
  - by rewrite lookup_app_r, Nat.sub_diag.
  - done.
  - intros j y Hj Hlt Hid. apply Hfresh.
    rewrite lookup_app_l in Hj by done.
    apply list_elem_of_fmap. exists y. split; [done|].
    by apply list_elem_of_lookup_2 in Hj.
Qed.

Lemma settle_unique pre r post out :
  id r ∉ map id pre ->
  settle Payload r out (pre ++ r :: post)
  = (pre ++ match out with
            | Delivered => mark_synced Payload r
            | Rejected detail => record_error Payload r (error_message detail)
            end :: post)%list.
Proof.
  intros Hfresh. unfold settle. rewrite findIndex_unique by done.
  destruct out; rewrite insert_app_r_alt by done;
    by rewrite Nat.sub_diag.
Qed.

Lemma sync_loop_drain_spec q : forall pre b pr,
  NoDup (map id (pre ++ q)) ->
  updated _ pr = (pre ++ q)%list ->
  sync_loop (pending_of q) b pr
  = let '(bs, qs, rs) := drain_spec b q in
    (bs, {| updated := (pre ++ qs)%list;
            synced_count := synced_count _ pr + res_synced _ rs;
            failed_count := failed_count _ pr + res_failed _ rs;
            attempts := (attempts _ pr ++ res_attempts _ rs)%list |}).
Proof.
  induction q as [|r q IH]; intros pre b pr Hnd Hup.
  - destruct pr as [u sc fc at_]. simpl in *. subst.
    by rewrite !Nat.add_0_r, !app_nil_r.
  - rewrite filter_cons.
    destruct (decide (unsynced Payload r = true)) as [Hu|Hu];
      unfold unsynced in Hu; simpl; destruct (synced r) eqn:Hs; simpl in Hu;
      try done.
    + destruct (syncOfflineRecord b (payload r)) as [b1 out] eqn:Hout.
      assert (Hfresh : id r ∉ map id pre).
      { rewrite map_app in Hnd. apply NoDup_app in Hnd as (_ & Hdis & _).
        intros Hin. apply (Hdis _ Hin). simpl. left. }
      set (r' := match out with
                 | Delivered => mark_synced Payload r
                 | Rejected detail => record_error Payload r (error_message detail)
                 end).
      assert (Hid : id r' = id r) by (subst r'; by destruct out).
      specialize (IH (pre ++ [r'])%list b1 (after_delivery Payload r out pr)).
      rewrite <- !app_assoc in IH. simpl in IH. rewrite IH.
      * destruct (drain_spec b1 q) as [[bs qs] rs].
        subst r'. unfold mark_synced, record_error, error_message.
        destruct out as [|[[|c d]|]]; simpl; rewrite ?Hs, <- !app_assoc; simpl;
          f_equal; f_equal; lia.
      * rewrite map_app in *. simpl in *. by rewrite Hid.
      * rewrite Hup. by apply settle_unique.
    + specialize (IH (pre ++ [r])%list b pr).
      rewrite <- !app_assoc in IH. simpl in IH. rewrite IH by done.
      destruct (drain_spec b q) as [[bs qs] rs]. by rewrite <- app_assoc.
Qed.

(** The described drain, entry by entry. *)
Lemma drain_spec_drained q : forall b,
  let '(bs, qs, rs) := drain_spec b q in
  Forall2 (drained Payload) q qs
  /\ res_failed _ rs = length (pending_of qs).
Proof.
  induction q as [|r q IH]; intros b; simpl.
  - split; [constructor|done].
  - destruct (synced r) eqn:Hs.
    + specialize (IH b). destruct (drain_spec b q) as [[bs qs] rs].
      destruct IH as [Hall Hf]. split.
      * constructor; [|done]. repeat split; try done. congruence.
      * rewrite filter_cons_False; [done|]. unfold unsynced. by rewrite Hs.
    + destruct (syncOfflineRecord b (payload r)) as [b1 out].
      specialize (IH b1). destruct (drain_spec b1 q) as [[bs qs] rs].
      destruct IH as [Hall Hf]. destruct out as [|detail]; split.
      * constructor; [|done]. repeat split; try done; [congruence|].
        intros _. by left.
      * rewrite filter_cons_False; [done|]. unfold unsynced. simpl. congruence.
      * constructor; [|done]. repeat split; try done; [congruence|].
        intros _. right. split; [done|]. by eexists.
      * rewrite filter_cons_True by done. simpl. by rewrite Hf.
Qed.

(** C6: on a queue whose ids are distinct, [syncAll] does what the
    description of the drain says: it submits exactly the unsynced events,
    oldest first, whatever the backend answers to each; every entry keeps
    its place and its event; an entry that was synced is left as it is,
    one that was not is now synced, or is still unsynced and carries an
    error; and the two counts returned are those of the submissions that
    went through and of those that did not, the second being the number
    of entries still unsynced. *)
Theorem syncAll_fifo_isolated (iso : string) (b : backend) (w : world Payload) :
  NoDup (map id (queue (state w))) ->
  let '(res, b', w') := syncAll iso b w in
  let '(bs, qs, rs) := drain_spec b (queue (state w)) in
  res = rs /\ b' = bs /\ queue (state w') = qs
  /\ res_attempts _ res = map payload (pending_of (queue (state w)))
  /\ (res_synced _ res + res_failed _ res
      = length (pending_of (queue (state w))))%nat
  /\ Forall2 (drained Payload) (queue (state w)) (queue (state w'))
  /\ res_failed _ res = length (pending_of (queue (state w'))).
Proof.
  intros Hnd.
  pose proof (sync_loop_drain_spec (queue (state w)) [] b
                {| updated := queue (state w); synced_count := 0;
                   failed_count := 0; attempts := [] |} Hnd eq_refl) as Hspec.
  pose proof (sync_loop_attempts (pending_of (queue (state w))) b
                {| updated := queue (state w); synced_count := 0;
                   failed_count := 0; attempts := [] |}) as Hatt.
  pose proof (sync_loop_counts (pending_of (queue (state w))) b
                {| updated := queue (state w); synced_count := 0;
                   failed_count := 0; attempts := [] |}) as Hcnt.
  pose proof (drain_spec_drained (queue (state w)) b) as Hdr.
  unfold OfflineStore.syncAll.
  destruct (pending_of (queue (state w))) as [|r0 pend] eqn:Hp.
  - simpl in Hspec. destruct (drain_spec b (queue (state w))) as [[bs qs] rs].
    destruct Hdr as [Hall Hf].
    inversion Hspec; subst. destruct rs as [a1 a2 a3]. simpl in *. subst.
    rewrite Hp. by repeat split.
  - destruct (sync_loop (r0 :: pend) b _) as [b' pr].
    destruct (drain_spec b (queue (state w))) as [[bs qs] rs].
    destruct Hdr as [Hall Hf].
    inversion Hspec; subst. simpl in *. destruct rs; simpl in *.
    repeat split; try done.
Qed.

(** **** What happens to the entries of the queue *)

Abbreviation flag_kept := (flag_kept Payload).
Abbreviation event_of := (event_of Payload).
Abbreviation enqueued := (enqueued Payload).
Abbreviation enqueued_ids := (QueueIds.enqueued_ids Payload).
Abbreviation coherent := (coherent Payload JSON_stringify).

#[local] Instance flag_kept_refl : Reflexive flag_kept.
Proof. intros r. by split. Qed.

#[local] Instance flag_kept_trans : Transitive flag_kept.
Proof.
  intros r1 r2 r3 [He1 Hf1] [He2 Hf2]. split; [congruence|auto].
Qed.

Lemma settle_flag_kept r out q : Forall2 flag_kept q (settle Payload r out q).
Proof.
  unfold settle. destruct (findIndex _ _ _) as [[idx r0]|] eqn:Hfind; [|done].
  apply list_find_Some in Hfind as (Hlook & _ & _).
  rewrite <- (list_insert_id q idx r0 Hlook) at 1.
  destruct out; (apply Forall2_insert; [done|]); by split.
Qed.

Lemma sync_loop_flag_kept pend : forall b pr,
  Forall2 flag_kept (updated _ pr) (updated _ (sync_loop pend b pr).2).
Proof.
  induction pend as [|r pend IH]; intros b pr; simpl; [done|].
  destruct (syncOfflineRecord b (payload r)) as [b' out].
  etrans; [|apply IH]. simpl. apply settle_flag_kept.
Qed.

Lemma syncAll_flag_kept iso b w :
  Forall2 flag_kept (queue (state w)) (queue (state (syncAll iso b w).2)).
Proof.
  unfold OfflineStore.syncAll.
  destruct (pending_of (queue (state w))) as [|r0 pend]; [done|].
  pose proof (sync_loop_flag_kept (r0 :: pend) b
                {| updated := queue (state w); synced_count := 0;
                   failed_count := 0; attempts := [] |}) as Hk.
  by destruct (sync_loop (r0 :: pend) b _) as [b' pr].
Qed.

Lemma Forall2_flag_kept_events (l k : list record) :
  Forall2 flag_kept l k -> map event_of k = map event_of l.
Proof.
  induction 1 as [|x y l k [He _] _ IH]; simpl; [done|]. by rewrite He, IH.
Qed.

Lemma Forall2_carries {A B} (R : A -> B -> Prop) (P : A -> Prop) (Q : B -> Prop)
    l k :
  (forall x y, R x y -> P x -> Q y) ->
  Forall2 R l k -> Forall P l -> Forall Q k.
Proof.
  intros HR. induction 1 as [|x y l k Hxy _ IH]; intros HP; [constructor|].
  apply Forall_cons in HP as [Hx HP]. constructor; eauto.
Qed.

Lemma NoDup_map_eq {A B} (f : A -> B) l x y :
  NoDup (map f l) -> x ∈ l -> y ∈ l -> f x = f y -> x = y.
Proof.
  induction l as [|z l IH]; simpl; intros Hnd Hx Hy Hf.
  - by apply elem_of_nil in Hx.
  - apply NoDup_cons in Hnd as [Hz Hnd].
    apply elem_of_cons in Hx as [->|Hx]; apply elem_of_cons in Hy as [->|Hy];
      try done.
    + exfalso. apply Hz. rewrite Hf. apply list_elem_of_fmap. by exists y.
    + exfalso. apply Hz. rewrite <- Hf. apply list_elem_of_fmap. by exists x.
    + by apply IH.
Qed.

Lemma enqueued_ids_cons o ops :
  enqueued_ids (o :: ops) = (enqueued_ids [o] ++ enqueued_ids ops)%list.
Proof. by destruct o. Qed.

(** Every entry of the queue is a later state of an entry of [q0], its
    flag not gone back, or has one of the ids of [E]. *)
Notation "'rooted' q0 E" :=
  (Forall (fun r' : record => (exists r, r ∈ q0 /\ flag_kept r r') \/ id r' ∈ E))
  (at level 10, q0 at level 9, E at level 9, only parsing).

Lemma apply_op_rooted o b w (q0 : list record) (E : list string) :
  rooted q0 E (queue (state w)) ->
  rooted q0 (E ++ enqueued_ids [o])%list (queue (state (apply_op o (b, w)).2)).
Proof.
  intros Hr.
  assert (Hmono : forall ids, rooted q0 (E ++ ids)%list (queue (state w))).
  { intros ids. eapply Forall_impl; [exact Hr|]. intros r' [H|H]; [by left|right].
    apply elem_of_app. by left. }
  destruct o as [p now rnd iso|iso|]; simpl.
  - unfold OfflineStore.addToQueue.
    destruct (MAX_QUEUE_SIZE <=? _)%nat; simpl; [apply Hmono|].
    apply Forall_app. split; [apply Hmono|].
    constructor; [|constructor]. right. apply elem_of_app. right. simpl. left.
  - pose proof (syncAll_flag_kept iso b w) as Hk.
    destruct (syncAll iso b w) as [[res b'] w']. simpl in *.
    eapply Forall2_carries; [|exact Hk|apply Hmono].
    intros x y [He Hf] [(r & Hin & Hrx)|Hid].
    + left. exists r. split; [done|]. by etrans.
    + right. unfold OfflineStore.event_of in He. inversion He as [[Hi Hp Hc]].
      by rewrite Hi.
  - apply Forall_forall. intros r' Hin. apply list_elem_of_filter in Hin as [_ Hin].
    by apply (proj1 (Forall_forall _ _) (Hmono [])).
Qed.

Lemma run_ops_rooted ops : forall b w (q0 : list record) (E : list string),
  rooted q0 E (queue (state w)) ->
  rooted q0 (E ++ enqueued_ids ops)%list (queue (state (run_ops ops (b, w)).2)).
Proof.
  unfold OfflineStore.run_ops.
  induction ops as [|o ops IH]; intros b w q0 E Hr.
  - simpl. by rewrite app_nil_r.
  - rewrite enqueued_ids_cons, app_assoc. cbn [foldl].
    pose proof (apply_op_rooted o b w q0 E Hr) as Hstep.
    destruct (apply_op o (b, w)) as [b' w']. by apply IH.
Qed.

(** As long as the ids are distinct, an entry found again by its id after
    a sequence of whole operations is the same event, its flag not gone
    back. *)
Lemma run_ops_flag_kept ops b w r r' :
  NoDup (map id (queue (state w)) ++ enqueued_ids ops) ->
  r ∈ queue (state w) -> r' ∈ queue (state (run_ops ops (b, w)).2) ->
  id r' = id r -> flag_kept r r'.
Proof.
  intros Hnd Hr Hr' Hid.
  assert (Hstart : rooted (queue (state w)) [] (queue (state w))).
  { apply Forall_forall. intros x Hx. left. by exists x. }
  pose proof (run_ops_rooted ops b w _ _ Hstart) as Hend. simpl in Hend.
  apply NoDup_app in Hnd as (Hnd & Hdis & _).
  destruct (proj1 (Forall_forall _ _) Hend r' Hr') as [(r0 & Hin & Hk)|Hin].
  - assert (r0 = r) as ->; [|done].
    apply (NoDup_map_eq id (queue (state w))); try done.
    destruct Hk as [He _]. unfold OfflineStore.event_of in He.
    inversion He as [[Hi Hp Hc]]. congruence.
  - exfalso. apply (Hdis (id r)).
    + apply list_elem_of_fmap. by exists r.
    + by rewrite <- Hid.
Qed.

(** What holds of the synced flag when the operations run whole, one
    after the other.  Recording an error keeps the flag; enqueueing leaves
    the entries there as they are and adds an unsynced one; a drain
    changes entries in place and only ever sets the flag; compaction
    returns the unsynced entries untouched and drops only synced ones; and
    so, with distinct ids, an entry found again after any sequence of the
    three has not had its flag go back. *)
Lemma synced_flag_monotonic :
  (forall (r : record) msg, synced (record_error Payload r msg) = synced r)
  /\ (forall p now rnd iso w,
        exists added,
          queue (state (addToQueue p now rnd iso w).2)
          = (queue (state w) ++ added)%list
          /\ Forall (fun r => synced r = false) added)
  /\ (forall iso b w,
        Forall2 flag_kept (queue (state w)) (queue (state (syncAll iso b w).2)))
  /\ (forall w,
        queue (state (clearSynced w)) = pending_of (queue (state w))
        /\ forall r, r ∈ queue (state w) ->
                     (synced r = false /\ r ∈ queue (state (clearSynced w)))
                     \/ (synced r = true /\ r ∉ queue (state (clearSynced w))))
  /\ (forall ops b w r r',
        NoDup (map id (queue (state w)) ++ enqueued_ids ops) ->
        r ∈ queue (state w) -> r' ∈ queue (state (run_ops ops (b, w)).2) ->
        id r' = id r ->
        event_of r' = event_of r /\ (synced r = true -> synced r' = true)).
Proof.
  split; [done|]. split; [|split; [|split]].
  - intros p now rnd iso w. unfold OfflineStore.addToQueue.
    destruct (MAX_QUEUE_SIZE <=? _)%nat; simpl.
    + exists []. by rewrite app_nil_r.
    + eexists. split; [reflexivity|]. by repeat constructor.
  - apply syncAll_flag_kept.
  - intros w. split; [done|]. intros r Hr. simpl.
    destruct (synced r) eqn:Hs; [right|left]; (split; [done|]).
    + rewrite list_elem_of_filter. unfold unsynced. rewrite Hs. simpl.
      by intros [? _].
    + rewrite list_elem_of_filter. unfold unsynced. by rewrite Hs.
  - intros ops b w r r' Hnd Hr Hr' Hid. by apply (run_ops_flag_kept ops b w).
Qed.

(** **** Order *)

Abbreviation run_with_loads :=
  (run_with_loads Payload JSON_stringify JSON_parse backend syncOfflineRecord).
Abbreviation apply_op_or_load :=
  (apply_op_or_load Payload JSON_stringify JSON_parse backend syncOfflineRecord).

Lemma apply_op_coherent o b w : coherent w -> coherent (apply_op o (b, w)).2.
Proof.
  intros Hc. destruct o as [p now rnd iso|iso|]; simpl.
  - unfold OfflineStore.addToQueue.
    destruct (MAX_QUEUE_SIZE <=? _)%nat; simpl; [done|].
    right. apply setObject_read.
  - unfold OfflineStore.syncAll.
    destruct (pending_of (queue (state w))) as [|r0 pend]; [done|].
    destruct (sync_loop (r0 :: pend) b _) as [b' pr]. simpl.
    right. apply setObject_read.
  - right. apply setObject_read.
Qed.

(** With a parser that inverts the serializer, loading a coherent store
    changes nothing. *)
Lemma loadQueue_coherent w :
  (forall q, JSON_parse (JSON_stringify q) = Return (Some q)) ->
  coherent w -> loadQueue w = Return w.
Proof.
  intros Hround Hc. unfold OfflineStore.loadQueue, getObject.
  destruct Hc as [->| ->]; [done|].
  destruct (String.eqb _ ""); [done|]. rewrite Hround. simpl.
  by destruct w as [[q sy la] d].
Qed.

Lemma enqueued_cons o ops :
  enqueued (o :: ops) = (enqueued [o] ++ enqueued ops)%list.
Proof. by destruct o as [[| |]|]. Qed.

(** One whole operation keeps the events of the queue in the order of
    [E], with the event it enqueues after them. *)
Lemma apply_op_order o b w E :
  sublist (map event_of (queue (state w))) E ->
  sublist (map event_of (queue (state (apply_op o (b, w)).2)))
          (E ++ enqueued [Op _ o])%list.
Proof.
  intros Hs. destruct o as [p now rnd iso|iso|]; simpl.
  - unfold OfflineStore.addToQueue.
    destruct (MAX_QUEUE_SIZE <=? _)%nat; simpl.
    + by apply sublist_inserts_r.
    + rewrite map_app. by apply sublist_app.
  - rewrite app_nil_r. pose proof (syncAll_flag_kept iso b w) as Hk.
    destruct (syncAll iso b w) as [[res b'] w']. simpl in *.
    by rewrite (Forall2_flag_kept_events _ _ Hk).
  - rewrite app_nil_r. etrans; [|exact Hs].
    apply (fmap_sublist event_of), sublist_filter.
Qed.

Lemma run_with_loads_order :
  (forall q, JSON_parse (JSON_stringify q) = Return (Some q)) ->
  forall ops b w E,
    coherent w -> sublist (map event_of (queue (state w))) E ->
    sublist (map event_of (queue (state (run_with_loads ops (b, w)).2)))
            (E ++ enqueued ops)%list.
Proof.
  intros Hround. unfold OfflineStore.run_with_loads.
  induction ops as [|o ops IH]; intros b w E Hc Hs.
  - simpl. by rewrite app_nil_r.
  - rewrite enqueued_cons, app_assoc. cbn [foldl].
    destruct o as [o|]; cbn [OfflineStore.apply_op_or_load snd fst].
    + pose proof (apply_op_order o b w E Hs) as Hstep.
      pose proof (apply_op_coherent o b w Hc) as Hc'.
      destruct (apply_op o (b, w)) as [b' w']. by apply IH.
    + rewrite (loadQueue_coherent w Hround Hc). apply IH; [done|].
      by rewrite app_nil_r.
Qed.

(** **** Overlapping drains *)

Abbreviation tick := (tick Payload JSON_stringify JSON_parse).
Abbreviation ticks := (ticks Payload JSON_stringify JSON_parse).
Abbreviation fresh_drain := (fresh_drain Payload).

Lemma step_syncAll_pending (s : sys Payload) r0 pend :
  pending_of (queue (state (now_world _ s))) = r0 :: pend ->
  exists s',
    tick s (CallSyncAll Payload) = Some s'
    /\ running _ s' = (running _ s ++ [fresh_drain (queue (state (now_world _ s)))])%list
    /\ queue (state (now_world _ s')) = queue (state (now_world _ s))
    /\ isSyncing (state (now_world _ s')) = true.
Proof.
  intros Hp. unfold OfflineStore.tick. rewrite Hp.
  eexists. split; [reflexivity|]. by simpl.
Qed.

Abbreviation deliveries := (deliveries Payload backend syncOfflineRecord).

Lemma ticks_deliveries iso rest : forall r0 b pr w0,
  ticks {| now_world := w0;
           running := [{| todo := r0 :: rest; so_far := pr |}] |}
        (deliveries (r0 :: rest) b iso)
  = Some (start _ {| state := {| queue := updated _ (sync_loop (r0 :: rest) b pr).2;
                                 isSyncing := false; lastSyncAt := Some iso |};
                     disk := setObject JSON_stringify OFFLINE_QUEUE
                               (updated _ (sync_loop (r0 :: rest) b pr).2)
                               (disk w0) |}).
Proof.
  induction rest as [|r1 rest IH]; intros r0 b pr w0.
  - simpl. by destruct (syncOfflineRecord b (payload r0)) as [b' out].
  - cbn [OfflineStore.deliveries OfflineStore.sync_loop].
    destruct (syncOfflineRecord b (payload r0)) as [b' out].
    cbn [OfflineStore.ticks OfflineStore.tick running lookup list_lookup
         insert list_insert todo so_far now_world].
    apply IH.
Qed.

(** One drain with nothing else going on, turn by turn, ends where
    [syncAll] taken whole does. *)
Lemma syncAll_in_turns iso b w :
  pending_of (queue (state w)) <> [] ->
  ticks (start _ w)
        (CallSyncAll _ :: deliveries (pending_of (queue (state w))) b iso)
  = Some (start _ (syncAll iso b w).2).
Proof.
  intros Hp. cbn [OfflineStore.ticks OfflineStore.tick]. unfold OfflineStore.syncAll.
  cbn [start now_world running].
  destruct (pending_of (queue (state w))) as [|r0 rest] eqn:E; [done|].
  unfold OfflineStore.fresh_drain. rewrite E. cbn [app].
  rewrite ticks_deliveries.
  by destruct (sync_loop (r0 :: rest) b _) as [b' pr'].
Qed.

(** C2, as the code has it: [syncAll] is a no-op only when the queue has
    nothing pending.  Otherwise every call, whatever is already running
    and whatever [isSyncing] says, starts a drain of its own over the same
    pending events: [n] calls in a row leave [n] more drains running side
    by side. *)
Theorem syncAll_reentrant (s : sys Payload) (n : nat) :
  match pending_of (queue (state (now_world _ s))) with
  | [] => ticks s (replicate n (CallSyncAll Payload)) = Some s
  | _ :: _ =>
      exists s',
        ticks s (replicate n (CallSyncAll Payload)) = Some s'
        /\ running _ s'
           = (running _ s
              ++ replicate n (fresh_drain (queue (state (now_world _ s)))))%list
        /\ queue (state (now_world _ s')) = queue (state (now_world _ s))
        /\ (n = 0%nat \/ isSyncing (state (now_world _ s')) = true)
  end.
Proof.
  destruct (pending_of (queue (state (now_world _ s)))) as [|r0 pend] eqn:Hp.
  - induction n as [|n IH]; simpl; [done|]. by rewrite Hp.
  - revert s Hp. induction n as [|n IH]; intros s Hp.
    + exists s. simpl. rewrite app_nil_r. repeat split; auto.
    + destruct (step_syncAll_pending s r0 pend Hp) as (s1 & Hs1 & Hrun & Hq & Hsy).
      destruct (IH s1) as (s' & Hex & Hrun' & Hq' & Hn); [by rewrite Hq|].
      exists s'. cbn [replicate OfflineStore.ticks]. rewrite Hs1.
      split; [done|]. split; [|split].
      * rewrite Hrun', Hrun, Hq. by rewrite <- app_assoc.
      * congruence.
      * right. destruct Hn as [->|Hn]; [|done].
        simpl in Hex. by inversion Hex; subst.
Qed.

(** **** Order, turn by turn *)

Abbreviation within := (within Payload JSON_stringify).
Abbreviation called := (called Payload).

Lemma within_mono E E' (s : sys Payload) :
  (forall l, sublist l E -> sublist l E') -> within E s -> within E' s.
Proof.
  intros Hm (Hq & Hrun & Hd). split; [by apply Hm|]. split.
  - eapply Forall_impl; [exact Hrun|]. intros d. apply Hm.
  - destruct Hd as [Hd|(q & Hd & Hs)]; [by left|right]. exists q. split; [done|].
    by apply Hm.
Qed.

Lemma settle_events r out q :
  map event_of (settle Payload r out q) = map event_of q.
Proof. apply Forall2_flag_kept_events, settle_flag_kept. Qed.

Lemma called_cons e es : called (e :: es) = (called [e] ++ called es)%list.
Proof. by destruct e. Qed.

(** One turn of the event loop keeps the events in memory, in the running
    drains and on disk in the order of [E], with the event it enqueues
    after them. *)
Lemma tick_within (s s' : sys Payload) e E :
  (forall q, JSON_parse (JSON_stringify q) = Return (Some q)) ->
  within E s -> tick s e = Some s' -> within (E ++ called [e])%list s'.
Proof.
  intros Hround Hin Htick.
  assert (Hsame : within (E ++ [])%list s) by (by rewrite app_nil_r).
  destruct e as [p now rnd iso| |k out iso| |]; simpl in Htick.
  - inversion Htick; subst s'; clear Htick.
    assert (Hw : within (E ++ [(new_id now rnd, p, iso)])%list s).
    { eapply within_mono; [|exact Hin]. intros l. apply sublist_inserts_r. }
    unfold OfflineStore.addToQueue.
    destruct (MAX_QUEUE_SIZE <=? _)%nat; simpl.
    + by destruct s.
    + destruct Hin as (Hq & _ & _). destruct Hw as (_ & Hrun & _).
      split; [|split]; simpl.
      * rewrite map_app. by apply sublist_app.
      * done.
      * right. eexists. split; [apply setObject_read|].
        rewrite map_app. by apply sublist_app.
  - destruct (pending_of (queue (state (now_world _ s)))) as [|r0 pend].
    + by inversion Htick; subst.
    + inversion Htick; subst s'; clear Htick.
      destruct Hsame as (Hq & Hrun & Hd). split; [|split]; simpl; try done.
      apply Forall_app. split; [done|]. by repeat constructor.
  - destruct (running _ s !! k) as [[[|record rest] pr]|] eqn:Hk; try done.
    destruct Hsame as (Hq & Hrun & Hd).
    assert (Hpr : sublist (map event_of (updated _ pr)) (E ++ [])%list).
    { apply (proj1 (Forall_lookup _ _) Hrun k _ Hk). }
    destruct rest as [|r1 rest]; inversion Htick; subst s'; clear Htick;
      split; [|split| |split]; simpl; try done.
    + by rewrite settle_events.
    + by apply Forall_delete.
    + right. eexists. split; [apply setObject_read|]. by rewrite settle_events.
    + apply Forall_insert; [done|]. simpl. by rewrite settle_events.
  - inversion Htick; subst s'; clear Htick.
    destruct Hsame as (Hq & Hrun & Hd). split; [|split]; simpl; try done.
    + etrans; [|exact Hq]. apply (fmap_sublist event_of), sublist_filter.
    + right. eexists. split; [apply setObject_read|].
      etrans; [|exact Hq]. apply (fmap_sublist event_of), sublist_filter.
  - destruct (loadQueue (now_world _ s)) as [w'|err] eqn:Hload; [|done].
    inversion Htick; subst s'; clear Htick.
    destruct Hsame as (Hq & Hrun & Hd).
    unfold OfflineStore.loadQueue, getObject in Hload.
    destruct Hd as [Hd|(q & Hd & Hs)]; rewrite Hd in Hload.
    + simpl in Hload. inversion Hload; subst w'. split; [done|]. split; [done|].
      by left.
    + destruct (String.eqb (JSON_stringify q) ""); simpl in Hload.
      * inversion Hload; subst w'. split; [done|]. split; [done|].
        right. by exists q.
      * rewrite Hround in Hload. simpl in Hload. inversion Hload; subst w'.
        split; [done|]. split; [done|]. right. by exists q.
Qed.

Lemma ticks_within es : forall (s s' : sys Payload) E,
  (forall q, JSON_parse (JSON_stringify q) = Return (Some q)) ->
  within E s -> ticks s es = Some s' -> within (E ++ called es)%list s'.
Proof.
  induction es as [|e es IH]; intros s s' E Hround Hin Hrun; simpl in Hrun.
  - inversion Hrun; subst. by rewrite app_nil_r.
  - destruct (tick s e) as [s1|] eqn:Hstep; [|done].
    rewrite called_cons, app_assoc. eapply IH; [done| |exact Hrun].
    by eapply tick_within.
Qed.


End Facts.
End OfflineStoreFacts.

(** ** The store on the concrete instance *)

Module DemoFacts.
Import Storage Constants OfflineStore Demo OfflineStoreFacts.

Lemma parse_stringify q : parse (stringify q) = Return (Some q).
Proof.
  unfold parse, stringify.
  rewrite DecimalString.NilZero.usu by apply Unsigned.to_uint_nonnil.
  by rewrite Unsigned.of_to, decode_encode.
Qed.

Lemma stringify_nonempty q : stringify q <> "".
Proof.
  unfold stringify, DecimalString.NilZero.string_of_uint.
  pose proof (Unsigned.to_uint_nonnil (encode q)) as Hnn.
  destruct (Pos.to_uint (encode q)); done.
Qed.

Example addToQueue_sample :
  (addToQueue string stringify "in" "1700000000000" "k3x9q2a" "t" empty_world).1 = true
  /\ map id (queue (state (addToQueue string stringify "in" "1700000000000"
                             "k3x9q2a" "t" empty_world).2))
     = ["offline_1700000000000_k3x9q2a"].
Proof. by vm_compute. Qed.

Example syncAll_sample :
  let '(res, b, w) := syncAll string stringify nat submit "t" 0%nat (world_of three) in
  res = {| res_synced := 2; res_failed := 1; res_attempts := ["in"; "mock"; "out"] |}
  /\ b = 3%nat
  /\ map synced (queue (state w)) = [true; false; true]
  /\ map syncError (queue (state w)) = [None; Some "Mock location detected"; None].
Proof. by vm_compute. Qed.

Lemma syncAll_fifo_isolated_witness :
  let '(res, b', w') := syncAll string stringify nat submit "t" 0%nat (world_of three) in
  let '(bs, qs, rs) := drain_spec string nat submit 0%nat three in
  res = rs /\ b' = bs /\ queue (state w') = qs
  /\ res_attempts _ res = ["in"; "mock"; "out"]
  /\ (res_synced _ res + res_failed _ res = 3)%nat
  /\ Forall2 (drained string) three (queue (state w'))
  /\ res_failed _ res
     = length (filter (fun r => unsynced string r = true) (queue (state w'))).
Proof.
  apply (syncAll_fifo_isolated stringify nat submit "t" 0%nat (world_of three)).
  by_decide.
Defined.

Lemma loadQueue_tolerant_witness :
  loadQueue string parse
    {| state := initial; disk := {[ OFFLINE_QUEUE := stringify three ]} |}
  = Return {| state := {| queue := three; isSyncing := false;
                          lastSyncAt := None |};
              disk := {[ OFFLINE_QUEUE := stringify three ]} |}
  /\ (exists w', loadQueue string parse
                   {| state := initial; disk := {[ OFFLINE_QUEUE := "{oops" ]} |}
                 = Return w'
                 /\ queue (state w') = []
                 /\ disk w' = {[ OFFLINE_QUEUE := "{oops" ]}).
Proof.
  split.
  - apply (proj1 (proj2 (loadQueue_tolerant parse
                           {[ OFFLINE_QUEUE := stringify three ]}))
             initial (stringify three) three).
    + apply lookup_singleton_eq.
    + apply stringify_nonempty.
    + apply parse_stringify.
  - apply (proj2 (proj2 (loadQueue_tolerant parse {[ OFFLINE_QUEUE := "{oops" ]}))).
    right. exists "{oops", "SyntaxError". split; [by vm_compute|reflexivity].
Defined.


(** C2, as the design document states it, fails: after one event is
    queued, two calls of [syncAll] in a row (the timer's and the
    connectivity listener's, say) leave two drains running at once, both
    waiting on the delivery of that same event. *)
Lemma two_drains_run_at_once :
  exists s,
    ticks string stringify parse (start _ empty_world)
      [CallAddToQueue _ "in" "1" "a" "t"; CallSyncAll _; CallSyncAll _] = Some s
    /\ length (running _ s) = 2%nat
    /\ map (fun d => map id (todo _ d)) (running _ s)
       = [["offline_1_a"]; ["offline_1_a"]].
Proof. eexists. split; [reflexivity|]. split; reflexivity. Qed.

(** C7 fails once two drains overlap: both took the one queued event as
    unsynced.  The delivery of the first goes through, and it writes the
    event back synced; the delivery of the second is refused, and it
    writes its own copy back: in memory and on disk the event is unsynced
    again, to be submitted once more by the next drain. *)
Lemma overlapping_drains_flag_goes_back :
  exists s1 s2,
    ticks string stringify parse
      (start _ (world_of [entry "offline_1_a" "in" false]))
      [CallSyncAll _; CallSyncAll _; DeliverySettled _ 0 Delivered "t1"] = Some s1
    /\ queue (state (now_world _ s1)) = [entry "offline_1_a" "in" true]
    /\ length (running _ s1) = 1%nat
    /\ tick string stringify parse s1
         (DeliverySettled _ 0 (Rejected (Some "Duplicate record")) "t2") = Some s2
    /\ queue (state (now_world _ s2))
       = [mkRecord "offline_1_a" "in" "2024-01-01T08:00:00.000Z" false
            (Some "Duplicate record")]
    /\ disk (now_world _ s2) !! OFFLINE_QUEUE
       = Some (stringify (queue (state (now_world _ s2))))
    /\ running _ s2 = [].
Proof.
  eexists _, _. split; [reflexivity|]. split; [reflexivity|].
  split; [reflexivity|]. split; [reflexivity|]. split; [reflexivity|].
  split; [apply lookup_insert_eq|reflexivity].
Qed.

End DemoFacts.

(** ** The interceptor *)

Module ApiFacts.
Import Storage Constants Api.

Implicit Types (s : state) (k : call) (c p : nat).

Lemma exec_app s es1 es2 :
  exec s (es1 ++ es2) = exec s es1 ≫= fun s' => exec s' es2.
Proof.
  revert s. induction es1 as [|e es1 IH]; intros s; simpl; [done|].
  destruct (step s e) as [s'|]; [apply IH|done].
Qed.

(** **** [processQueue] *)

Lemma settle_one_frame err token s p :
  isRefreshing (settle_one err token s p) = isRefreshing s
  /\ storage (settle_one err token s p) = storage s
  /\ failedQueue (settle_one err token s p) = failedQueue s
  /\ exchanges (settle_one err token s p) = exchanges s.
Proof.
  unfold settle_one, reject_parked, resolve_parked, exchanges.
  destruct err; destruct (calls s !! p); simpl; try done.
  rewrite filter_app. simpl. by rewrite app_nil_r.
Qed.

Lemma settle_one_calls err token s p c :
  calls (settle_one err token s p) !! c
  = if decide (c = p) then settled err token (storage s) <$> calls s !! c
    else calls s !! c.
Proof.
  unfold settle_one, reject_parked, resolve_parked, settled.
  destruct (decide (c = p)) as [->|Hne].
  - destruct err; destruct (calls s !! p) eqn:Hp; simpl;
      rewrite ?lookup_insert_eq, ?Hp; done.
  - destruct err; destruct (calls s !! p) eqn:Hp; simpl;
      rewrite ?lookup_insert_ne by done; done.
Qed.

Lemma settled_idempotent err token es k :
  settled err token es (settled err token es k) = settled err token es k.
Proof.
  unfold settled, attach. destruct err; [done|]. simpl.
  destruct (get ACCESS_TOKEN es) as [t|]; [|done].
  by destruct (String.eqb t "").
Qed.

Lemma settle_all_frame err token l : forall s,
  let s' := foldl (settle_one err token) s l in
  isRefreshing s' = isRefreshing s /\ storage s' = storage s
  /\ failedQueue s' = failedQueue s /\ exchanges s' = exchanges s.
Proof.
  induction l as [|p l IH]; intros s; simpl; [done|].
  destruct (IH (settle_one err token s p)) as (H1 & H2 & H3 & H4).
  destruct (settle_one_frame err token s p) as (G1 & G2 & G3 & G4).
  repeat split; congruence.
Qed.

Lemma settle_all_calls err token l : forall s c,
  calls (foldl (settle_one err token) s l) !! c
  = if decide (c ∈ l) then settled err token (storage s) <$> calls s !! c
    else calls s !! c.
Proof.
  induction l as [|p l IH]; intros s c; simpl.
  - destruct (decide (c ∈ [])) as [H|_]; [by apply elem_of_nil in H|done].
  - rewrite IH, settle_one_calls.
    destruct (settle_one_frame err token s p) as (_ & -> & _).
    destruct (decide (c ∈ l)) as [Hl|Hl], (decide (c = p)) as [->|Hne],
             (decide (_ ∈ _ :: l)) as [Hin|Hin]; try done;
      try (exfalso; set_solver).
    destruct (calls s !! p); simpl; [|done]. by rewrite settled_idempotent.
Qed.

Lemma processQueue_frame err token s :
  isRefreshing (processQueue err token s) = isRefreshing s
  /\ storage (processQueue err token s) = storage s
  /\ failedQueue (processQueue err token s) = []
  /\ exchanges (processQueue err token s) = exchanges s.
Proof.
  unfold processQueue.
  destruct (settle_all_frame err token (failedQueue s) s) as (H1 & H2 & H3 & H4).
  done.
Qed.

Lemma processQueue_calls err token s c :
  calls (processQueue err token s) !! c
  = if decide (c ∈ failedQueue s)
    then settled err token (storage s) <$> calls s !! c
    else calls s !! c.
Proof. unfold processQueue. simpl. apply settle_all_calls. Qed.

(** **** Every run keeps the state well formed *)

#[local] Arguments processQueue : simpl never.

Lemma well_formed_ext s s' :
  isRefreshing s' = isRefreshing s -> failedQueue s' = failedQueue s ->
  calls s' = calls s -> well_formed s -> well_formed s'.
Proof.
  intros H1 H2 H3 [Hs Hi Hp]. split; rewrite ?H1, ?H2, ?H3; auto.
Qed.

Lemma well_formed_at_startup es : well_formed (at_startup es).
Proof.
  split; simpl.
  - intros c1 k1 c2 k2 H. by rewrite lookup_empty in H.
  - intros _ c k H. by rewrite lookup_empty in H.
  - intros p H. by apply elem_of_nil in H.
Qed.

(** One call moves from [kold] to [knew]. *)
Lemma well_formed_update s c kold knew b fq es snt :
  well_formed s ->
  calls s !! c = Some kold -> at_phase kold <> Parked ->
  (forall p, p ∈ fq -> p ∈ failedQueue s \/ (p = c /\ at_phase knew = Parked)) ->
  (refreshing knew = true ->
   b = true /\ (refreshing kold = true \/ isRefreshing s = false)) ->
  (b = false -> isRefreshing s = false \/ refreshing kold = true) ->
  well_formed {| isRefreshing := b; failedQueue := fq; storage := es;
                 calls := <[c := knew]> (calls s); sent := snt |}.
Proof.
  intros [Hs Hi Hp] Hc Hnp Hfq Hnew Hb. split; simpl.
  - intros c1 k1 c2 k2 H1 H2 R1 R2.
    destruct (decide (c1 = c)) as [->|N1], (decide (c2 = c)) as [->|N2];
      try done.
    + rewrite lookup_insert_eq in H1. rewrite lookup_insert_ne in H2 by done.
      inversion H1; subst k1. destruct (Hnew R1) as [_ [Rold|Hidle]].
      * by apply (Hs c kold c2 k2).
      * by rewrite (Hi Hidle c2 k2 H2) in R2.
    + rewrite lookup_insert_ne in H1 by done. rewrite lookup_insert_eq in H2.
      inversion H2; subst k2. destruct (Hnew R2) as [_ [Rold|Hidle]].
      * by apply (Hs c1 k1 c kold).
      * by rewrite (Hi Hidle c1 k1 H1) in R1.
    + rewrite lookup_insert_ne in H1, H2 by done. by apply (Hs c1 k1 c2 k2).
  - intros -> c' k' H'. destruct (decide (c' = c)) as [->|N].
    + rewrite lookup_insert_eq in H'. inversion H'; subst k'.
      destruct (refreshing knew) eqn:R; [|done]. by destruct (Hnew eq_refl).
    + rewrite lookup_insert_ne in H' by done.
      destruct (Hb eq_refl) as [Hidle|Rold]; [by apply (Hi Hidle c' k')|].
      destruct (refreshing k') eqn:R; [|done].
      exfalso. apply N. by apply (Hs c' k' c kold).
  - intros p Hin. destruct (Hfq p Hin) as [Hold|[-> Hph]].
    + destruct (Hp p Hold) as [cfg Hcfg]. exists cfg.
      rewrite lookup_insert_ne; [done|]. intros <-.
      rewrite Hcfg in Hc. inversion Hc; subst kold. by apply Hnp.
    + rewrite lookup_insert_eq. destruct knew as [cfg ph]. simpl in Hph.
      subst ph. by exists cfg.
Qed.

Lemma refreshing_settled err token es k : refreshing (settled err token es k) = false.
Proof. by destruct err. Qed.

Lemma well_formed_processQueue err token s :
  well_formed s -> well_formed (processQueue err token s).
Proof.
  intros [Hs Hi Hp].
  destruct (processQueue_frame err token s) as (F1 & F2 & F3 & _).
  assert (Hold : forall c k,
             calls (processQueue err token s) !! c = Some k ->
             refreshing k = true -> calls s !! c = Some k).
  { intros c k Hk R. rewrite processQueue_calls in Hk.
    destruct (decide (c ∈ failedQueue s)); [|done].
    destruct (calls s !! c) as [k0|]; [|done]. simpl in Hk.
    inversion Hk; subst k. by rewrite refreshing_settled in R. }
  split.
  - intros c1 k1 c2 k2 H1 H2 R1 R2. apply (Hs c1 k1 c2 k2); auto.
  - rewrite F1. intros Hidle c k Hk. destruct (refreshing k) eqn:R; [|done].
    rewrite <- R. apply (Hi Hidle c k). by apply Hold.
  - rewrite F3. intros p H. by apply elem_of_nil in H.
Qed.

(** A call that is not parked is not on the wait-list, so [processQueue]
    leaves it alone. *)
Lemma processQueue_other err token s c k :
  well_formed s -> calls s !! c = Some k -> at_phase k <> Parked ->
  calls (processQueue err token s) !! c = Some k.
Proof.
  intros [_ _ Hp] Hc Hnp. rewrite processQueue_calls.
  destruct (decide (c ∈ failedQueue s)) as [Hin|]; [|done].
  destruct (Hp c Hin) as [cfg Hcfg]. rewrite Hcfg in Hc.
  inversion Hc; subst k. by destruct Hnp.
Qed.

Lemma well_formed_catch s c cfg ph e :
  well_formed s ->
  calls s !! c = Some {| originalRequest := cfg; at_phase := ph |} ->
  refreshing {| originalRequest := cfg; at_phase := ph |} = true ->
  well_formed (catch_refresh c cfg e s).
Proof.
  intros Hwf Hc R. unfold catch_refresh, with_call.
  destruct (processQueue_frame (Some e) "" s) as (F1 & F2 & F3 & _).
  eapply (well_formed_update (processQueue (Some e) "" s) c).
  - by apply well_formed_processQueue.
  - apply processQueue_other; [done|exact Hc|]. by destruct ph.
  - by destruct ph.
  - intros p Hin. by left.
  - intros _. rewrite F1. split; [|by left].
    destruct (isRefreshing s) eqn:Hr; [done|].
    by rewrite (wf_idle s Hwf Hr c _ Hc) in R.
  - rewrite F1. intros Hb. by right.
Qed.

(** Closes the side conditions of [well_formed_update] that follow from
    the hypotheses at hand. *)
Ltac wf_side :=
  first [ done
        | (intros ? ?; by left)
        | (intros ?; by left)
        | (intros ?; by right)
        | (intros ?; split; [done|by left])
        | (intros ?; split; [done|by right])
        | idtac ].

Lemma refreshing_running s c k :
  well_formed s -> calls s !! c = Some k -> refreshing k = true ->
  isRefreshing s = true.
Proof.
  intros Hwf Hc R. destruct (isRefreshing s) eqn:Hr; [done|].
  by rewrite (wf_idle s Hwf Hr c k Hc) in R.
Qed.

Lemma step_well_formed s e s' :
  well_formed s -> step s e = Some s' -> well_formed s'.
Proof.
  intros Hwf Hstep. destruct e as [c|c|c status|c|c access|c status|c|c|c];
    simpl in Hstep.
  - (* Send *)
    destruct (calls s !! c) eqn:Hc; [done|]. inversion Hstep; subst s'.
    destruct Hwf as [Hs Hi Hp]. unfold dispatch. split; simpl.
    + intros c1 k1 c2 k2 H1 H2 R1 R2.
      destruct (decide (c1 = c)) as [->|N1];
        [rewrite lookup_insert_eq in H1; by inversion H1; subst k1|].
      destruct (decide (c2 = c)) as [->|N2];
        [rewrite lookup_insert_eq in H2; by inversion H2; subst k2|].
      rewrite lookup_insert_ne in H1, H2 by done. by apply (Hs c1 k1 c2 k2).
    + intros Hidle c' k' H'. destruct (decide (c' = c)) as [->|N].
      * rewrite lookup_insert_eq in H'. by inversion H'.
      * rewrite lookup_insert_ne in H' by done. by apply (Hi Hidle c' k').
    + intros p Hin. destruct (Hp p Hin) as [cfg Hcfg]. exists cfg.
      rewrite lookup_insert_ne; [done|]. intros <-. congruence.
  - (* RespondOk *)
    destruct (calls s !! c) as [[cfg []]|] eqn:Hc; try done.
    inversion Hstep; subst s'. unfold with_call.
    eapply well_formed_update; eauto; simpl; wf_side.
  - (* RespondError *)
    destruct (calls s !! c) as [[cfg []]|] eqn:Hc; try done.
    inversion Hstep; subst s'. unfold on_rejected, with_call.
    destruct (negb (bool_decide (status = Some 401)) || _retry cfg).
    + eapply well_formed_update; eauto; simpl; wf_side.
    + destruct (isRefreshing s) eqn:Hr.
      * eapply well_formed_update; eauto; simpl; wf_side.
        intros p Hin. apply elem_of_app in Hin as [Hin|Hin]; [by left|].
        apply list_elem_of_singleton in Hin. by right.
      * eapply well_formed_update; eauto; simpl; wf_side.
  - (* GotRefreshToken *)
    destruct (calls s !! c) as [[cfg []]|] eqn:Hc; try done.
    assert (Hcatch : well_formed (catch_refresh c cfg NoRefreshToken s))
      by (eapply well_formed_catch; eauto).
    pose proof (refreshing_running s c _ Hwf Hc eq_refl) as Hr.
    destruct (get REFRESH_TOKEN (storage s)) as [rt|];
      [|by inversion Hstep; subst s'].
    destruct (String.eqb rt ""); inversion Hstep; subst s'; [done|].
    eapply well_formed_update; eauto; simpl; wf_side.
  - (* RefreshSucceeded *)
    destruct (calls s !! c) as [[cfg []]|] eqn:Hc; try done.
    pose proof (refreshing_running s c _ Hwf Hc eq_refl) as Hr.
    inversion Hstep; subst s'. unfold with_call.
    eapply well_formed_update; eauto; simpl; wf_side.
  - (* RefreshFailed *)
    destruct (calls s !! c) as [[cfg []]|] eqn:Hc; try done.
    inversion Hstep; subst s'. eapply well_formed_catch; eauto.
  - (* AccessStored *)
    destruct (calls s !! c) as [[cfg []]|] eqn:Hc; try done.
    inversion Hstep; subst s'. clear Hstep.
    set (s1 := with_storage (set ACCESS_TOKEN access (storage s)) s).
    assert (Hwf1 : well_formed s1) by (by apply (well_formed_ext s)).
    destruct (processQueue_frame None access s1) as (F1 & F2 & F3 & _).
    unfold with_refreshing, dispatch. simpl.
    eapply (well_formed_update (processQueue None access s1) c);
      [by apply well_formed_processQueue
      |apply processQueue_other; [done|exact Hc|done]
      |..]; simpl; wf_side.
  - (* AccessRemoved *)
    destruct (calls s !! c) as [[cfg []]|] eqn:Hc; try done.
    pose proof (refreshing_running s c _ Hwf Hc eq_refl) as Hr.
    inversion Hstep; subst s'. unfold with_call, with_storage. simpl.
    eapply well_formed_update; eauto; simpl; wf_side.
  - (* RefreshRemoved *)
    destruct (calls s !! c) as [[cfg []]|] eqn:Hc; try done.
    inversion Hstep; subst s'. unfold with_refreshing, with_call, with_storage.
    simpl. eapply well_formed_update; eauto; simpl; wf_side.
Qed.

Lemma exec_well_formed es : forall s s',
  well_formed s -> exec s es = Some s' -> well_formed s'.
Proof.
  induction es as [|e es IH]; intros s s' Hwf Hex; simpl in Hex.
  - by inversion Hex; subst.
  - destruct (step s e) as [s1|] eqn:Hs; [|done].
    eapply IH; [|exact Hex]. by eapply step_well_formed.
Qed.

(** **** At most one exchange is outstanding *)

Lemma exchanging_refreshing k : exchanging k = true -> refreshing k = true.
Proof. unfold exchanging, refreshing. by destruct (at_phase k). Qed.

Lemma outstanding_at_most_one s : well_formed s -> (outstanding s <= 1)%nat.
Proof.
  intros Hwf. unfold outstanding.
  set (l := filter (fun ck : nat * call => exchanging ck.2 = true)
                   (map_to_list (calls s))).
  assert (Hnd : NoDup l.*1).
  { eapply sublist_NoDup; [apply (NoDup_fst_map_to_list (calls s))|].
    apply fmap_sublist, sublist_filter. }
  assert (Hin : forall ck, ck ∈ l ->
                  calls s !! ck.1 = Some ck.2 /\ refreshing ck.2 = true).
  { intros ck Hck. apply list_elem_of_filter in Hck as [Hex Hck].
    apply elem_of_map_to_list' in Hck. split; [done|].
    by apply exchanging_refreshing. }
  destruct l as [|x [|y l']]; simpl; try lia.
  exfalso.
  destruct (Hin x) as [Hx Rx]; [left|].
  destruct (Hin y) as [Hy Ry]; [right; left|].
  pose proof (wf_single s Hwf _ _ _ _ Hx Hy Rx Ry) as Heq.
  rewrite !fmap_cons in Hnd. apply NoDup_cons in Hnd as [Hnin _].
  apply Hnin. rewrite Heq. left.
Qed.

(** **** A call that fails while a refresh is running *)

Lemma respondError_while_refreshing s c status s' :
  isRefreshing s = true -> step s (RespondError c status) = Some s' ->
  sent s' = sent s /\ isRefreshing s' = true
  /\ forall cfg,
       calls s !! c = Some {| originalRequest := cfg; at_phase := InFlight |} ->
       status = Some 401 -> _retry cfg = false ->
       failedQueue s' = (failedQueue s ++ [c])%list
       /\ calls s' !! c = Some {| originalRequest := cfg; at_phase := Parked |}.
Proof.
  intros Hr Hstep. simpl in Hstep.
  destruct (calls s !! c) as [[cfg0 []]|] eqn:Hc; try done.
  inversion Hstep; subst s'. clear Hstep. unfold on_rejected. rewrite Hr.
  destruct (negb (bool_decide (status = Some 401)) || _retry cfg0) eqn:Hg; simpl.
  - split; [done|]. split; [done|]. intros cfg Hcfg -> Hretry.
    inversion Hcfg; subst cfg0. rewrite Hretry in Hg. done.
  - split; [done|]. split; [done|]. intros cfg Hcfg _ _.
    inversion Hcfg; subst cfg0. by rewrite lookup_insert_eq.
Qed.

(** The calls [ps] get their 401 one after the other while a refresh is
    running: all of them end up parked, in that order. *)
Lemma park_all ps : forall s,
  isRefreshing s = true -> NoDup ps ->
  (forall p, p ∈ ps ->
     exists auth, calls s !! p
                  = Some {| originalRequest := {| _retry := false;
                                                  Authorization := auth |};
                            at_phase := InFlight |}) ->
  exists s',
    exec s (unauthorized ps) = Some s'
    /\ isRefreshing s' = true
    /\ failedQueue s' = (failedQueue s ++ ps)%list
    /\ storage s' = storage s /\ sent s' = sent s
    /\ forall c, calls s' !! c
                 = if decide (c ∈ ps) then park <$> calls s !! c
                   else calls s !! c.
Proof.
  induction ps as [|p ps IH]; intros s Hr Hnd Hall.
  - exists s. simpl. rewrite app_nil_r. by repeat split.
  - apply NoDup_cons in Hnd as [Hp Hnd].
    destruct (Hall p) as [auth Hcall]; [left|].
    set (s1 := on_rejected p {| _retry := false; Authorization := auth |}
                 (Some 401) s).
    assert (Hs1 : step s (RespondError p (Some 401)) = Some s1).
    { simpl. by rewrite Hcall. }
    assert (Hs1' : s1 = {| isRefreshing := true;
                           failedQueue := (failedQueue s ++ [p])%list;
                           storage := storage s;
                           calls := <[p := {| originalRequest :=
                                                {| _retry := false;
                                                   Authorization := auth |};
                                              at_phase := Parked |}]> (calls s);
                           sent := sent s |}).
    { unfold s1, on_rejected. simpl. by rewrite Hr. }
    destruct (IH s1) as (s' & Hex & Hr' & Hfq & Hst & Hsent & Hcalls).
    + by rewrite Hs1'.
    + done.
    + intros q Hq. destruct (Hall q) as [auth' Hq']; [by right|].
      exists auth'. rewrite Hs1'. simpl. rewrite lookup_insert_ne; [done|].
      intros ->. done.
    + exists s'. cbn [unauthorized map exec]. rewrite Hs1.
      split; [exact Hex|]. split; [done|]. rewrite Hfq, Hst, Hsent, Hs1'. simpl.
      split; [by rewrite <- app_assoc|]. split; [done|]. split; [done|].
      intros c. rewrite Hcalls, Hs1'. simpl.
      destruct (decide (c = p)) as [->|Hne].
      * rewrite lookup_insert_eq, Hcall.
        destruct (decide (p ∈ ps)) as [|_]; [done|].
        destruct (decide (p ∈ p :: ps)) as [_|Hn]; [done|].
        exfalso. apply Hn. left.
      * rewrite lookup_insert_ne by done.
        destruct (decide (c ∈ ps)) as [Hin|Hin],
                 (decide (c ∈ p :: ps)) as [Hin'|Hin']; try done;
          exfalso; set_solver.
Qed.

(** **** One refresh with calls arriving while it runs *)

Lemma during_start s0 r :
  isRefreshing s0 = false -> failedQueue s0 = [] -> fresh_in_flight s0 r ->
  exists s1, step s0 (RespondError r (Some 401)) = Some s1
             /\ during s0 r GettingRefreshToken [] [] s1.
Proof.
  intros Hidle Hfq [auth Hr]. eexists. split.
  - simpl. rewrite Hr. reflexivity.
  - unfold on_rejected. simpl. rewrite Hidle. split; simpl.
    + done.
    + done.
    + done.
    + by rewrite app_nil_r.
    + exists auth. by rewrite lookup_insert_eq.
    + intros p H. by apply elem_of_nil in H.
    + intros c Hne _. by rewrite lookup_insert_ne.
Qed.

Lemma during_park s0 r ph fq snt s ps :
  during s0 r ph fq snt s ->
  NoDup (r :: fq ++ ps) -> (forall p, p ∈ ps -> fresh_in_flight s0 p) ->
  exists s', exec s (unauthorized ps) = Some s'
             /\ during s0 r ph (fq ++ ps) snt s'.
Proof.
  intros [Hr Hq Hst Hsent Href Hpk Hoth] Hnd Hfresh.
  apply NoDup_cons in Hnd as [Hrn Hnd].
  apply NoDup_app in Hnd as (Hndq & Hdis & Hndp).
  assert (Hps : forall p, p ∈ ps -> p <> r /\ p ∉ fq).
  { intros p Hp. split.
    - intros ->. apply Hrn. apply elem_of_app. by right.
    - intros Hin. by apply (Hdis p). }
  destruct (park_all ps s Hr Hndp) as (s' & Hex & Hr' & Hq' & Hst' & Hsent' & Hc').
  { intros p Hp. destruct (Hps p Hp) as [Hne Hnin].
    destruct (Hfresh p Hp) as [auth Hp0]. exists auth.
    by rewrite Hoth. }
  exists s'. split; [done|]. split.
  - done.
  - by rewrite Hq', Hq.
  - congruence.
  - congruence.
  - destruct Href as [auth Hauth]. exists auth. rewrite Hc'.
    destruct (decide (r ∈ ps)) as [Hin|]; [|done].
    by destruct (Hps r Hin).
  - intros p Hp. rewrite Hc'. apply elem_of_app in Hp as [Hp|Hp].
    + destruct (Hpk p Hp) as [Hne Hlook]. split; [done|].
      destruct (decide (p ∈ ps)) as [Hin|]; [|done].
      by destruct (Hps p Hin).
    + destruct (Hps p Hp) as [Hne Hnin]. split; [done|].
      destruct (decide (p ∈ ps)) as [_|]; [|done]. by rewrite Hoth.
  - intros c Hne Hnin. rewrite Hc'. apply not_elem_of_app in Hnin as [H1 H2].
    destruct (decide (c ∈ ps)) as [|_]; [done|]. by apply Hoth.
Qed.

Lemma during_insert s0 r ph ph' fq snt snt' s auth :
  during s0 r ph fq snt s ->
  calls s !! r = Some {| originalRequest := {| _retry := true;
                                               Authorization := auth |};
                         at_phase := ph |} ->
  during s0 r ph' fq (snt ++ snt')
    {| isRefreshing := isRefreshing s; failedQueue := failedQueue s;
       storage := storage s;
       calls := <[r := {| originalRequest := {| _retry := true;
                                                Authorization := auth |};
                          at_phase := ph' |}]> (calls s);
       sent := (sent s ++ snt')%list |}.
Proof.
  intros [Hr Hq Hst Hsent Href Hpk Hoth] Hcall. split; simpl; try done.
  - by rewrite Hsent, app_assoc.
  - exists auth. by rewrite lookup_insert_eq.
  - intros p Hp. destruct (Hpk p Hp) as [Hne Hlook]. split; [done|].
    by rewrite lookup_insert_ne.
  - intros c Hne Hnin. rewrite lookup_insert_ne by done. by apply Hoth.
Qed.

Lemma during_got_token s0 r fq snt s rt :
  during s0 r GettingRefreshToken fq snt s ->
  get REFRESH_TOKEN (storage s0) = Some rt -> rt <> "" ->
  exists s', step s (GotRefreshToken r) = Some s'
             /\ during s0 r (Exchanging rt) fq (snt ++ [RefreshExchange r rt]) s'.
Proof.
  intros Hd Hrt Hne. destruct (du_refresher _ _ _ _ _ _ Hd) as [auth Hauth].
  assert (Hget : get REFRESH_TOKEN (storage s) = Some rt)
    by (by rewrite (du_storage _ _ _ _ _ _ Hd)).
  eexists. split.
  - cbn [step]. rewrite Hauth, Hget.
    destruct (String.eqb_spec rt "") as [E|_]; [by exfalso|]. reflexivity.
  - by apply (during_insert s0 r GettingRefreshToken).
Qed.

Lemma during_refreshed s0 r fq snt s rt access :
  during s0 r (Exchanging rt) fq snt s ->
  exists s', step s (RefreshSucceeded r access) = Some s'
             /\ during s0 r (StoringAccess access) fq snt s'.
Proof.
  intros Hd. destruct (du_refresher _ _ _ _ _ _ Hd) as [auth Hauth].
  eexists. split.
  - simpl. rewrite Hauth. reflexivity.
  - unfold with_call.
    pose proof (during_insert s0 r _ (StoringAccess access) fq snt [] s auth
                  Hd Hauth) as H.
    by rewrite !app_nil_r in H.
Qed.

(** The header a replay leaves with once [access] is the stored token. *)
Lemma attach_stored es access retry :
  attach (set ACCESS_TOKEN access es)
    {| _retry := retry; Authorization := Some (Bearer access) |}
  = {| _retry := retry; Authorization := Some (Bearer access) |}.
Proof.
  unfold attach, get, set. rewrite lookup_insert_eq.
  by destruct (String.eqb access "").
Qed.

Lemma settle_all_sent token l : forall s,
  (forall p, p ∈ l -> is_Some (calls s !! p)) ->
  sent (foldl (settle_one None token) s l)
  = (sent s
     ++ map (fun p => Request p
                        (Authorization
                           (attach (storage s)
                              {| _retry := false;
                                 Authorization := Some (Bearer token) |}))) l)%list.
Proof.
  induction l as [|p l IH]; intros s Hall; cbn [foldl map].
  - by rewrite app_nil_r.
  - destruct (settle_one_frame None token s p) as (_ & Hst & _ & _).
    rewrite IH.
    + rewrite Hst. destruct (Hall p) as [k Hk]; [left|].
      unfold settle_one, resolve_parked. rewrite Hk. simpl.
      rewrite <- app_assoc. simpl. do 3 f_equal.
      unfold attach. destruct (get ACCESS_TOKEN (storage s)) as [t|]; [|done].
      by destruct (String.eqb t "").
    + intros q Hq. rewrite settle_one_calls.
      destruct (Hall q) as [k Hk]; [by right|]. rewrite Hk.
      by destruct (decide (q = p)).
Qed.

Lemma settle_all_sent_reject e token l : forall s,
  sent (foldl (settle_one (Some e) token) s l) = sent s.
Proof.
  induction l as [|p l IH]; intros s; cbn [foldl]; [done|].
  rewrite IH. unfold settle_one, reject_parked. by destruct (calls s !! p).
Qed.

Lemma processQueue_sent_reject e token s :
  sent (processQueue (Some e) token s) = sent s.
Proof.
  change (sent (foldl (settle_one (Some e) token) s (failedQueue s)) = sent s).
  apply settle_all_sent_reject.
Qed.

Lemma processQueue_sent_resolve token s :
  (forall p, p ∈ failedQueue s -> is_Some (calls s !! p)) ->
  sent (processQueue None token s)
  = (sent s
     ++ map (fun p => Request p
                        (Authorization
                           (attach (storage s)
                              {| _retry := false;
                                 Authorization := Some (Bearer token) |})))
            (failedQueue s))%list.
Proof.
  intros Hall. rewrite <- (settle_all_sent token (failedQueue s) s Hall).
  reflexivity.
Qed.

Lemma during_parked_present s0 r ph fq snt s :
  during s0 r ph fq snt s -> (forall p, p ∈ fq -> fresh_in_flight s0 p) ->
  forall p, p ∈ fq ->
    exists auth, calls s !! p
                 = Some {| originalRequest := {| _retry := false;
                                                 Authorization := auth |};
                           at_phase := Parked |}.
Proof.
  intros Hd Hfresh p Hp. destruct (du_parked _ _ _ _ _ _ Hd p Hp) as [_ Hlook].
  destruct (Hfresh p Hp) as [auth Hp0]. exists auth. by rewrite Hlook, Hp0.
Qed.

(** The refresh succeeded and the new token is stored: every parked call
    goes out again with it, oldest first, then the refreshing call. *)
Lemma during_stored s0 r fq snt s access :
  during s0 r (StoringAccess access) fq snt s ->
  (forall p, p ∈ fq -> fresh_in_flight s0 p) ->
  exists s',
    step s (AccessStored r) = Some s'
    /\ isRefreshing s' = false /\ failedQueue s' = []
    /\ sent s' = (sent s0 ++ snt
                  ++ map (fun p => Request p (Some (Bearer access))) fq
                  ++ [Request r (Some (Bearer access))])%list
    /\ calls s' !! r
       = Some {| originalRequest := {| _retry := true;
                                       Authorization := Some (Bearer access) |};
                 at_phase := InFlight |}
    /\ forall p, p ∈ fq ->
         calls s' !! p
         = Some {| originalRequest := {| _retry := false;
                                         Authorization := Some (Bearer access) |};
                   at_phase := InFlight |}.
Proof.
  intros Hd Hfresh.
  destruct (du_refresher _ _ _ _ _ _ Hd) as [auth Hauth].
  pose proof (during_parked_present _ _ _ _ _ _ Hd Hfresh) as Hpresent.
  remember (with_storage (set ACCESS_TOKEN access (storage s)) s) as s1 eqn:Es1.
  assert (Hq1 : failedQueue s1 = fq) by (subst s1; apply (du_queue _ _ _ _ _ _ Hd)).
  assert (Hst1 : storage s1 = set ACCESS_TOKEN access (storage s)) by (by subst s1).
  assert (Hc1 : calls s1 = calls s) by (by subst s1).
  assert (Hsn1 : sent s1 = sent s) by (by subst s1).
  remember (processQueue None access s1) as s2 eqn:Es2.
  destruct (processQueue_frame None access s1) as (F1 & F2 & F3 & _).
  rewrite <- Es2 in F1, F2, F3.
  assert (Hsent2 : sent s2 = (sent s ++ map (fun p => Request p (Some (Bearer access)))
                                            fq)%list).
  { subst s2. rewrite processQueue_sent_resolve.
    - by rewrite Hst1, attach_stored, Hsn1, Hq1.
    - intros p Hp. rewrite Hq1 in Hp. rewrite Hc1.
      destruct (Hpresent p Hp) as [a Ha]. by rewrite Ha. }
  exists (with_refreshing false
            (dispatch r {| _retry := true; Authorization := Some (Bearer access) |} s2)).
  split; [cbn [step]; rewrite Hauth; by subst|].
  cbn [with_refreshing dispatch isRefreshing failedQueue storage calls sent].
  rewrite F2, F3, Hst1, attach_stored.
  cbn [Authorization].
  split; [done|]. split; [done|]. split; [|split].
  - rewrite Hsent2, (du_sent _ _ _ _ _ _ Hd). by rewrite <- !app_assoc.
  - by rewrite lookup_insert_eq.
  - intros p Hp. destruct (du_parked _ _ _ _ _ _ Hd p Hp) as [Hne _].
    rewrite lookup_insert_ne by done. subst s2. rewrite processQueue_calls.
    rewrite Hq1, Hc1, Hst1.
    destruct (decide (p ∈ fq)) as [_|]; [|done].
    destruct (Hpresent p Hp) as [a Ha]. rewrite Ha. simpl.
    unfold settled. simpl. by rewrite attach_stored.
Qed.

(** The refresh exchange failed: every parked call is rejected with its
    error. *)
Lemma during_failed s0 r fq snt s rt status :
  during s0 r (Exchanging rt) fq snt s ->
  (forall p, p ∈ fq -> fresh_in_flight s0 p) ->
  exists s',
    step s (RefreshFailed r status) = Some s'
    /\ failedQueue s' = [] /\ sent s' = (sent s0 ++ snt)%list
    /\ (exists cfg, calls s' !! r
                    = Some {| originalRequest := cfg;
                              at_phase := RemovingAccess (AxiosError status) |})
    /\ forall p, p ∈ fq ->
         exists cfg, calls s' !! p
                     = Some {| originalRequest := cfg;
                               at_phase := Failed (AxiosError status) |}.
Proof.
  intros Hd Hfresh.
  destruct (du_refresher _ _ _ _ _ _ Hd) as [auth Hauth].
  pose proof (during_parked_present _ _ _ _ _ _ Hd Hfresh) as Hpresent.
  destruct (processQueue_frame (Some (AxiosError status)) "" s) as (F1 & F2 & F3 & _).
  exists (catch_refresh r {| _retry := true; Authorization := auth |}
            (AxiosError status) s).
  split; [cbn [step]; by rewrite Hauth|].
  unfold catch_refresh, with_call.
  cbn [isRefreshing failedQueue storage calls sent]. rewrite F3.
  split; [done|]. split; [|split].
  - rewrite processQueue_sent_reject. apply (du_sent _ _ _ _ _ _ Hd).
  - eexists. by rewrite lookup_insert_eq.
  - intros p Hp. destruct (du_parked _ _ _ _ _ _ Hd p Hp) as [Hne _].
    rewrite lookup_insert_ne by done. rewrite processQueue_calls.
    rewrite (du_queue _ _ _ _ _ _ Hd).
    destruct (decide (p ∈ fq)) as [_|]; [|done].
    destruct (Hpresent p Hp) as [a Ha]. rewrite Ha. simpl. by eexists.
Qed.

(** The rest of the [catch] block: both tokens go, the refreshing call is
    rejected with the refresh error, nothing is sent. *)
Lemma cleanup_after_failure s r cfg e :
  calls s !! r = Some {| originalRequest := cfg; at_phase := RemovingAccess e |} ->
  exists s',
    exec s [AccessRemoved r; RefreshRemoved r] = Some s'
    /\ get ACCESS_TOKEN (storage s') = None
    /\ get REFRESH_TOKEN (storage s') = None
    /\ isRefreshing s' = false /\ sent s' = sent s
    /\ failedQueue s' = failedQueue s
    /\ calls s' !! r = Some {| originalRequest := cfg; at_phase := Failed e |}
    /\ forall c, c <> r -> calls s' !! c = calls s !! c.
Proof.
  intros Hr. eexists. split.
  - cbn [exec step]. rewrite Hr.
    cbn [exec step with_call with_storage calls]. rewrite lookup_insert_eq.
    reflexivity.
  - cbn [with_refreshing with_call with_storage isRefreshing failedQueue
         storage calls sent].
    unfold get, remove. repeat split.
    + rewrite lookup_delete_ne by done. by rewrite lookup_delete_eq.
    + by rewrite lookup_delete_eq.
    + by rewrite lookup_insert_eq.
    + intros c Hne. by rewrite !lookup_insert_ne.
Qed.

(** What holds of a refresh the backend turns down, for the calls parked
    by then: they and the refreshing call are rejected with its error,
    both tokens are removed and nothing further is sent. *)
Lemma session_invalidated s0 r fq snt s rt status :
  during s0 r (Exchanging rt) fq snt s ->
  (forall p, p ∈ fq -> fresh_in_flight s0 p) ->
  exists s',
    exec s [RefreshFailed r status; AccessRemoved r; RefreshRemoved r] = Some s'
    /\ get ACCESS_TOKEN (storage s') = None
    /\ get REFRESH_TOKEN (storage s') = None
    /\ isRefreshing s' = false /\ sent s' = sent s0 ++ snt
    /\ (exists cfg, calls s' !! r
                    = Some {| originalRequest := cfg;
                              at_phase := Failed (AxiosError status) |})
    /\ forall p, p ∈ fq ->
         exists cfg, calls s' !! p
                     = Some {| originalRequest := cfg;
                               at_phase := Failed (AxiosError status) |}.
Proof.
  intros Hd Hfresh.
  destruct (during_failed _ _ _ _ _ _ status Hd Hfresh)
    as (s1 & H1 & Q1 & S1 & [cfg Hr1] & C1).
  destruct (cleanup_after_failure s1 r cfg _ Hr1)
    as (s2 & H2 & A2 & R2 & I2 & S2 & _ & Hr2 & O2).
  exists s2. split; [|repeat split; try done].
  - change [RefreshFailed r status; AccessRemoved r; RefreshRemoved r]
      with ([RefreshFailed r status] ++ [AccessRemoved r; RefreshRemoved r]).
    rewrite exec_app. cbn [exec]. rewrite H1. exact H2.
  - congruence.
  - by exists cfg.
  - intros p Hp. destruct (du_parked _ _ _ _ _ _ Hd p Hp) as [Hne _].
    rewrite O2 by done. by apply C1.
Qed.

Lemma exchanges_app s snt :
  length (filter (fun w => is_exchange w = true) (sent s ++ snt)%list)
  = (exchanges s + length (filter (fun w => is_exchange w = true) snt))%nat.
Proof. unfold exchanges. by rewrite filter_app, length_app. Qed.

Lemma no_exchange_in_requests (f : nat -> option string) l :
  filter (fun w => is_exchange w = true) (map (fun p => Request p (f p)) l) = [].
Proof. induction l as [|p l IH]; [done|]. simpl. by rewrite filter_cons. Qed.

Lemma NoDup_prefixes {A} (x : A) (l1 l2 l3 : list A) :
  NoDup (x :: l1 ++ l2 ++ l3) ->
  NoDup (x :: [] ++ l1) /\ NoDup (x :: ([] ++ l1) ++ l2)
  /\ NoDup (x :: (([] ++ l1) ++ l2) ++ l3).
Proof.
  intros Hnd. simpl. split; [|split].
  - eapply sublist_NoDup; [exact Hnd|]. apply sublist_skip, sublist_inserts_r.
    reflexivity.
  - eapply sublist_NoDup; [exact Hnd|]. apply sublist_skip.
    rewrite app_assoc. apply sublist_inserts_r. reflexivity.
  - by rewrite <- app_assoc.
Qed.

(** One refresh that succeeds, with calls failing at every point of it. *)
Lemma burst_success s r ps1 ps2 ps3 rt access :
  isRefreshing s = false -> failedQueue s = [] ->
  NoDup (r :: ps1 ++ ps2 ++ ps3) ->
  (forall c, c ∈ r :: ps1 ++ ps2 ++ ps3 -> fresh_in_flight s c) ->
  get REFRESH_TOKEN (storage s) = Some rt -> rt <> "" ->
  exists s',
    exec s (RespondError r (Some 401) :: unauthorized ps1
            ++ GotRefreshToken r :: unauthorized ps2
            ++ RefreshSucceeded r access :: unauthorized ps3
            ++ [AccessStored r]) = Some s'
    /\ sent s' = (sent s ++ RefreshExchange r rt
                  :: map (fun p => Request p (Some (Bearer access)))
                         (ps1 ++ ps2 ++ ps3)
                  ++ [Request r (Some (Bearer access))])%list
    /\ exchanges s' = S (exchanges s)
    /\ isRefreshing s' = false /\ failedQueue s' = []
    /\ forall p, p ∈ ps1 ++ ps2 ++ ps3 ->
         calls s' !! p
         = Some {| originalRequest := {| _retry := false;
                                         Authorization := Some (Bearer access) |};
                   at_phase := InFlight |}.
Proof.
  intros Hidle Hfq Hnd Hfresh Hrt Hne.
  destruct (NoDup_prefixes _ _ _ _ Hnd) as (N1 & N2 & N3).
  assert (F1 : forall p, p ∈ ps1 -> fresh_in_flight s p)
    by (intros p Hp; apply Hfresh; set_solver).
  assert (F2 : forall p, p ∈ ps2 -> fresh_in_flight s p)
    by (intros p Hp; apply Hfresh; set_solver).
  assert (F3 : forall p, p ∈ ps3 -> fresh_in_flight s p)
    by (intros p Hp; apply Hfresh; set_solver).
  destruct (during_start s r Hidle Hfq) as (s1 & H1 & D1); [apply Hfresh; left|].
  destruct (during_park _ _ _ _ _ _ ps1 D1 N1 F1) as (s2 & H2 & D2).
  destruct (during_got_token _ _ _ _ _ rt D2 Hrt Hne) as (s3 & H3 & D3).
  destruct (during_park _ _ _ _ _ _ ps2 D3 N2 F2) as (s4 & H4 & D4).
  destruct (during_refreshed _ _ _ _ _ _ access D4) as (s5 & H5 & D5).
  destruct (during_park _ _ _ _ _ _ ps3 D5 N3 F3) as (s6 & H6 & D6).
  destruct (during_stored _ _ _ _ _ _ D6) as (s7 & H7 & R7 & Q7 & S7 & _ & C7).
  { intros p Hp. apply Hfresh. set_solver. }
  simpl in S7, C7. rewrite <- !app_assoc in S7, C7.
  exists s7. split; [|split; [exact S7|split; [|split; [done|split; [done|]]]]].
  - cbn [exec]. rewrite H1. rewrite exec_app, H2. cbn [mbind option_bind exec].
    rewrite H3. rewrite exec_app, H4. cbn [mbind option_bind exec].
    rewrite H5. rewrite exec_app, H6. cbn [mbind option_bind exec].
    by rewrite H7.
  - unfold exchanges at 1. rewrite S7, exchanges_app.
    rewrite filter_cons. simpl. rewrite filter_app, no_exchange_in_requests.
    simpl. lia.
  - exact C7.
Qed.

(** One refresh whose exchange the backend turns down, with calls failing
    until then. *)
Lemma burst_failure s r ps1 ps2 rt status :
  isRefreshing s = false -> failedQueue s = [] ->
  NoDup (r :: ps1 ++ ps2) ->
  (forall c, c ∈ r :: ps1 ++ ps2 -> fresh_in_flight s c) ->
  get REFRESH_TOKEN (storage s) = Some rt -> rt <> "" ->
  exists s',
    exec s (RespondError r (Some 401) :: unauthorized ps1
            ++ GotRefreshToken r :: unauthorized ps2
            ++ [RefreshFailed r status]) = Some s'
    /\ sent s' = (sent s ++ [RefreshExchange r rt])%list
    /\ exchanges s' = S (exchanges s)
    /\ failedQueue s' = []
    /\ forall p, p ∈ ps1 ++ ps2 ->
         exists cfg, calls s' !! p
                     = Some {| originalRequest := cfg;
                               at_phase := Failed (AxiosError status) |}.
Proof.
  intros Hidle Hfq Hnd Hfresh Hrt Hne.
  assert (Hnd' : NoDup (r :: ps1 ++ ps2 ++ [])) by (by rewrite app_nil_r).
  destruct (NoDup_prefixes _ _ _ _ Hnd') as (N1 & N2 & _).
  assert (F1 : forall p, p ∈ ps1 -> fresh_in_flight s p)
    by (intros p Hp; apply Hfresh; set_solver).
  assert (F2 : forall p, p ∈ ps2 -> fresh_in_flight s p)
    by (intros p Hp; apply Hfresh; set_solver).
  destruct (during_start s r Hidle Hfq) as (s1 & H1 & D1); [apply Hfresh; left|].
  destruct (during_park _ _ _ _ _ _ ps1 D1 N1 F1) as (s2 & H2 & D2).
  destruct (during_got_token _ _ _ _ _ rt D2 Hrt Hne) as (s3 & H3 & D3).
  destruct (during_park _ _ _ _ _ _ ps2 D3 N2 F2) as (s4 & H4 & D4).
  destruct (during_failed _ _ _ _ _ _ status D4) as (s5 & H5 & Q5 & S5 & _ & C5).
  { intros p Hp. apply Hfresh. set_solver. }
  simpl in S5, C5.
  exists s5. split; [|split; [exact S5|split; [|split; [done|exact C5]]]].
  - cbn [exec]. rewrite H1. rewrite exec_app, H2. cbn [mbind option_bind exec].
    rewrite H3. rewrite exec_app, H4. cbn [mbind option_bind exec].
    by rewrite H5.
  - unfold exchanges at 1. rewrite S5, exchanges_app. simpl. lia.
Qed.

(** What holds of the single flight: on every run from startup at most
    one refresh exchange is outstanding; a call that fails while a refresh
    is running sends nothing and, if it is an unmarked 401, is parked; and
    when calls get their 401 at any point of one refresh up to the
    settling of its exchange, exactly one exchange goes out and every one
    of them is replayed with the token it returns, or rejected with the
    error it fails with.  A 401 that comes after the exchange has failed
    is not covered, and that call is left on the wait-list. *)
Lemma single_flight_refresh (es0 : EncryptedStorage) (evs : list event) s :
  exec (at_startup es0) evs = Some s ->
  (outstanding s <= 1)%nat
  /\ (forall c status s',
        isRefreshing s = true -> step s (RespondError c status) = Some s' ->
        sent s' = sent s /\ isRefreshing s' = true
        /\ forall cfg,
             calls s !! c = Some {| originalRequest := cfg; at_phase := InFlight |} ->
             status = Some 401 -> _retry cfg = false ->
             failedQueue s' = (failedQueue s ++ [c])%list
             /\ calls s' !! c = Some {| originalRequest := cfg; at_phase := Parked |})
  /\ (forall r ps1 ps2 ps3 rt access,
        isRefreshing s = false -> failedQueue s = [] ->
        NoDup (r :: ps1 ++ ps2 ++ ps3) ->
        (forall c, c ∈ r :: ps1 ++ ps2 ++ ps3 -> fresh_in_flight s c) ->
        get REFRESH_TOKEN (storage s) = Some rt -> rt <> "" ->
        exists s',
          exec s (RespondError r (Some 401) :: unauthorized ps1
                  ++ GotRefreshToken r :: unauthorized ps2
                  ++ RefreshSucceeded r access :: unauthorized ps3
                  ++ [AccessStored r]) = Some s'
          /\ sent s' = (sent s ++ RefreshExchange r rt
                        :: map (fun p => Request p (Some (Bearer access)))
                               (ps1 ++ ps2 ++ ps3)
                        ++ [Request r (Some (Bearer access))])%list
          /\ exchanges s' = S (exchanges s)
          /\ isRefreshing s' = false /\ failedQueue s' = []
          /\ forall p, p ∈ ps1 ++ ps2 ++ ps3 ->
               calls s' !! p
               = Some {| originalRequest :=
                           {| _retry := false;
                              Authorization := Some (Bearer access) |};
                         at_phase := InFlight |})
  /\ (forall r ps1 ps2 rt status,
        isRefreshing s = false -> failedQueue s = [] ->
        NoDup (r :: ps1 ++ ps2) ->
        (forall c, c ∈ r :: ps1 ++ ps2 -> fresh_in_flight s c) ->
        get REFRESH_TOKEN (storage s) = Some rt -> rt <> "" ->
        exists s',
          exec s (RespondError r (Some 401) :: unauthorized ps1
                  ++ GotRefreshToken r :: unauthorized ps2
                  ++ [RefreshFailed r status]) = Some s'
          /\ sent s' = (sent s ++ [RefreshExchange r rt])%list
          /\ exchanges s' = S (exchanges s)
          /\ failedQueue s' = []
          /\ forall p, p ∈ ps1 ++ ps2 ->
               exists cfg, calls s' !! p
                           = Some {| originalRequest := cfg;
                                     at_phase := Failed (AxiosError status) |}).
Proof.
  intros Hex.
  assert (Hwf : well_formed s)
    by (eapply exec_well_formed; [apply well_formed_at_startup|exact Hex]).
  split; [by apply outstanding_at_most_one|]. split; [|split].
  - intros c status s'. apply respondError_while_refreshing.
  - intros r ps1 ps2 ps3 rt access. apply burst_success.
  - intros r ps1 ps2 rt status. apply burst_failure.
Qed.

End ApiFacts.

(** ** Runs of the interceptor *)

Module ApiRuns.
Import Storage Constants Api ClockInScreen Demo ApiFacts.

(** Closes [exec _ evs = Some (after _ evs)] by running [evs]. *)
Ltac run_happens :=
  unfold after;
  match goal with
  | |- ?r = Some _ =>
      let E := fresh in
      destruct r eqn:E; [reflexivity|vm_compute in E; discriminate E]
  end.

Lemma single_flight_refresh_witness :
  exists s',
    exec (after both_tokens [Send 1; Send 2; Send 3])
      (RespondError 1 (Some 401) :: unauthorized [2%nat]
       ++ GotRefreshToken 1 :: unauthorized [3%nat]
       ++ RefreshSucceeded 1 "new" :: unauthorized []
       ++ [AccessStored 1]) = Some s'
    /\ sent s' = sent (after both_tokens [Send 1; Send 2; Send 3])
                 ++ RefreshExchange 1 "r1"
                 :: map (fun p => Request p (Some (Bearer "new"))) ([2%nat] ++ [3%nat] ++ [])
                 ++ [Request 1 (Some (Bearer "new"))]
    /\ exchanges s' = S (exchanges (after both_tokens [Send 1; Send 2; Send 3]))
    /\ isRefreshing s' = false /\ failedQueue s' = []
    /\ forall p, p ∈ [2%nat] ++ [3%nat] ++ [] ->
         calls s' !! p
         = Some {| originalRequest := {| _retry := false;
                                         Authorization := Some (Bearer "new") |};
                   at_phase := InFlight |}.
Proof.
  destruct (single_flight_refresh both_tokens [Send 1; Send 2; Send 3]
              (after both_tokens [Send 1; Send 2; Send 3]) eq_refl)
    as (_ & _ & Hburst & _).
  apply (Hburst 1%nat [2%nat] [3%nat] [] "r1" "new").
  - reflexivity.
  - reflexivity.
  - by_decide.
  - intros c Hc. simpl in Hc. rewrite !elem_of_cons in Hc.
    destruct Hc as [->|[->|[->|Hc]]]; [| | |by apply elem_of_nil in Hc];
      eexists; vm_compute; reflexivity.
  - reflexivity.
  - discriminate.
Defined.

(** C4 fails on a parked call: call 2 was parked during call 1's refresh
    and replayed with the new token; its replay gets a 401 and, instead of
    failing, starts a second refresh, after which it goes out a third
    time.  The same second 401 on call 1, which performed the refresh,
    fails it at once. *)
Lemma parked_call_refreshes_again :
  exec (at_startup both_tokens)
    (refresh_with_one_parked
     ++ [RespondError 2 (Some 401); GotRefreshToken 2;
         RefreshSucceeded 2 "newer"; AccessStored 2])
  = Some (after both_tokens
            (refresh_with_one_parked
             ++ [RespondError 2 (Some 401); GotRefreshToken 2;
                 RefreshSucceeded 2 "newer"; AccessStored 2]))
  /\ status_of 2 (after both_tokens refresh_with_one_parked) = Some (InFlight, false)
  /\ status_of 2 (after both_tokens
                    (refresh_with_one_parked ++ [RespondError 2 (Some 401)]))
     = Some (GettingRefreshToken, true)
  /\ exchanges (after both_tokens
                  (refresh_with_one_parked
                   ++ [RespondError 2 (Some 401); GotRefreshToken 2;
                       RefreshSucceeded 2 "newer"; AccessStored 2])) = 2%nat
  /\ times_sent 2 (after both_tokens
                     (refresh_with_one_parked
                      ++ [RespondError 2 (Some 401); GotRefreshToken 2;
                          RefreshSucceeded 2 "newer"; AccessStored 2])) = 3%nat
  /\ status_of 1 (after both_tokens
                    (refresh_with_one_parked ++ [RespondError 1 (Some 401)]))
     = Some (Failed (AxiosError (Some 401)), true).
Proof. split; [run_happens|]. repeat split; by vm_compute. Qed.

(** C5 fails on a call that gets its 401 while the tokens are being
    removed: the refresh has failed, both tokens are gone and call 1 is
    rejected, but call 2 stays on the wait-list, neither rejected nor
    replayed, with no refresh running.  It is so when the backend turns
    the exchange down and when no refresh token is stored; in the second
    case call 1 is rejected with an error that has no response, which the
    clock-in screen takes for a network failure. *)
Lemma late_waiter_never_rejected :
  (let s := after both_tokens refresh_rejected_late_401 in
   exec (at_startup both_tokens) refresh_rejected_late_401 = Some s
   /\ status_of 1 s = Some (Failed (AxiosError (Some 401)), true)
   /\ get ACCESS_TOKEN (storage s) = None /\ get REFRESH_TOKEN (storage s) = None
   /\ isRefreshing s = false
   /\ status_of 2 s = Some (Parked, false) /\ failedQueue s = [2%nat])
  /\ (let s := after access_only no_refresh_token_late_401 in
      exec (at_startup access_only) no_refresh_token_late_401 = Some s
      /\ status_of 1 s = Some (Failed NoRefreshToken, true)
      /\ get ACCESS_TOKEN (storage s) = None /\ get REFRESH_TOKEN (storage s) = None
      /\ isRefreshing s = false
      /\ status_of 2 s = Some (Parked, false) /\ failedQueue s = [2%nat]
      /\ exchanges s = 0%nat
      /\ taken_for_network_failure NoRefreshToken = true).
Proof.
  split; (split; [run_happens|]); repeat split; by vm_compute.
Qed.

(** C1 fails on a call whose 401 comes while the tokens are being
    removed.  Of three calls that get a 401 around one refresh, one
    exchange goes out and the backend turns it down: call 1, which
    performed it, and call 2, parked while it was out, are rejected with
    its error; call 3, parked after the wait-list was processed, is
    neither replayed nor rejected, with no refresh running.  It is settled
    only when a later call starts a refresh of its own, and then with the
    outcome of that one. *)
Lemma burst_leaves_a_caller_parked :
  (let s := after both_tokens burst_with_late_401 in
   exec (at_startup both_tokens) burst_with_late_401 = Some s
   /\ exchanges s = 1%nat
   /\ status_of 1 s = Some (Failed (AxiosError (Some 401)), true)
   /\ status_of 2 s = Some (Failed (AxiosError (Some 401)), false)
   /\ status_of 3 s = Some (Parked, false)
   /\ isRefreshing s = false /\ failedQueue s = [3%nat])
  /\ (let s := after both_tokens (burst_with_late_401 ++ next_refresh_attempt) in
      exec (at_startup both_tokens) (burst_with_late_401 ++ next_refresh_attempt)
      = Some s
      /\ exchanges s = 1%nat
      /\ status_of 3 s = Some (Failed NoRefreshToken, false)
      /\ failedQueue s = []).
Proof.
  split; (split; [run_happens|]); repeat split; by vm_compute.
Qed.

End ApiRuns.

(** ** The hook's [syncNow] and calls that overlap a drain *)

Module UseOfflineSyncFacts.
Import Storage Constants OfflineStore UseOfflineSync OfflineStoreFacts.

Section Facts.
Context {Payload : Type}.
Variable JSON_stringify : list (OfflineRecord Payload) -> string.
Variable JSON_parse : string -> outcome (option (list (OfflineRecord Payload))).
Variable backend : Type.
Variable syncOfflineRecord : backend -> Payload -> backend * delivery.

Abbreviation record := (OfflineRecord Payload).
Abbreviation addToQueue := (addToQueue Payload JSON_stringify).
Abbreviation syncAll := (syncAll Payload JSON_stringify backend syncOfflineRecord).
Abbreviation sync_loop := (sync_loop Payload backend syncOfflineRecord).
Abbreviation drain_spec := (drain_spec Payload backend syncOfflineRecord).
Abbreviation clearSynced := (clearSynced Payload JSON_stringify).
Abbreviation loadQueue := (loadQueue Payload JSON_parse).
Abbreviation syncNow := (syncNow Payload JSON_stringify backend syncOfflineRecord).
Abbreviation pendingCount := (pendingCount Payload).
Abbreviation run_app := (run_app Payload JSON_stringify backend syncOfflineRecord).
Abbreviation tick := (tick Payload JSON_stringify JSON_parse).
Abbreviation ticks := (ticks Payload JSON_stringify JSON_parse).
Abbreviation deliveries := (deliveries Payload backend syncOfflineRecord).
Notation "'pending_of' q" := (filter (fun r : record => unsynced Payload r = true) q) (at level 10, q at level 9, only parsing).

Implicit Types (q : list record) (r : record) (w : world Payload).

Lemma syncAll_as_described iso b w :
  NoDup (map id (queue (state w))) ->
  let '(res, b', w') := syncAll iso b w in
  let '(bs, qs, rs) := drain_spec b (queue (state w)) in
  res = rs /\ b' = bs /\ queue (state w') = qs.
Proof.
  intros Hnd.
  pose proof (sync_loop_drain_spec backend syncOfflineRecord (queue (state w)) [] b
                {| updated := queue (state w); synced_count := 0;
                   failed_count := 0; attempts := [] |} Hnd eq_refl) as Hspec.
  unfold OfflineStore.syncAll.
  destruct (pending_of (queue (state w))) as [|r0 pend] eqn:Hp.
  - simpl in Hspec. destruct (drain_spec b (queue (state w))) as [[bs qs] rs].
    inversion Hspec; subst. destruct rs as [a1 a2 a3]. simpl in *. by subst.
  - destruct (sync_loop (r0 :: pend) b _) as [b' pr].
    destruct (drain_spec b (queue (state w))) as [[bs qs] rs].
    inversion Hspec; subst. simpl in *. by destruct rs.
Qed.

Lemma pending_cons r q :
  pending_of (r :: q) = if synced r then pending_of q else r :: pending_of q.
Proof.
  rewrite filter_cons.
  destruct (decide (unsynced Payload r = true)) as [Hu|Hu];
    unfold unsynced in Hu; by destruct (synced r).
Qed.

Lemma drain_spec_pending q : forall b,
  let '(bs, qs, rs) := drain_spec b q in
  length (pending_of qs) = res_failed _ rs
  /\ (res_synced _ rs + res_failed _ rs = length (pending_of q))%nat.
Proof.
  induction q as [|r q IH]; intros b; simpl; [done|].
  rewrite pending_cons.
  destruct (synced r) eqn:Hs; simpl.
  - specialize (IH b). destruct (drain_spec b q) as [[bs qs] rs].
    by rewrite pending_cons, Hs.
  - destruct (syncOfflineRecord b (payload r)) as [b1 out].
    specialize (IH b1). destruct (drain_spec b1 q) as [[bs qs] rs].
    destruct IH as [IH1 IH2].
    destruct out; rewrite pending_cons; simpl; rewrite ?Hs; simpl; split; lia.
Qed.

Lemma pending_all_unsynced q :
  Forall (fun r => synced r = false) (pending_of q).
Proof.
  apply Forall_forall. intros r Hr. apply list_elem_of_filter in Hr as [Hu _].
  unfold unsynced in Hu. by destruct (synced r).
Qed.

Lemma pending_idempotent q : pending_of (pending_of q) = pending_of q.
Proof.
  induction q as [|r q IH]; [done|]. rewrite pending_cons.
  destruct (synced r) eqn:Hs; [done|]. by rewrite pending_cons, Hs, IH.
Qed.

Abbreviation mounted := (mounted Payload).
Abbreviation hook_step := (hook_step Payload JSON_stringify JSON_parse).
Abbreviation hook_run := (hook_run Payload JSON_stringify JSON_parse).
Abbreviation syncNow_drained :=
  (syncNow_drained Payload JSON_stringify backend syncOfflineRecord).
Abbreviation stored_queue := (stored_queue Payload JSON_parse).
Abbreviation land := (land Payload).
Abbreviation reloading := (reloading Payload JSON_stringify).

(** The two halves of [loadQueue] make up the whole. *)
Lemma loadQueue_in_two w :
  loadQueue w = Return (land (stored_queue (disk w)) w).
Proof.
  unfold OfflineStore.loadQueue, UseOfflineSync.stored_queue, getObject.
  destruct (disk w !! OFFLINE_QUEUE) as [raw|]; [|done].
  destruct (String.eqb raw ""); [done|].
  by destruct (JSON_parse raw) as [[q|]|e].
Qed.

(** [syncNow] is its drain followed, when something was delivered, by the
    turn of [clearSynced]. *)
Lemma syncNow_in_turns iso b w :
  let '(res, b', h) := syncNow_drained iso b w in
  syncNow iso b w
  = (res, b', match hook_step h ClearSyncedRuns with
              | Some h' => store _ h'
              | None => store _ h
              end).
Proof.
  unfold UseOfflineSync.syncNow_drained, UseOfflineSync.syncNow.
  destruct (syncAll iso b w) as [[res b'] w']. simpl.
  by destruct (0 <? res_synced _ res)%nat.
Qed.

Lemma stored_queue_read (d : EncryptedStorage) q :
  (forall q, JSON_parse (JSON_stringify q) = Return (Some q)) ->
  (forall q, JSON_stringify q <> "") ->
  d !! OFFLINE_QUEUE = Some (JSON_stringify q) -> stored_queue d = Some q.
Proof.
  intros Hround Hne Hd. unfold UseOfflineSync.stored_queue, getObject.
  rewrite Hd. destruct (String.eqb_spec (JSON_stringify q) "") as [E|_];
    [by destruct (Hne _ E)|].
  by rewrite Hround.
Qed.

Lemma hook_step_reloading q1 (h h' : mounted) t :
  (forall q, JSON_parse (JSON_stringify q) = Return (Some q)) ->
  (forall q, JSON_stringify q <> "") ->
  reloading q1 h -> hook_step h t = Some h' -> reloading q1 h'.
Proof.
  intros Hround Hne (Hq & Hr & Hd & Hc) Hstep.
  destruct t as [| |k]; simpl in Hstep.
  - destruct (will_clear _ h); [|done]. inversion Hstep; subst h'; clear Hstep.
    assert (Hrem : pending_of (queue (state (store _ h))) = pending_of q1).
    { destruct Hq as [->| ->]; [done|apply pending_idempotent]. }
    split; [|split; [|split]]; simpl.
    + right. exact Hrem.
    + done.
    + right. rewrite Hrem. apply setObject_read.
    + intros _. rewrite Hrem. apply setObject_read.
  - inversion Hstep; subst h'; clear Hstep.
    split; [|split; [|split]]; simpl; try done.
    apply Forall_app. split; [done|]. constructor; [|constructor].
    destruct Hd as [Hd|Hd]; [left|right]; by apply stored_queue_read.
  - destruct (reading _ h !! k) as [stored|] eqn:Hk; [|done].
    inversion Hstep; subst h'; clear Hstep.
    pose proof (proj1 (Forall_lookup _ _) Hr k _ Hk) as Hs.
    split; [|split; [|split]]; simpl.
    + destruct Hs as [->| ->]; simpl; auto.
    + by apply Forall_delete.
    + by destruct stored.
    + intros Hw. destruct stored; by apply Hc.
Qed.

Lemma hook_run_reloading q1 ts : forall (h h' : mounted),
  (forall q, JSON_parse (JSON_stringify q) = Return (Some q)) ->
  (forall q, JSON_stringify q <> "") ->
  reloading q1 h -> hook_run h ts = Some h' -> reloading q1 h'.
Proof.
  induction ts as [|t ts IH]; intros h h' Hround Hne Hin Hrun; simpl in Hrun.
  - by inversion Hrun; subst.
  - destruct (hook_step h t) as [h1|] eqn:Hstep; [|done].
    eapply IH; [done|done| |exact Hrun]. by eapply hook_step_reloading.
Qed.

(** A drain that delivered something leaves in memory and on disk the
    queue it made, and [syncNow] about to call [clearSynced]. *)
Lemma syncNow_drained_reloading iso b w :
  let '(res, b', h) := syncNow_drained iso b w in
  (0 < res_synced _ res)%nat ->
  will_clear _ h = true /\ reading _ h = []
  /\ disk (store _ h) !! OFFLINE_QUEUE
     = Some (JSON_stringify (queue (state (store _ h))))
  /\ reloading (queue (state (store _ h))) h.
Proof.
  unfold UseOfflineSync.syncNow_drained, OfflineStore.syncAll.
  destruct (pending_of (queue (state w))) as [|r0 pend]; [simpl; lia|].
  destruct (sync_loop (r0 :: pend) b _) as [b' pr]. simpl. intros Hpos.
  destruct (Nat.ltb_spec 0 (synced_count _ pr)) as [_|]; [|lia].
  split; [done|]. split; [done|]. split; [apply setObject_read|].
  split; [by left|]. split; [constructor|].
  split; [left; apply setObject_read|done].
Qed.

(** X1: [syncNow] on a queue whose ids are distinct, with no [loadQueue] under
    way: the two counts of its drain add up to what was pending, and what
    is pending at the end of the drain is what failed.  When something was
    delivered, [syncNow] goes on to [clearSynced] while the hook's effect
    reloads the queue; however the reads and the landings of these reloads
    fall, the pending count stays the number of failed events, and once
    [clearSynced] has run the disk holds the failed events and nothing
    else, and the queue in memory holds them too, with or without the
    synced events the drain left.  Without a reload in between, memory
    holds the failed events alone.  The parser is taken to invert the
    serializer. *)
Theorem syncNow_keeps_the_failed (iso : string) (b : backend) (w : world Payload) :
  NoDup (map id (queue (state w))) ->
  (forall q, JSON_parse (JSON_stringify q) = Return (Some q)) ->
  (forall q, JSON_stringify q <> "") ->
  let '(res, b', h) := syncNow_drained iso b w in
  let q1 := queue (state (store _ h)) in
  (res_synced _ res + res_failed _ res = pendingCount (queue (state w)))%nat
  /\ pendingCount q1 = res_failed _ res
  /\ Forall (fun r => synced r = false) (pending_of q1)
  /\ ((0 < res_synced _ res)%nat ->
      hook_run h [ClearSyncedRuns]
      = Some {| store := clearSynced (store _ h); reading := [];
                will_clear := false |}
      /\ queue (state (clearSynced (store _ h))) = pending_of q1
      /\ (exists h',
            hook_run h [LoadQueueReads; ClearSyncedRuns; LoadQueueLands 0] = Some h'
            /\ will_clear _ h' = false /\ reading _ h' = []
            /\ queue (state (store _ h')) = q1)
      /\ forall ts h',
           hook_run h ts = Some h' ->
           pendingCount (queue (state (store _ h'))) = res_failed _ res
           /\ (will_clear _ h' = false ->
               disk (store _ h') !! OFFLINE_QUEUE
               = Some (JSON_stringify (pending_of q1))
               /\ (queue (state (store _ h')) = pending_of q1
                   \/ queue (state (store _ h')) = q1))).
Proof.
  intros Hnd Hround Hne.
  pose proof (syncAll_as_described iso b w Hnd) as Hs.
  pose proof (drain_spec_pending (queue (state w)) b) as Hd.
  pose proof (syncNow_drained_reloading iso b w) as Hstart.
  unfold UseOfflineSync.syncNow_drained, UseOfflineSync.pendingCount in *.
  destruct (syncAll iso b w) as [[res b'] w'].
  destruct (drain_spec b (queue (state w))) as [[bs qs] rs].
  destruct Hs as (-> & -> & Hq). destruct Hd as [Hd1 Hd2]. subst qs.
  cbn [store] in *. cbv zeta.
  split; [done|]. split; [done|]. split; [apply pending_all_unsynced|].
  intros Hpos. destruct (Hstart Hpos) as (Hclear & Hread & Hdisk & Hin).
  cbn [will_clear] in Hclear.
  split; [|split; [done|split]].
  { cbn [UseOfflineSync.hook_run UseOfflineSync.hook_step will_clear reading store].
    by rewrite Hclear. }
  { cbn [UseOfflineSync.hook_run UseOfflineSync.hook_step will_clear reading store
         app].
    rewrite Hclear. cbn [lookup list_lookup].
    rewrite (stored_queue_read _ _ Hround Hne Hdisk).
    eexists. split; [reflexivity|]. by cbn. }
  intros ts h' Hrun.
  pose proof (hook_run_reloading _ ts _ h' Hround Hne Hin Hrun) as (Hm & _ & _ & Hc).
  cbn [store] in Hm, Hc. split.
  - destruct Hm as [->| ->]; [done|]. by rewrite pending_idempotent.
  - intros Hw. split; [by apply Hc|]. destruct Hm; auto.
Qed.

Lemma drain_spec_all_delivered q : forall b,
  (forall b0 p, (syncOfflineRecord b0 p).2 = Delivered) ->
  let '(bs, qs, rs) := drain_spec b q in
  pending_of qs = [] /\ res_failed _ rs = 0%nat.
Proof.
  intros b Hok. revert b.
  induction q as [|r q IH]; intros b; simpl; [done|].
  destruct (synced r) eqn:Hs.
  - specialize (IH b). destruct (drain_spec b q) as [[bs qs] rs].
    by rewrite pending_cons, Hs.
  - pose proof (Hok b (payload r)) as Hout.
    destruct (syncOfflineRecord b (payload r)) as [b1 out]. simpl in Hout.
    subst out. specialize (IH b1). destruct (drain_spec b1 q) as [[bs qs] rs].
    by rewrite pending_cons.
Qed.

(** X2: When the backend takes every submission, the drain of a [syncNow] on
    a queue with distinct ids and something pending, with no [loadQueue]
    under way, delivers all of it and leaves every entry synced.
    [syncNow] goes on to [clearSynced] while the hook's effect reloads
    the queue; however the reads and the landings of these reloads fall,
    nothing is pending any more, and once [clearSynced] has run the disk
    holds the empty queue and the queue in memory is empty or still holds
    the synced entries.  Without a reload in between, it is empty.  The
    parser is taken to invert the serializer. *)
Theorem syncNow_empties_the_queue (iso : string) (b : backend) (w : world Payload) :
  NoDup (map id (queue (state w))) ->
  (forall q, JSON_parse (JSON_stringify q) = Return (Some q)) ->
  (forall q, JSON_stringify q <> "") ->
  (forall b0 p, (syncOfflineRecord b0 p).2 = Delivered) ->
  pending_of (queue (state w)) <> [] ->
  let '(res, b', h) := syncNow_drained iso b w in
  let q1 := queue (state (store _ h)) in
  res_synced _ res = pendingCount (queue (state w))
  /\ res_failed _ res = 0%nat
  /\ res_attempts _ res = map payload (pending_of (queue (state w)))
  /\ Forall (fun r => synced r = true) q1
  /\ hook_run h [ClearSyncedRuns]
     = Some {| store := clearSynced (store _ h); reading := [];
               will_clear := false |}
  /\ queue (state (clearSynced (store _ h))) = []
  /\ forall ts h',
       hook_run h ts = Some h' ->
       pendingCount (queue (state (store _ h'))) = 0%nat
       /\ (will_clear _ h' = false ->
           disk (store _ h') !! OFFLINE_QUEUE = Some (JSON_stringify [])
           /\ (queue (state (store _ h')) = []
               \/ queue (state (store _ h')) = q1)).
Proof.
  intros Hnd Hround Hne Hok Hp.
  pose proof (syncAll_as_described iso b w Hnd) as Hs.
  pose proof (drain_spec_pending (queue (state w)) b) as Hd.
  pose proof (drain_spec_all_delivered (queue (state w)) b Hok) as Ha.
  pose proof (syncNow_drained_reloading iso b w) as Hstart.
  assert (Hatt : res_attempts _ (syncAll iso b w).1.1
                 = map payload (pending_of (queue (state w)))).
  { unfold OfflineStore.syncAll.
    destruct (pending_of (queue (state w))) as [|r0 pend] eqn:E; [done|].
    pose proof (sync_loop_attempts backend syncOfflineRecord (r0 :: pend) b
                  {| updated := queue (state w); synced_count := 0;
                     failed_count := 0; attempts := [] |}) as Hat.
    by destruct (sync_loop (r0 :: pend) b _) as [b' pr]. }
  unfold UseOfflineSync.syncNow_drained, UseOfflineSync.pendingCount in *.
  destruct (syncAll iso b w) as [[res b'] w'].
  destruct (drain_spec b (queue (state w))) as [[bs qs] rs].
  destruct Hs as (-> & -> & Hq). destruct Hd as [_ Hd]. destruct Ha as [Ha1 Ha2].
  subst qs. simpl in Hatt. cbn [store] in *. cbv zeta.
  assert (Hpos : (0 < res_synced _ rs)%nat).
  { destruct (pending_of (queue (state w))); [done|]. simpl in Hd. lia. }
  destruct (Hstart Hpos) as (Hclear & Hread & _ & Hin).
  split; [lia|]. split; [done|]. split; [done|]. split.
  { apply Forall_forall. intros r Hr. destruct (synced r) eqn:Hsy; [done|].
    assert (Hin' : r ∈ pending_of (queue (state w'))).
    { apply list_elem_of_filter. split; [|done]. unfold unsynced. by rewrite Hsy. }
    rewrite Ha1 in Hin'. by apply elem_of_nil in Hin'. }
  split.
  { cbn [UseOfflineSync.hook_run UseOfflineSync.hook_step will_clear reading store].
    cbn [will_clear] in Hclear. by rewrite Hclear. }
  split; [exact Ha1|].
  intros ts h' Hrun.
  pose proof (hook_run_reloading _ ts _ h' Hround Hne Hin Hrun) as (Hm & _ & _ & Hc).
  cbn [store] in Hm, Hc. rewrite Ha1 in Hm, Hc. split.
  - destruct Hm as [->| ->]; [by rewrite Ha1|done].
  - intros Hw. split; [by apply Hc|]. destruct Hm; auto.
Qed.

(** X3: [syncNow] on a queue with nothing pending does nothing at all: the
    drain delivers nothing, so [clearSynced] is not called and the synced
    events stay where they are.  When they fill the queue this is a dead
    end: no sequence of [addToQueue] and [syncNow] calls changes the store
    or reaches the backend, every new event being refused. *)
Theorem syncNow_without_pending (iso : string) (b : backend) (w : world Payload) :
  pending_of (queue (state w)) = [] ->
  syncNow iso b w
  = ({| res_synced := 0; res_failed := 0; res_attempts := [] |}, b, w)
  /\ ((MAX_QUEUE_SIZE <= length (queue (state w)))%nat ->
      (forall p now rnd iso', addToQueue p now rnd iso' w = (false, w))
      /\ forall ops, run_app ops (b, w) = (b, w)).
Proof.
  intros Hp.
  assert (Hnow : forall iso0, syncNow iso0 b w
                 = ({| res_synced := 0; res_failed := 0; res_attempts := [] |}, b, w)).
  { intros iso0. unfold UseOfflineSync.syncNow, OfflineStore.syncAll. by rewrite Hp. }
  split; [done|]. intros Hfull.
  assert (Hadd : forall p now rnd iso', addToQueue p now rnd iso' w = (false, w)).
  { intros p now rnd iso'. unfold OfflineStore.addToQueue.
    by destruct (Nat.leb_spec MAX_QUEUE_SIZE (length (queue (state w)))); [|lia]. }
  split; [done|]. unfold UseOfflineSync.run_app.
  induction ops as [|o ops IH]; [done|]. cbn [foldl].
  destruct o as [p now rnd iso'|iso']; cbn [UseOfflineSync.apply_app_op fst snd].
  - by rewrite Hadd.
  - by rewrite Hnow.
Qed.

(** X4: An event queued while a drain is running is lost: [addToQueue]
    returns [true] and puts it in the queue and on disk, and when the
    drain ends it writes back the copy of the queue it took at its start, so
    that the store is what the drain alone would have left. *)
Theorem enqueue_during_drain_is_lost (iso : string) (b : backend)
    (w : world Payload) (p : Payload) (now rnd iso1 : string) :
  pending_of (queue (state w)) <> [] ->
  (length (queue (state w)) < MAX_QUEUE_SIZE)%nat ->
  exists s1 r,
    ticks (start _ w) [CallSyncAll _; CallAddToQueue _ p now rnd iso1] = Some s1
    /\ (forall w1, queue (state w1) = queue (state w) ->
                   (addToQueue p now rnd iso1 w1).1 = true)
    /\ payload r = p
    /\ queue (state (now_world _ s1)) = (queue (state w) ++ [r])%list
    /\ disk (now_world _ s1) !! OFFLINE_QUEUE
       = Some (JSON_stringify (queue (state w) ++ [r]))
    /\ ticks s1 (deliveries (pending_of (queue (state w))) b iso)
       = Some (start _ (syncAll iso b w).2).
Proof.
  intros Hp Hroom.
  destruct (pending_of (queue (state w))) as [|r0 rest] eqn:E; [done|].
  assert (Hadd : forall w1, queue (state w1) = queue (state w) ->
            addToQueue p now rnd iso1 w1
            = (true,
               {| state := {| queue := (queue (state w)
                                        ++ [{| id := new_id now rnd; payload := p;
                                               createdAt := iso1; synced := false;
                                               syncError := None |}])%list;
                              isSyncing := isSyncing (state w1);
                              lastSyncAt := lastSyncAt (state w1) |};
                  disk := setObject JSON_stringify OFFLINE_QUEUE
                            (queue (state w)
                             ++ [{| id := new_id now rnd; payload := p;
                                    createdAt := iso1; synced := false;
                                    syncError := None |}])%list (disk w1) |})).
  { intros w1 Hq. unfold OfflineStore.addToQueue. rewrite Hq.
    by destruct (Nat.leb_spec MAX_QUEUE_SIZE (length (queue (state w)))); [lia|]. }
  eexists _, {| id := new_id now rnd; payload := p; createdAt := iso1;
                synced := false; syncError := None |}.
  split; [|split; [|split; [|split; [|split]]]].
  - cbn [OfflineStore.ticks OfflineStore.tick start now_world running].
    rewrite E. cbn [with_world now_world running]. rewrite Hadd by done.
    reflexivity.
  - intros w1 Hq. by rewrite Hadd.
  - reflexivity.
  - reflexivity.
  - cbn [snd disk]. apply setObject_read.
  - unfold with_world. cbn [snd running app state disk isSyncing lastSyncAt].
    unfold OfflineStore.fresh_drain. rewrite E.
    rewrite ticks_deliveries. f_equal. unfold OfflineStore.syncAll. rewrite E.
    destruct (sync_loop (r0 :: rest) b _) as [b' pr']. cbn [snd].
    f_equal. cbn [now_world disk]. unfold setObject.
    by rewrite insert_insert_eq.
Qed.

(** X5: Every change an operation makes to the queue is on disk when it
    returns: after an [addToQueue] that returned [true], a [syncAll] that
    had something pending, or a [clearSynced], a restart that loads the
    queue finds the queue the operation left in memory. *)
Theorem mutations_are_durable :
  (forall q, JSON_parse (JSON_stringify q) = Return (Some q)) ->
  (forall q, JSON_stringify q <> "") ->
  forall w,
    let reloaded w' :=
      loadQueue {| state := initial; disk := disk w' |}
      = Return {| state := {| queue := queue (state w'); isSyncing := false;
                              lastSyncAt := None |};
                  disk := disk w' |} in
    (forall p now rnd iso,
       (addToQueue p now rnd iso w).1 = true ->
       reloaded (addToQueue p now rnd iso w).2)
    /\ (forall iso b,
          pending_of (queue (state w)) <> [] -> reloaded (syncAll iso b w).2)
    /\ reloaded (clearSynced w).
Proof.
  intros Hround Hne w reloaded.
  assert (Hload : forall w', disk w' !! OFFLINE_QUEUE
                             = Some (JSON_stringify (queue (state w'))) ->
                             reloaded w').
  { intros w' Hd. unfold reloaded.
    by rewrite (loadQueue_hydrates JSON_parse (disk w') initial
                  (JSON_stringify (queue (state w'))) (queue (state w'))). }
  split; [|split].
  - intros p now rnd iso. unfold OfflineStore.addToQueue.
    destruct (Nat.leb_spec MAX_QUEUE_SIZE (length (queue (state w)))); [done|].
    intros _. apply Hload. apply setObject_read.
  - intros iso b Hp. apply Hload. unfold OfflineStore.syncAll.
    destruct (pending_of (queue (state w))) as [|r0 rest]; [done|].
    destruct (sync_loop (r0 :: rest) b _) as [b' pr']. apply setObject_read.
  - apply Hload. apply setObject_read.
Qed.

End Facts.
End UseOfflineSyncFacts.

(** ** The hook on the concrete instance *)

Module UseOfflineSyncRuns.
Import Storage Constants OfflineStore UseOfflineSync Demo DemoFacts
  UseOfflineSyncFacts.

Lemma syncNow_keeps_the_failed_witness :
  let '(res, b', h) := syncNow_drained string stringify nat submit "t" 0%nat
                         (world_of three) in
  let q1 := queue (state (store _ h)) in
  (res_synced _ res + res_failed _ res = pendingCount string three)%nat
  /\ pendingCount string q1 = res_failed _ res
  /\ Forall (fun r => synced r = false)
       (filter (fun r => unsynced string r = true) q1)
  /\ ((0 < res_synced _ res)%nat ->
      hook_run string stringify parse h [ClearSyncedRuns]
      = Some {| store := clearSynced string stringify (store _ h); reading := [];
                will_clear := false |}
      /\ queue (state (clearSynced string stringify (store _ h)))
         = filter (fun r => unsynced string r = true) q1
      /\ (exists h',
            hook_run string stringify parse h
              [LoadQueueReads; ClearSyncedRuns; LoadQueueLands 0] = Some h'
            /\ will_clear _ h' = false /\ reading _ h' = []
            /\ queue (state (store _ h')) = q1)
      /\ forall ts h',
           hook_run string stringify parse h ts = Some h' ->
           pendingCount string (queue (state (store _ h'))) = res_failed _ res
           /\ (will_clear _ h' = false ->
               disk (store _ h') !! OFFLINE_QUEUE
               = Some (stringify (filter (fun r => unsynced string r = true) q1))
               /\ (queue (state (store _ h'))
                   = filter (fun r => unsynced string r = true) q1
                   \/ queue (state (store _ h')) = q1))).
Proof.
  apply (syncNow_keeps_the_failed stringify parse nat submit "t" 0%nat
           (world_of three)).
  - by_decide.
  - apply parse_stringify.
  - apply stringify_nonempty.
Defined.

Lemma syncNow_empties_the_queue_witness :
  let '(res, b', h) := syncNow_drained string stringify nat accept "t" 0%nat
                         (world_of three) in
  let q1 := queue (state (store _ h)) in
  res_synced _ res = pendingCount string three
  /\ res_failed _ res = 0%nat
  /\ res_attempts _ res
     = map payload (filter (fun r => unsynced string r = true) three)
  /\ Forall (fun r => synced r = true) q1
  /\ hook_run string stringify parse h [ClearSyncedRuns]
     = Some {| store := clearSynced string stringify (store _ h); reading := [];
               will_clear := false |}
  /\ queue (state (clearSynced string stringify (store _ h))) = []
  /\ forall ts h',
       hook_run string stringify parse h ts = Some h' ->
       pendingCount string (queue (state (store _ h'))) = 0%nat
       /\ (will_clear _ h' = false ->
           disk (store _ h') !! OFFLINE_QUEUE = Some (stringify [])
           /\ (queue (state (store _ h')) = []
               \/ queue (state (store _ h')) = q1)).
Proof.
  apply (syncNow_empties_the_queue stringify parse nat accept "t" 0%nat
           (world_of three)).
  - by_decide.
  - apply parse_stringify.
  - apply stringify_nonempty.
  - reflexivity.
  - discriminate.
Defined.

Lemma syncNow_without_pending_witness :
  syncNow string stringify nat submit "t" 0%nat full_of_synced
  = ({| res_synced := 0; res_failed := 0; res_attempts := [] |}, 0%nat,
     full_of_synced)
  /\ ((MAX_QUEUE_SIZE <= length (queue (state full_of_synced)))%nat ->
      (forall p now rnd iso',
         addToQueue string stringify p now rnd iso' full_of_synced
         = (false, full_of_synced))
      /\ forall ops,
           run_app string stringify nat submit ops (0%nat, full_of_synced)
           = (0%nat, full_of_synced)).
Proof.
  apply (syncNow_without_pending stringify nat submit "t" 0%nat full_of_synced).
  reflexivity.
Defined.

Lemma enqueue_during_drain_is_lost_witness :
  exists s1 r,
    ticks string stringify parse (start _ (world_of three))
      [CallSyncAll _; CallAddToQueue _ "late" "4" "d" "t0"] = Some s1
    /\ (forall w1, queue (state w1) = queue (state (world_of three)) ->
                   (addToQueue string stringify "late" "4" "d" "t0" w1).1 = true)
    /\ payload r = "late"
    /\ queue (state (now_world _ s1)) = (queue (state (world_of three)) ++ [r])%list
    /\ disk (now_world _ s1) !! OFFLINE_QUEUE
       = Some (stringify (queue (state (world_of three)) ++ [r]))
    /\ ticks string stringify parse s1
         (deliveries string nat submit
            (filter (fun r => unsynced string r = true)
                    (queue (state (world_of three)))) 0%nat "t")
       = Some (start _ (syncAll string stringify nat submit "t" 0%nat
                          (world_of three)).2).
Proof.
  apply (enqueue_during_drain_is_lost stringify parse nat submit "t" 0%nat
           (world_of three) "late" "4" "d" "t0").
  - discriminate.
  - vm_compute. lia.
Defined.

Lemma mutations_are_durable_witness :
  loadQueue string parse
    {| state := initial; disk := disk (clearSynced string stringify (world_of three)) |}
  = Return {| state := {| queue := queue (state (clearSynced string stringify
                                                   (world_of three)));
                          isSyncing := false; lastSyncAt := None |};
              disk := disk (clearSynced string stringify (world_of three)) |}.
Proof.
  exact (proj2 (proj2 (mutations_are_durable stringify parse nat submit
                         parse_stringify stringify_nonempty (world_of three)))).
Defined.

End UseOfflineSyncRuns.

(** ** What every run of the interceptor keeps *)

Module ApiInvariants.
Import Storage Constants Api ApiFacts.

#[local] Arguments processQueue : simpl never.

Implicit Types (s : state) (k : call) (c p : nat).

(** **** The flag and the run that holds it *)

Definition has_refresher (s : state) : Prop :=
  exists c k, calls s !! c = Some k /\ refreshing k = true.

Lemma refresher_insert_self s c knew b fq es snt :
  refreshing knew = true ->
  has_refresher {| isRefreshing := b; failedQueue := fq; storage := es;
                   calls := <[c := knew]> (calls s); sent := snt |}.
Proof. intros R. exists c, knew. simpl. by rewrite lookup_insert_eq. Qed.

Lemma refresher_insert_other s c knew b fq es snt :
  (forall k, calls s !! c = Some k -> refreshing k = false) ->
  has_refresher s ->
  has_refresher {| isRefreshing := b; failedQueue := fq; storage := es;
                   calls := <[c := knew]> (calls s); sent := snt |}.
Proof.
  intros Hold (c0 & k0 & H0 & R0). exists c0, k0. simpl. split; [|done].
  rewrite lookup_insert_ne; [done|]. intros <-.
  by rewrite (Hold k0 H0) in R0.
Qed.

Lemma step_flag_owner s e s' :
  (isRefreshing s = true -> has_refresher s) ->
  step s e = Some s' ->
  isRefreshing s' = true -> has_refresher s'.
Proof.
  intros IH Hstep. destruct e as [c|c|c status|c|c access|c status|c|c|c];
    simpl in Hstep.
  - destruct (calls s !! c) eqn:Hc; [done|]. inversion Hstep; subst s'.
    unfold dispatch. simpl. intros Hr.
    apply refresher_insert_other; [congruence|auto].
  - destruct (calls s !! c) as [[cfg []]|] eqn:Hc; try done.
    inversion Hstep; subst s'. unfold with_call. simpl. intros Hr.
    apply refresher_insert_other; [|auto]. intros k Hk. rewrite Hc in Hk. by inversion Hk.
  - destruct (calls s !! c) as [[cfg []]|] eqn:Hc; try done.
    inversion Hstep; subst s'. unfold on_rejected, with_call.
    destruct (negb (bool_decide (status = Some 401)) || _retry cfg).
    + simpl. intros Hr. apply refresher_insert_other; [|auto].
      intros k Hk. rewrite Hc in Hk. by inversion Hk.
    + destruct (isRefreshing s) eqn:Hr.
      * intros _. apply refresher_insert_other; [|auto].
        intros k Hk. rewrite Hc in Hk. by inversion Hk.
      * intros _. by apply refresher_insert_self.
  - destruct (calls s !! c) as [[cfg []]|] eqn:Hc; try done.
    assert (Hcatch : has_refresher (catch_refresh c cfg NoRefreshToken s))
      by (by apply refresher_insert_self).
    destruct (get REFRESH_TOKEN (storage s)) as [rt|];
      [|by inversion Hstep; subst s'].
    destruct (String.eqb rt ""); inversion Hstep; subst s'; [done|].
    intros _. by apply refresher_insert_self.
  - destruct (calls s !! c) as [[cfg []]|] eqn:Hc; try done.
    inversion Hstep; subst s'. intros _. by apply refresher_insert_self.
  - destruct (calls s !! c) as [[cfg []]|] eqn:Hc; try done.
    inversion Hstep; subst s'. intros _. by apply refresher_insert_self.
  - destruct (calls s !! c) as [[cfg []]|] eqn:Hc; try done.
    by inversion Hstep; subst s'.
  - destruct (calls s !! c) as [[cfg []]|] eqn:Hc; try done.
    inversion Hstep; subst s'. intros _. by apply refresher_insert_self.
  - destruct (calls s !! c) as [[cfg []]|] eqn:Hc; try done.
    by inversion Hstep; subst s'.
Qed.

Lemma exec_flag_owner es : forall s s',
  (isRefreshing s = true -> has_refresher s) ->
  exec s es = Some s' ->
  isRefreshing s' = true -> has_refresher s'.
Proof.
  induction es as [|e es IH]; intros s s' Hs Hex; simpl in Hex.
  - by inversion Hex; subst.
  - destruct (step s e) as [s1|] eqn:Hstep; [|done].
    eapply IH; [|exact Hex]. by eapply step_flag_owner.
Qed.

(** X6: On every run from startup [isRefreshing] is set exactly while some
    call is inside the refreshing part of the handler, between its first
    [await] and its [finally], and there is at most one such call: the
    flag is never left set with no run to clear it, and never cleared
    under a run that still refreshes. *)
Theorem refreshing_flag_has_one_owner (es0 : EncryptedStorage)
    (evs : list event) (s : state) :
  exec (at_startup es0) evs = Some s ->
  (isRefreshing s = true
   <-> exists c k, calls s !! c = Some k /\ refreshing k = true)
  /\ (forall c1 k1 c2 k2,
        calls s !! c1 = Some k1 -> calls s !! c2 = Some k2 ->
        refreshing k1 = true -> refreshing k2 = true -> c1 = c2).
Proof.
  intros Hex.
  assert (Hwf : well_formed s)
    by (eapply exec_well_formed; [apply well_formed_at_startup|exact Hex]).
  split; [split|].
  - eapply exec_flag_owner; [|exact Hex]. done.
  - intros (c & k & Hc & R). by eapply refreshing_running.
  - apply (wf_single s Hwf).
Qed.

(** **** The [_retry] mark and the exchanges a call sends *)

Lemma filter_exchange_of_request c c' auth (l : list wire) :
  filter (fun w => is_exchange_of c w = true) (l ++ [Request c' auth]) 
  = filter (fun w => is_exchange_of c w = true) l.
Proof. rewrite filter_app, filter_cons. simpl. by rewrite app_nil_r. Qed.

Lemma filter_exchange_of_other c c' rt (l : list wire) :
  c' <> c ->
  filter (fun w => is_exchange_of c w = true) (l ++ [RefreshExchange c' rt])
  = filter (fun w => is_exchange_of c w = true) l.
Proof.
  intros Hne. rewrite filter_app, filter_cons. simpl.
  rewrite bool_decide_eq_false_2 by done. simpl. by rewrite app_nil_r.
Qed.

Lemma filter_exchange_of_same c rt (l : list wire) :
  length (filter (fun w => is_exchange_of c w = true) (l ++ [RefreshExchange c rt]))
  = S (length (filter (fun w => is_exchange_of c w = true) l)).
Proof.
  rewrite filter_app, filter_cons. simpl.
  rewrite bool_decide_eq_true_2 by done. simpl. rewrite length_app. simpl. lia.
Qed.

Lemma settle_one_exchanges_of err token s p c :
  exchanges_of c (settle_one err token s p) = exchanges_of c s.
Proof.
  unfold settle_one, reject_parked, resolve_parked, exchanges_of.
  destruct err; destruct (calls s !! p); simpl; try done.
  by rewrite filter_exchange_of_request.
Qed.

Lemma settle_all_exchanges_of err token l c : forall s,
  exchanges_of c (foldl (settle_one err token) s l) = exchanges_of c s.
Proof.
  induction l as [|p l IH]; intros s; simpl; [done|].
  by rewrite IH, settle_one_exchanges_of.
Qed.

Lemma processQueue_exchanges_of err token s c :
  exchanges_of c (processQueue err token s) = exchanges_of c s.
Proof.
  rewrite <- (settle_all_exchanges_of err token (failedQueue s) c s).
  reflexivity.
Qed.

Lemma retry_attach es cfg : _retry (attach es cfg) = _retry cfg.
Proof.
  unfold attach. destruct (get ACCESS_TOKEN es) as [t|]; [|done].
  by destruct (String.eqb t "").
Qed.

Lemma retry_settled err token es k :
  _retry (originalRequest (settled err token es k)) = _retry (originalRequest k).
Proof. destruct err; simpl; [done|]. by rewrite retry_attach. Qed.

Lemma phase_settled err token es k :
  at_phase (settled err token es k) <> GettingRefreshToken
  /\ at_phase (settled err token es k) <> Parked.
Proof. by destruct err. Qed.

Lemma marked_at_startup es : marked (at_startup es).
Proof.
  split.
  - intros c k H. simpl in H. by rewrite lookup_empty in H.
  - intros c. by left.
Qed.

Lemma marked_ext s s' :
  calls s' = calls s -> sent s' = sent s -> marked s -> marked s'.
Proof.
  intros Hc Hs [Hr Ho]. split; unfold exchanges_of; rewrite ?Hc, ?Hs; auto.
Qed.

Lemma marked_processQueue err token s : marked s -> marked (processQueue err token s).
Proof.
  intros [Hr Ho]. split.
  - intros c k Hk R. rewrite processQueue_calls in Hk.
    destruct (decide (c ∈ failedQueue s)); [|by apply (Hr c)].
    destruct (calls s !! c) as [k0|]; [|done]. simpl in Hk.
    inversion Hk; subst k. by rewrite refreshing_settled in R.
  - intros c. rewrite processQueue_exchanges_of.
    destruct (Ho c) as [H0|(H1 & k & Hk & Hret & Hph)]; [by left|right].
    split; [done|]. rewrite processQueue_calls.
    destruct (decide (c ∈ failedQueue s)); [|by exists k].
    rewrite Hk. simpl. eexists. split; [done|].
    split; [by rewrite retry_settled|apply phase_settled].
Qed.

(** One call moves to [knew] and the log grows to [snt]. *)
Lemma marked_update s c knew b fq es snt :
  marked s ->
  (refreshing knew = true -> _retry (originalRequest knew) = true) ->
  (forall c', c' <> c ->
     length (filter (fun w => is_exchange_of c' w = true) snt) = exchanges_of c' s) ->
  (length (filter (fun w => is_exchange_of c w = true) snt) = 0%nat
   \/ (length (filter (fun w => is_exchange_of c w = true) snt) = 1%nat
       /\ _retry (originalRequest knew) = true
       /\ at_phase knew <> GettingRefreshToken)) ->
  marked {| isRefreshing := b; failedQueue := fq; storage := es;
            calls := <[c := knew]> (calls s); sent := snt |}.
Proof.
  intros [Hr Ho] Hnew Hoth Hown. split; simpl.
  - intros c' k' Hk' R. destruct (decide (c' = c)) as [->|Hne].
    + rewrite lookup_insert_eq in Hk'. inversion Hk'; subst k'. auto.
    + rewrite lookup_insert_ne in Hk' by done. by apply (Hr c').
  - intros c'. unfold exchanges_of. simpl.
    destruct (decide (c' = c)) as [->|Hne].
    + destruct Hown as [H0|(H1 & Hret & Hph)]; [by left|right].
      split; [done|]. exists knew. by rewrite lookup_insert_eq.
    + rewrite (Hoth c' Hne), lookup_insert_ne by done. apply Ho.
Qed.

(** What [mk_once] gives for a call whose request carries the mark. *)
Lemma marked_own s c (retry : bool) (ph : phase) :
  marked s -> retry = true -> ph <> GettingRefreshToken ->
  exchanges_of c s = 0%nat
  \/ (exchanges_of c s = 1%nat /\ retry = true /\ ph <> GettingRefreshToken).
Proof.
  intros Hm Hret Hph.
  destruct (mk_once s Hm c) as [H0|(H1 & _)]; [by left|by right].
Qed.

(** The same for a call that was in flight and keeps its request. *)
Lemma marked_own_kept s c cfg ph0 ph :
  marked s ->
  calls s !! c = Some {| originalRequest := cfg; at_phase := ph0 |} ->
  ph <> GettingRefreshToken ->
  exchanges_of c s = 0%nat
  \/ (exchanges_of c s = 1%nat /\ _retry cfg = true /\ ph <> GettingRefreshToken).
Proof.
  intros Hm Hc Hph.
  destruct (mk_once s Hm c) as [H0|(H1 & k & Hk & Hret & _)]; [by left|right].
  rewrite Hc in Hk. inversion Hk; subst k. done.
Qed.

Lemma marked_catch s c cfg ph e :
  marked s ->
  calls s !! c = Some {| originalRequest := cfg; at_phase := ph |} ->
  refreshing {| originalRequest := cfg; at_phase := ph |} = true ->
  marked (catch_refresh c cfg e s).
Proof.
  intros Hm Hc R. unfold catch_refresh, with_call.
  pose proof (mk_refreshing s Hm c _ Hc R) as Hret. simpl in Hret.
  apply marked_update.
  - by apply marked_processQueue.
  - done.
  - done.
  - apply (marked_own (processQueue (Some e) "" s) c (_retry cfg)); 
      [by apply marked_processQueue|done|done].
Qed.

Lemma step_marked s e s' : marked s -> step s e = Some s' -> marked s'.
Proof.
  intros Hm Hstep. destruct e as [c|c|c status|c|c access|c status|c|c|c];
    simpl in Hstep.
  - (* Send *)
    destruct (calls s !! c) eqn:Hc; [done|]. inversion Hstep; subst s'.
    unfold dispatch. apply marked_update; [done|done|..].
    + intros c' _. by rewrite filter_exchange_of_request.
    + left. rewrite filter_exchange_of_request.
      destruct (mk_once s Hm c) as [H0|(_ & k & Hk & _)]; [done|congruence].
  - (* RespondOk *)
    destruct (calls s !! c) as [[cfg []]|] eqn:Hc; try done.
    inversion Hstep; subst s'. unfold with_call.
    apply marked_update; [done|done|done|].
    by apply (marked_own_kept s c cfg InFlight).
  - (* RespondError *)
    destruct (calls s !! c) as [[cfg []]|] eqn:Hc; try done.
    inversion Hstep; subst s'. unfold on_rejected, with_call.
    destruct (negb (bool_decide (status = Some 401)) || _retry cfg) eqn:Hg.
    + apply marked_update; [done|done|done|].
      by apply (marked_own_kept s c cfg InFlight).
    + apply orb_false_elim in Hg as [_ Hret].
      destruct (isRefreshing s).
      * apply marked_update; [done|done|done|].
        by apply (marked_own_kept s c cfg InFlight).
      * apply marked_update; [done|done|done|]. left.
        destruct (mk_once s Hm c) as [H0|(_ & k & Hk & Hret' & _)]; [done|].
        rewrite Hc in Hk. inversion Hk; subst k. simpl in Hret'. congruence.
  - (* GotRefreshToken *)
    destruct (calls s !! c) as [[cfg []]|] eqn:Hc; try done.
    assert (Hcatch : marked (catch_refresh c cfg NoRefreshToken s))
      by (by eapply marked_catch).
    pose proof (mk_refreshing s Hm c _ Hc eq_refl) as Hret. simpl in Hret.
    destruct (get REFRESH_TOKEN (storage s)) as [rt|];
      [|by inversion Hstep; subst s'].
    destruct (String.eqb rt ""); inversion Hstep; subst s'; [done|].
    apply marked_update; [done|done|..].
    + intros c' Hne. by rewrite filter_exchange_of_other.
    + right. rewrite filter_exchange_of_same. split; [|done].
      destruct (mk_once s Hm c) as [H0|(_ & k & Hk & _ & Hph)].
      * unfold exchanges_of in H0. by rewrite H0.
      * rewrite Hc in Hk. inversion Hk; subst k. by destruct Hph.
  - (* RefreshSucceeded *)
    destruct (calls s !! c) as [[cfg []]|] eqn:Hc; try done.
    pose proof (mk_refreshing s Hm c _ Hc eq_refl) as Hret. simpl in Hret.
    inversion Hstep; subst s'. unfold with_call.
    apply marked_update; [done|done|done|].
    by apply (marked_own s c (_retry cfg)).
  - (* RefreshFailed *)
    destruct (calls s !! c) as [[cfg []]|] eqn:Hc; try done.
    inversion Hstep; subst s'. by eapply marked_catch.
  - (* AccessStored *)
    destruct (calls s !! c) as [[cfg []]|] eqn:Hc; try done.
    pose proof (mk_refreshing s Hm c _ Hc eq_refl) as Hret. simpl in Hret.
    inversion Hstep; subst s'. clear Hstep.
    set (s1 := with_storage (set ACCESS_TOKEN access (storage s)) s).
    assert (Hm2 : marked (processQueue None access s1)).
    { apply marked_processQueue. by apply (marked_ext s). }
    unfold with_refreshing, dispatch. simpl.
    apply (marked_update (processQueue None access s1)); [done|done|..].
    + intros c' _. by rewrite filter_exchange_of_request.
    + rewrite filter_exchange_of_request.
      apply (marked_own (processQueue None access s1) c); [done| |done].
      cbn [originalRequest]. by rewrite retry_attach.
  - (* AccessRemoved *)
    destruct (calls s !! c) as [[cfg []]|] eqn:Hc; try done.
    pose proof (mk_refreshing s Hm c _ Hc eq_refl) as Hret. simpl in Hret.
    inversion Hstep; subst s'. unfold with_call, with_storage. simpl.
    apply (marked_update s); [done|done|done|].
    by apply (marked_own s c (_retry cfg)).
  - (* RefreshRemoved *)
    destruct (calls s !! c) as [[cfg []]|] eqn:Hc; try done.
    pose proof (mk_refreshing s Hm c _ Hc eq_refl) as Hret. simpl in Hret.
    inversion Hstep; subst s'. unfold with_refreshing, with_call, with_storage.
    simpl. apply (marked_update s); [done|done|done|].
    by apply (marked_own s c (_retry cfg)).
Qed.

Lemma exec_marked es : forall s s',
  marked s -> exec s es = Some s' -> marked s'.
Proof.
  induction es as [|e es IH]; intros s s' Hm Hex; simpl in Hex.
  - by inversion Hex; subst.
  - destruct (step s e) as [s1|] eqn:Hs; [|done].
    eapply IH; [|exact Hex]. by eapply step_marked.
Qed.

(** X7: On every run from startup no call sends more than one refresh
    exchange, and a call that has sent its exchange carries [_retry]: the
    next failure of that call, whatever its status, rejects it at once,
    with nothing sent and the tokens, the flag and the wait-list
    untouched. *)
Theorem one_refresh_exchange_per_call (es0 : EncryptedStorage)
    (evs : list event) (s : state) :
  exec (at_startup es0) evs = Some s ->
  forall c,
    (exchanges_of c s <= 1)%nat
    /\ (exchanges_of c s = 1%nat ->
        forall status s',
          step s (RespondError c status) = Some s' ->
          (exists cfg, calls s' !! c
                       = Some {| originalRequest := cfg;
                                 at_phase := Failed (AxiosError status) |})
          /\ sent s' = sent s /\ storage s' = storage s
          /\ isRefreshing s' = isRefreshing s
          /\ failedQueue s' = failedQueue s).
Proof.
  intros Hex c.
  assert (Hm : marked s)
    by (eapply exec_marked; [apply marked_at_startup|exact Hex]).
  destruct (mk_once s Hm c) as [H0|(H1 & k & Hk & Hret & _)].
  - split; [lia|]. intros H1. congruence.
  - split; [lia|]. intros _ status s' Hstep. simpl in Hstep. rewrite Hk in Hstep.
    destruct k as [cfg ph]. simpl in Hret. destruct ph; try done.
    inversion Hstep; subst s'. unfold on_rejected. rewrite Hret, orb_true_r.
    simpl. split; [|done]. exists cfg. by rewrite lookup_insert_eq.
Qed.

(** **** The wait-list and the parked calls *)

Lemma listed_at_startup es : listed (at_startup es).
Proof.
  split; simpl; [apply NoDup_nil_2|].
  intros c k H. by rewrite lookup_empty in H.
Qed.

Lemma listed_processQueue err token s :
  listed s ->
  forall c k, calls (processQueue err token s) !! c = Some k ->
              at_phase k <> Parked.
Proof.
  intros [_ Hp] c k Hk Hph. rewrite processQueue_calls in Hk.
  destruct (decide (c ∈ failedQueue s)) as [Hin|Hnin].
  - destruct (calls s !! c) as [k0|]; [|done]. simpl in Hk.
    inversion Hk; subst k. by apply (phase_settled err token (storage s) k0).
  - apply Hnin. by apply (Hp c k).
Qed.

(** One call that is not parked moves to [knew], which is not parked
    either; the wait-list stays or is emptied by [processQueue]. *)
Lemma listed_update s c knew b fq es snt :
  (fq = failedQueue s /\ listed s
   \/ fq = [] /\ forall c' k', calls s !! c' = Some k' -> at_phase k' <> Parked) ->
  at_phase knew <> Parked ->
  listed {| isRefreshing := b; failedQueue := fq; storage := es;
            calls := <[c := knew]> (calls s); sent := snt |}.
Proof.
  intros Hfq Hnew. split; simpl.
  - destruct Hfq as [[-> [Hnd _]]|[-> _]]; [done|apply NoDup_nil_2].
  - intros c' k' Hk' Hph. destruct (decide (c' = c)) as [->|Hne].
    + rewrite lookup_insert_eq in Hk'. inversion Hk'; subst k'. done.
    + rewrite lookup_insert_ne in Hk' by done.
      destruct Hfq as [[-> [_ Hp]]|[-> Hnone]]; [by apply (Hp c' k')|].
      by destruct (Hnone c' k' Hk').
Qed.

Lemma step_listed s e s' :
  well_formed s -> listed s -> step s e = Some s' -> listed s'.
Proof.
  intros Hwf Hl Hstep. destruct e as [c|c|c status|c|c access|c status|c|c|c];
    simpl in Hstep.
  - destruct (calls s !! c) eqn:Hc; [done|]. inversion Hstep; subst s'.
    unfold dispatch. apply listed_update; [by left|done].
  - destruct (calls s !! c) as [[cfg []]|] eqn:Hc; try done.
    inversion Hstep; subst s'. unfold with_call.
    apply listed_update; [by left|done].
  - destruct (calls s !! c) as [[cfg []]|] eqn:Hc; try done.
    inversion Hstep; subst s'. unfold on_rejected, with_call.
    destruct (negb (bool_decide (status = Some 401)) || _retry cfg).
    + apply listed_update; [by left|done].
    + destruct (isRefreshing s).
      * destruct Hl as [Hnd Hp]. split; simpl.
        -- apply NoDup_app. split; [done|]. split; [|apply NoDup_singleton].
           intros p Hin Hp'. apply list_elem_of_singleton in Hp'. subst p.
           destruct (wf_parked s Hwf c Hin) as [cfg' Hcfg']. congruence.
        -- intros c' k' Hk' Hph. apply elem_of_app.
           destruct (decide (c' = c)) as [->|Hne];
             [right; apply list_elem_of_singleton; done|left].
           rewrite lookup_insert_ne in Hk' by done. by apply (Hp c' k').
      * apply listed_update; [by left|done].
  - destruct (calls s !! c) as [[cfg []]|] eqn:Hc; try done.
    assert (Hcatch : listed (catch_refresh c cfg NoRefreshToken s)).
    { unfold catch_refresh, with_call.
      destruct (processQueue_frame (Some NoRefreshToken) "" s) as (_ & _ & -> & _).
      apply listed_update; [right; split; [done|]|done].
      by apply listed_processQueue. }
    destruct (get REFRESH_TOKEN (storage s)) as [rt|];
      [|by inversion Hstep; subst s'].
    destruct (String.eqb rt ""); inversion Hstep; subst s'; [done|].
    apply listed_update; [by left|done].
  - destruct (calls s !! c) as [[cfg []]|] eqn:Hc; try done.
    inversion Hstep; subst s'. unfold with_call.
    apply listed_update; [by left|done].
  - destruct (calls s !! c) as [[cfg []]|] eqn:Hc; try done.
    inversion Hstep; subst s'. unfold catch_refresh, with_call.
    destruct (processQueue_frame (Some (AxiosError status)) "" s) as (_ & _ & -> & _).
    apply listed_update; [right; split; [done|]|done].
    by apply listed_processQueue.
  - destruct (calls s !! c) as [[cfg []]|] eqn:Hc; try done.
    inversion Hstep; subst s'. clear Hstep.
    remember (with_storage (set ACCESS_TOKEN access (storage s)) s) as s1 eqn:Es1.
    assert (Hl1 : listed s1) by (subst s1; by destruct Hl).
    destruct (processQueue_frame None access s1) as (_ & _ & F3 & _).
    unfold with_refreshing, dispatch.
    cbn [isRefreshing failedQueue storage calls sent]. rewrite F3.
    apply listed_update; [right; split; [done|]|done].
    by apply listed_processQueue.
  - destruct (calls s !! c) as [[cfg []]|] eqn:Hc; try done.
    inversion Hstep; subst s'. unfold with_call, with_storage. simpl.
    apply (listed_update s); [by left|done].
  - destruct (calls s !! c) as [[cfg []]|] eqn:Hc; try done.
    inversion Hstep; subst s'. unfold with_refreshing, with_call, with_storage.
    simpl. apply (listed_update s); [by left|done].
Qed.

Lemma exec_listed es : forall s s',
  well_formed s -> listed s -> exec s es = Some s' -> listed s'.
Proof.
  induction es as [|e es IH]; intros s s' Hwf Hl Hex; simpl in Hex.
  - by inversion Hex; subst.
  - destruct (step s e) as [s1|] eqn:Hs; [|done].
    eapply IH; [| |exact Hex]; [by eapply step_well_formed|by eapply step_listed].
Qed.

(** X8: On every run from startup the wait-list names exactly the parked
    calls, each once: a call is parked by being pushed on the list and
    leaves that state only when [processQueue] settles the whole list, so
    none is settled twice and none is dropped from the list unsettled. *)
Theorem wait_list_is_the_parked_calls (es0 : EncryptedStorage)
    (evs : list event) (s : state) :
  exec (at_startup es0) evs = Some s ->
  NoDup (failedQueue s)
  /\ forall c,
       c ∈ failedQueue s
       <-> exists cfg, calls s !! c
                       = Some {| originalRequest := cfg; at_phase := Parked |}.
Proof.
  intros Hex.
  assert (Hwf : well_formed s)
    by (eapply exec_well_formed; [apply well_formed_at_startup|exact Hex]).
  assert (Hl : listed s).
  { eapply exec_listed; [| |exact Hex];
      [apply well_formed_at_startup|apply listed_at_startup]. }
  split; [apply (li_nodup s Hl)|]. intros c. split.
  - apply (wf_parked s Hwf).
  - intros [cfg Hc]. by apply (li_parked s Hl c _ Hc).
Qed.

(** **** What the interceptor does to the storage *)

Lemma storage_catch c cfg e s : storage (catch_refresh c cfg e s) = storage s.
Proof.
  unfold catch_refresh, with_call. cbn [storage].
  by destruct (processQueue_frame (Some e) "" s) as (_ & F2 & _).
Qed.

Lemma step_storage s e s' :
  step s e = Some s' ->
  (forall key, key <> ACCESS_TOKEN -> key <> REFRESH_TOKEN ->
               storage s' !! key = storage s !! key)
  /\ (storage s' !! REFRESH_TOKEN = storage s !! REFRESH_TOKEN
      \/ storage s' !! REFRESH_TOKEN = None).
Proof.
  intros Hstep. destruct e as [c|c|c status|c|c access|c status|c|c|c];
    simpl in Hstep.
  - destruct (calls s !! c) eqn:Hc; [done|]. inversion Hstep; subst s'.
    split; [done|by left].
  - destruct (calls s !! c) as [[cfg []]|] eqn:Hc; try done.
    inversion Hstep; subst s'. split; [done|by left].
  - destruct (calls s !! c) as [[cfg []]|] eqn:Hc; try done.
    inversion Hstep; subst s'. unfold on_rejected.
    destruct (negb (bool_decide (status = Some 401)) || _retry cfg);
      [|destruct (isRefreshing s)]; (split; [done|by left]).
  - destruct (calls s !! c) as [[cfg []]|] eqn:Hc; try done.
    destruct (get REFRESH_TOKEN (storage s)) as [rt|];
      [destruct (String.eqb rt "")|]; inversion Hstep; subst s';
      rewrite ?storage_catch; (split; [done|by left]).
  - destruct (calls s !! c) as [[cfg []]|] eqn:Hc; try done.
    inversion Hstep; subst s'. split; [done|by left].
  - destruct (calls s !! c) as [[cfg []]|] eqn:Hc; try done.
    inversion Hstep; subst s'. rewrite storage_catch. split; [done|by left].
  - destruct (calls s !! c) as [[cfg []]|] eqn:Hc; try done.
    inversion Hstep; subst s'. unfold with_refreshing, dispatch.
    cbn [storage].
    destruct (processQueue_frame None access
                (with_storage (set ACCESS_TOKEN access (storage s)) s))
      as (_ & F2 & _).
    rewrite F2. cbn [with_storage storage]. unfold set. split.
    + intros key Ha _. by rewrite lookup_insert_ne.
    + left. by rewrite lookup_insert_ne.
  - destruct (calls s !! c) as [[cfg []]|] eqn:Hc; try done.
    inversion Hstep; subst s'. simpl. unfold remove. split.
    + intros key Ha _. by rewrite lookup_delete_ne.
    + left. by rewrite lookup_delete_ne.
  - destruct (calls s !! c) as [[cfg []]|] eqn:Hc; try done.
    inversion Hstep; subst s'. simpl. unfold remove. split.
    + intros key _ Hr. by rewrite lookup_delete_ne.
    + right. by rewrite lookup_delete_eq.
Qed.

Lemma exec_storage es : forall s s',
  exec s es = Some s' ->
  (forall key, key <> ACCESS_TOKEN -> key <> REFRESH_TOKEN ->
               storage s' !! key = storage s !! key)
  /\ (storage s' !! REFRESH_TOKEN = storage s !! REFRESH_TOKEN
      \/ storage s' !! REFRESH_TOKEN = None).
Proof.
  induction es as [|e es IH]; intros s s' Hex; simpl in Hex.
  - inversion Hex; subst. split; [done|by left].
  - destruct (step s e) as [s1|] eqn:Hs; [|done].
    destruct (step_storage s e s1 Hs) as [H1 H2].
    destruct (IH s1 s' Hex) as [G1 G2]. split.
    + intros key Ha Hr. by rewrite G1, H1.
    + destruct G2 as [G2|G2]; [|by right]. rewrite G2. exact H2.
Qed.

(** X9: On every run the interceptor leaves every stored key other than the
    two tokens as it was (the user data, the tenant slug and the offline
    queue among them), and it never writes the refresh token: what is
    stored under it is what was there at the start, or nothing. *)
Theorem interceptor_touches_only_tokens (es0 : EncryptedStorage)
    (evs : list event) (s : state) :
  exec (at_startup es0) evs = Some s ->
  (forall key, key <> ACCESS_TOKEN -> key <> REFRESH_TOKEN ->
               get key (storage s) = get key es0)
  /\ (get REFRESH_TOKEN (storage s) = get REFRESH_TOKEN es0
      \/ get REFRESH_TOKEN (storage s) = None)
  /\ get USER_DATA (storage s) = get USER_DATA es0
  /\ get TENANT_SLUG (storage s) = get TENANT_SLUG es0
  /\ get OFFLINE_QUEUE (storage s) = get OFFLINE_QUEUE es0.
Proof.
  intros Hex. destruct (exec_storage evs _ _ Hex) as [H1 H2].
  split; [exact H1|]. split; [exact H2|]. repeat split; by apply H1.
Qed.

(** **** A refresh that fails, to its end *)

Lemma during_no_token s0 r fq snt s :
  during s0 r GettingRefreshToken fq snt s ->
  (forall p, p ∈ fq -> fresh_in_flight s0 p) ->
  get REFRESH_TOKEN (storage s0) = None
  \/ get REFRESH_TOKEN (storage s0) = Some "" ->
  exists s',
    step s (GotRefreshToken r) = Some s'
    /\ failedQueue s' = [] /\ sent s' = (sent s0 ++ snt)%list
    /\ (exists cfg, calls s' !! r
                    = Some {| originalRequest := cfg;
                              at_phase := RemovingAccess NoRefreshToken |})
    /\ forall p, p ∈ fq ->
         exists cfg, calls s' !! p
                     = Some {| originalRequest := cfg;
                               at_phase := Failed NoRefreshToken |}.
Proof.
  intros Hd Hfresh Hnone.
  destruct (du_refresher _ _ _ _ _ _ Hd) as [auth Hauth].
  pose proof (during_parked_present _ _ _ _ _ _ Hd Hfresh) as Hpresent.
  destruct (processQueue_frame (Some NoRefreshToken) "" s) as (F1 & F2 & F3 & _).
  exists (catch_refresh r {| _retry := true; Authorization := auth |}
            NoRefreshToken s).
  split.
  { cbn [step]. rewrite Hauth, (du_storage _ _ _ _ _ _ Hd).
    by destruct Hnone as [->| ->]. }
  unfold catch_refresh, with_call.
  cbn [isRefreshing failedQueue storage calls sent]. rewrite F3.
  split; [done|]. split; [|split].
  - rewrite processQueue_sent_reject. apply (du_sent _ _ _ _ _ _ Hd).
  - eexists. by rewrite lookup_insert_eq.
  - intros p Hp. destruct (du_parked _ _ _ _ _ _ Hd p Hp) as [Hne _].
    rewrite lookup_insert_ne by done. rewrite processQueue_calls.
    rewrite (du_queue _ _ _ _ _ _ Hd).
    destruct (decide (p ∈ fq)) as [_|]; [|done].
    destruct (Hpresent p Hp) as [a Ha]. rewrite Ha. simpl. by eexists.
Qed.

Lemma signed_out es :
  get ACCESS_TOKEN es = None -> AuthService.isAuthenticated es = false.
Proof. unfold AuthService.isAuthenticated. by intros ->. Qed.

(** X10: A refresh the backend turns down, from the 401 that starts it to the
    end of the handler, with calls getting their 401 until the exchange
    settles: one exchange goes out and nothing else, both tokens are
    removed, the refreshing call and every parked call are rejected with
    the error of the exchange, the flag is cleared and the wait-list is
    empty; [isAuthenticated] then answers no. *)
Theorem rejected_refresh_ends_the_session (s : state) (r : nat)
    (ps1 ps2 : list nat) (rt : string) (status : option Z) :
  isRefreshing s = false -> failedQueue s = [] ->
  NoDup (r :: ps1 ++ ps2) ->
  (forall c, c ∈ r :: ps1 ++ ps2 -> fresh_in_flight s c) ->
  get REFRESH_TOKEN (storage s) = Some rt -> rt <> "" ->
  exists s',
    exec s (RespondError r (Some 401) :: unauthorized ps1
            ++ GotRefreshToken r :: unauthorized ps2
            ++ [RefreshFailed r status; AccessRemoved r; RefreshRemoved r])
    = Some s'
    /\ sent s' = (sent s ++ [RefreshExchange r rt])%list
    /\ get ACCESS_TOKEN (storage s') = None
    /\ get REFRESH_TOKEN (storage s') = None
    /\ AuthService.isAuthenticated (storage s') = false
    /\ isRefreshing s' = false /\ failedQueue s' = []
    /\ forall c, c ∈ r :: ps1 ++ ps2 ->
         exists cfg, calls s' !! c
                     = Some {| originalRequest := cfg;
                               at_phase := Failed (AxiosError status) |}.
Proof.
  intros Hidle Hfq Hnd Hfresh Hrt Hne.
  assert (Hnd' : NoDup (r :: ps1 ++ ps2 ++ [])) by (by rewrite app_nil_r).
  destruct (NoDup_prefixes _ _ _ _ Hnd') as (N1 & N2 & _).
  assert (F1 : forall p, p ∈ ps1 -> fresh_in_flight s p)
    by (intros p Hp; apply Hfresh; set_solver).
  assert (F2 : forall p, p ∈ ps2 -> fresh_in_flight s p)
    by (intros p Hp; apply Hfresh; set_solver).
  destruct (during_start s r Hidle Hfq) as (s1 & H1 & D1); [apply Hfresh; left|].
  destruct (during_park _ _ _ _ _ _ ps1 D1 N1 F1) as (s2 & H2 & D2).
  destruct (during_got_token _ _ _ _ _ rt D2 Hrt Hne) as (s3 & H3 & D3).
  destruct (during_park _ _ _ _ _ _ ps2 D3 N2 F2) as (s4 & H4 & D4).
  destruct (during_failed _ _ _ _ _ _ status D4)
    as (s5 & H5 & Q5 & S5 & [cfg Hr5] & C5).
  { intros p Hp. apply Hfresh. set_solver. }
  destruct (cleanup_after_failure s5 r cfg _ Hr5)
    as (s6 & H6 & A6 & R6 & I6 & S6 & Q6 & Hr6 & O6).
  simpl in S5, C5.
  exists s6. split; [|split; [|split; [|split; [|split; [|split; [|split]]]]]].
  - cbn [exec]. rewrite H1. rewrite exec_app, H2. cbn [mbind option_bind exec].
    rewrite H3. rewrite exec_app, H4. cbn [mbind option_bind exec].
    rewrite H5. cbn [exec] in H6. exact H6.
  - congruence.
  - done.
  - done.
  - by apply signed_out.
  - done.
  - congruence.
  - intros c Hc. apply elem_of_cons in Hc as [->|Hc]; [by exists cfg|].
    assert (c <> r).
    { intros ->. apply NoDup_cons in Hnd as [Hnin _]. done. }
    rewrite O6 by done. by apply C5.
Qed.

(** X11: A 401 when no refresh token is stored, or an empty one, followed
    to the end of the handler: no exchange is sent at all, the calls parked
    by then and the refreshing call are rejected with the error the
    handler throws, which carries no response, the access token is
    removed, the flag is cleared and the wait-list is empty. *)
Theorem missing_refresh_token_ends_the_session (s : state) (r : nat)
    (ps : list nat) :
  isRefreshing s = false -> failedQueue s = [] ->
  NoDup (r :: ps) ->
  (forall c, c ∈ r :: ps -> fresh_in_flight s c) ->
  get REFRESH_TOKEN (storage s) = None
  \/ get REFRESH_TOKEN (storage s) = Some "" ->
  exists s',
    exec s (RespondError r (Some 401) :: unauthorized ps
            ++ [GotRefreshToken r; AccessRemoved r; RefreshRemoved r])
    = Some s'
    /\ sent s' = sent s
    /\ get ACCESS_TOKEN (storage s') = None
    /\ get REFRESH_TOKEN (storage s') = None
    /\ AuthService.isAuthenticated (storage s') = false
    /\ isRefreshing s' = false /\ failedQueue s' = []
    /\ forall c, c ∈ r :: ps ->
         exists cfg, calls s' !! c
                     = Some {| originalRequest := cfg;
                               at_phase := Failed NoRefreshToken |}.
Proof.
  intros Hidle Hfq Hnd Hfresh Hnone.
  assert (N1 : NoDup (r :: [] ++ ps)) by done.
  assert (F1 : forall p, p ∈ ps -> fresh_in_flight s p)
    by (intros p Hp; apply Hfresh; set_solver).
  destruct (during_start s r Hidle Hfq) as (s1 & H1 & D1); [apply Hfresh; left|].
  destruct (during_park _ _ _ _ _ _ ps D1 N1 F1) as (s2 & H2 & D2).
  destruct (during_no_token _ _ _ _ _ D2)
    as (s3 & H3 & Q3 & S3 & [cfg Hr3] & C3); [done|done|].
  destruct (cleanup_after_failure s3 r cfg _ Hr3)
    as (s4 & H4 & A4 & R4 & I4 & S4 & Q4 & Hr4 & O4).
  simpl in S3, C3. rewrite app_nil_r in S3.
  exists s4. split; [|split; [|split; [|split; [|split; [|split; [|split]]]]]].
  - cbn [exec]. rewrite H1. rewrite exec_app, H2. cbn [mbind option_bind exec].
    rewrite H3. cbn [exec] in H4. exact H4.
  - congruence.
  - done.
  - done.
  - by apply signed_out.
  - done.
  - congruence.
  - intros c Hc. apply elem_of_cons in Hc as [->|Hc]; [by exists cfg|].
    assert (c <> r).
    { intros ->. apply NoDup_cons in Hnd as [Hnin _]. done. }
    rewrite O4 by done. by apply C3.
Qed.

(** **** A refresh that succeeds, and the call after it *)

Lemma during_stored_storage s0 r fq snt s access s' :
  during s0 r (StoringAccess access) fq snt s ->
  step s (AccessStored r) = Some s' ->
  storage s' = set ACCESS_TOKEN access (storage s0).
Proof.
  intros Hd Hstep. destruct (du_refresher _ _ _ _ _ _ Hd) as [auth Hauth].
  cbn [step] in Hstep. rewrite Hauth in Hstep. inversion Hstep; subst s'.
  unfold with_refreshing, dispatch. cbn [storage].
  destruct (processQueue_frame None access
              (with_storage (set ACCESS_TOKEN access (storage s)) s))
    as (_ & F2 & _).
  rewrite F2. cbn [with_storage storage]. by rewrite (du_storage _ _ _ _ _ _ Hd).
Qed.

(** X12: After a refresh that succeeds the new access token is the stored one,
    the refresh token is the one that was used, [isAuthenticated] answers
    yes, and the next call made goes out with the new token. *)
Theorem refreshed_token_is_stored_and_used (s : state) (r c : nat)
    (ps : list nat) (rt access : string) :
  isRefreshing s = false -> failedQueue s = [] ->
  NoDup (r :: ps) ->
  (forall p, p ∈ r :: ps -> fresh_in_flight s p) ->
  get REFRESH_TOKEN (storage s) = Some rt -> rt <> "" ->
  access <> "" -> calls s !! c = None ->
  exists s',
    exec s (RespondError r (Some 401) :: unauthorized ps
            ++ [GotRefreshToken r; RefreshSucceeded r access; AccessStored r;
                Send c])
    = Some s'
    /\ get ACCESS_TOKEN (storage s') = Some access
    /\ get REFRESH_TOKEN (storage s') = Some rt
    /\ AuthService.isAuthenticated (storage s') = true
    /\ sent s' = (sent s ++ RefreshExchange r rt
                  :: map (fun p => Request p (Some (Bearer access))) ps
                  ++ [Request r (Some (Bearer access));
                      Request c (Some (Bearer access))])%list
    /\ calls s' !! c
       = Some {| originalRequest := {| _retry := false;
                                       Authorization := Some (Bearer access) |};
                 at_phase := InFlight |}.
Proof.
  intros Hidle Hfq Hnd Hfresh Hrt Hne Hacc Hc.
  assert (N1 : NoDup (r :: [] ++ ps)) by done.
  assert (F1 : forall p, p ∈ ps -> fresh_in_flight s p)
    by (intros p Hp; apply Hfresh; set_solver).
  destruct (during_start s r Hidle Hfq) as (s1 & H1 & D1); [apply Hfresh; left|].
  destruct (during_park _ _ _ _ _ _ ps D1 N1 F1) as (s2 & H2 & D2).
  destruct (during_got_token _ _ _ _ _ rt D2 Hrt Hne) as (s3 & H3 & D3).
  destruct (during_refreshed _ _ _ _ _ _ access D3) as (s4 & H4 & D4).
  destruct (during_stored _ _ _ _ _ _ D4) as (s5 & H5 & R5 & Q5 & S5 & Cr5 & C5);
    [done|].
  pose proof (during_stored_storage _ _ _ _ _ _ _ D4 H5) as St5.
  assert (Hc5 : calls s5 !! c = None).
  { cbn [step] in H5. destruct (du_refresher _ _ _ _ _ _ D4) as [auth Hauth].
    rewrite Hauth in H5. inversion H5 as [E5]. cbn [with_refreshing dispatch calls].
    assert (c <> r).
    { intros ->. destruct (Hfresh r) as [a Ha]; [left|]. congruence. }
    rewrite lookup_insert_ne by done. rewrite processQueue_calls.
    cbn [with_storage failedQueue calls storage].
    rewrite (du_queue _ _ _ _ _ _ D4). cbn [app].
    assert (Hc4 : calls s4 !! c = None).
    { destruct (decide (c ∈ ps)) as [Hin|Hnin].
      - destruct (F1 c Hin) as [a Ha]. congruence.
      - rewrite (du_others _ _ _ _ _ _ D4) by done. done. }
    rewrite Hc4. by destruct (decide (c ∈ ps)). }
  assert (Hget : get ACCESS_TOKEN (storage s5) = Some access).
  { rewrite St5. unfold get, set. by rewrite lookup_insert_eq. }
  eexists. split; [|split; [|split; [|split; [|split]]]].
  - cbn [exec]. rewrite H1. rewrite exec_app, H2. cbn [mbind option_bind exec].
    rewrite H3, H4, H5. cbn [step]. rewrite Hc5. reflexivity.
  - exact Hget.
  - cbn [dispatch storage]. rewrite St5. unfold get, set.
    rewrite lookup_insert_ne by discriminate. exact Hrt.
  - unfold AuthService.isAuthenticated. cbn [dispatch storage]. rewrite Hget.
    cbn [AuthService.truthy]. by destruct (String.eqb_spec access "").
  - cbn [dispatch sent]. rewrite S5. unfold attach. rewrite Hget.
    destruct (String.eqb_spec access "") as [|_]; [done|].
    cbn [Authorization app]. rewrite <- !app_assoc. cbn [app].
    by rewrite <- !app_assoc.
  - cbn [dispatch calls]. rewrite lookup_insert_eq. unfold attach. rewrite Hget.
    by destruct (String.eqb_spec access "").
Qed.

End ApiInvariants.

(** ** The invariants on concrete runs *)

Module ApiInvariantRuns.
Import Storage Constants Api Demo ApiFacts ApiRuns ApiInvariants.

Lemma refreshing_flag_has_one_owner_witness :
  let s := after both_tokens [Send 1; Send 2; RespondError 1 (Some 401)] in
  (isRefreshing s = true
   <-> exists c k, calls s !! c = Some k /\ refreshing k = true)
  /\ (forall c1 k1 c2 k2,
        calls s !! c1 = Some k1 -> calls s !! c2 = Some k2 ->
        refreshing k1 = true -> refreshing k2 = true -> c1 = c2).
Proof.
  apply (refreshing_flag_has_one_owner both_tokens
           [Send 1; Send 2; RespondError 1 (Some 401)]).
  run_happens.
Defined.

Lemma one_refresh_exchange_per_call_witness :
  let s := after both_tokens refresh_with_one_parked in
  (exchanges_of 1 s <= 1)%nat
  /\ (exchanges_of 1 s = 1%nat ->
      forall status s',
        step s (RespondError 1 status) = Some s' ->
        (exists cfg, calls s' !! 1%nat
                     = Some {| originalRequest := cfg;
                               at_phase := Failed (AxiosError status) |})
        /\ sent s' = sent s /\ storage s' = storage s
        /\ isRefreshing s' = isRefreshing s
        /\ failedQueue s' = failedQueue s).
Proof.
  apply (one_refresh_exchange_per_call both_tokens refresh_with_one_parked
           (after both_tokens refresh_with_one_parked)).
  run_happens.
Defined.

Lemma wait_list_is_the_parked_calls_witness :
  let s := after both_tokens
             [Send 1; Send 2; RespondError 1 (Some 401); RespondError 2 (Some 401)] in
  NoDup (failedQueue s)
  /\ forall c,
       c ∈ failedQueue s
       <-> exists cfg, calls s !! c
                       = Some {| originalRequest := cfg; at_phase := Parked |}.
Proof.
  apply (wait_list_is_the_parked_calls both_tokens
           [Send 1; Send 2; RespondError 1 (Some 401); RespondError 2 (Some 401)]).
  run_happens.
Defined.

Lemma interceptor_touches_only_tokens_witness :
  let s := after both_tokens refresh_rejected_late_401 in
  (forall key, key <> ACCESS_TOKEN -> key <> REFRESH_TOKEN ->
               get key (storage s) = get key both_tokens)
  /\ (get REFRESH_TOKEN (storage s) = get REFRESH_TOKEN both_tokens
      \/ get REFRESH_TOKEN (storage s) = None)
  /\ get USER_DATA (storage s) = get USER_DATA both_tokens
  /\ get TENANT_SLUG (storage s) = get TENANT_SLUG both_tokens
  /\ get OFFLINE_QUEUE (storage s) = get OFFLINE_QUEUE both_tokens.
Proof.
  apply (interceptor_touches_only_tokens both_tokens refresh_rejected_late_401).
  run_happens.
Defined.

Lemma rejected_refresh_ends_the_session_witness :
  exists s',
    exec (after both_tokens [Send 1; Send 2; Send 3])
      (RespondError 1 (Some 401) :: unauthorized [2%nat]
       ++ GotRefreshToken 1 :: unauthorized [3%nat]
       ++ [RefreshFailed 1 (Some 401); AccessRemoved 1; RefreshRemoved 1])
    = Some s'
    /\ sent s' = (sent (after both_tokens [Send 1; Send 2; Send 3])
                  ++ [RefreshExchange 1 "r1"])%list
    /\ get ACCESS_TOKEN (storage s') = None
    /\ get REFRESH_TOKEN (storage s') = None
    /\ AuthService.isAuthenticated (storage s') = false
    /\ isRefreshing s' = false /\ failedQueue s' = []
    /\ forall c, c ∈ 1%nat :: [2%nat] ++ [3%nat] ->
         exists cfg, calls s' !! c
                     = Some {| originalRequest := cfg;
                               at_phase := Failed (AxiosError (Some 401)) |}.
Proof.
  apply (rejected_refresh_ends_the_session
           (after both_tokens [Send 1; Send 2; Send 3])
           1%nat [2%nat] [3%nat] "r1" (Some 401)).
  - reflexivity.
  - reflexivity.
  - by_decide.
  - intros c Hc. simpl in Hc. rewrite !elem_of_cons in Hc.
    destruct Hc as [->|[->|[->|Hc]]]; [| | |by apply elem_of_nil in Hc];
      eexists; vm_compute; reflexivity.
  - reflexivity.
  - discriminate.
Defined.

Lemma missing_refresh_token_ends_the_session_witness :
  exists s',
    exec (after access_only [Send 1; Send 2])
      (RespondError 1 (Some 401) :: unauthorized [2%nat]
       ++ [GotRefreshToken 1; AccessRemoved 1; RefreshRemoved 1])
    = Some s'
    /\ sent s' = sent (after access_only [Send 1; Send 2])
    /\ get ACCESS_TOKEN (storage s') = None
    /\ get REFRESH_TOKEN (storage s') = None
    /\ AuthService.isAuthenticated (storage s') = false
    /\ isRefreshing s' = false /\ failedQueue s' = []
    /\ forall c, c ∈ 1%nat :: [2%nat] ->
         exists cfg, calls s' !! c
                     = Some {| originalRequest := cfg;
                               at_phase := Failed NoRefreshToken |}.
Proof.
  apply (missing_refresh_token_ends_the_session
           (after access_only [Send 1; Send 2]) 1%nat [2%nat]).
  - reflexivity.
  - reflexivity.
  - by_decide.
  - intros c Hc. rewrite !elem_of_cons in Hc.
    destruct Hc as [->|[->|Hc]]; [| |by apply elem_of_nil in Hc];
      eexists; vm_compute; reflexivity.
  - left. reflexivity.
Defined.

Lemma refreshed_token_is_stored_and_used_witness :
  exists s',
    exec (after both_tokens [Send 1; Send 2])
      (RespondError 1 (Some 401) :: unauthorized [2%nat]
       ++ [GotRefreshToken 1; RefreshSucceeded 1 "new"; AccessStored 1; Send 3])
    = Some s'
    /\ get ACCESS_TOKEN (storage s') = Some "new"
    /\ get REFRESH_TOKEN (storage s') = Some "r1"
    /\ AuthService.isAuthenticated (storage s') = true
    /\ sent s' = (sent (after both_tokens [Send 1; Send 2])
                  ++ RefreshExchange 1 "r1"
                  :: map (fun p => Request p (Some (Bearer "new"))) [2%nat]
                  ++ [Request 1 (Some (Bearer "new"));
                      Request 3 (Some (Bearer "new"))])%list
    /\ calls s' !! 3%nat
       = Some {| originalRequest := {| _retry := false;
                                       Authorization := Some (Bearer "new") |};
                 at_phase := InFlight |}.
Proof.
  apply (refreshed_token_is_stored_and_used
           (after both_tokens [Send 1; Send 2]) 1%nat 3%nat [2%nat] "r1" "new").
  - reflexivity.
  - reflexivity.
  - by_decide.
  - intros c Hc. rewrite !elem_of_cons in Hc.
    destruct Hc as [->|[->|Hc]]; [| |by apply elem_of_nil in Hc];
      eexists; vm_compute; reflexivity.
  - reflexivity.
  - discriminate.
  - discriminate.
  - reflexivity.
Defined.

End ApiInvariantRuns.

(** ** The shape of what the helpers return *)

Module HelpersShape.
Import Helpers.

Lemma top_nonzero_double d :
  top_nonzero d = true ->
  top_nonzero (Hexadecimal.Little.double d) = true
  /\ top_nonzero (Hexadecimal.Little.succ_double d) = true.
Proof.
  induction d as [|d IH|d IH|d IH|d IH|d IH|d IH|d IH|d IH|d IH|d IH|d IH|d IH|d IH|d IH|d IH|d IH];
    intros H; [done|..];
    (destruct d; [simpl in *; try done; split; reflexivity|..]);
    destruct (IH H) as [IH1 IH2]; simpl in *; split; assumption.
Qed.

Lemma top_nonzero_little p : top_nonzero (Pos.to_little_hex_uint p) = true.
Proof.
  induction p as [p IH|p IH|]; simpl; [| |done];
    by destruct (top_nonzero_double _ IH).
Qed.

Lemma of_lu_little p :
  HexadecimalPos.Unsigned.of_lu (Pos.to_little_hex_uint p) = N.pos p.
Proof.
  induction p as [p IH|p IH|]; simpl; [| |done].
  - by rewrite HexadecimalPos.Unsigned.of_lu_succ_double, IH.
  - by rewrite HexadecimalPos.Unsigned.of_lu_double, IH.
Qed.

(** A numeral of [S n] digits whose top digit is not zero is worth at
    least [16 ^ n]. *)
Lemma top_nonzero_value d :
  top_nonzero d = true ->
  (16 ^ N.of_nat (Nat.pred (Hexadecimal.nb_digits d))
   <= HexadecimalPos.Unsigned.of_lu d)%N.
Proof.
  induction d as [|d IH|d IH|d IH|d IH|d IH|d IH|d IH|d IH|d IH|d IH|d IH|d IH|d IH|d IH|d IH|d IH];
    intros H; [done|..];
    (destruct d as [|d'|d'|d'|d'|d'|d'|d'|d'|d'|d'|d'|d'|d'|d'|d'|d'];
     [by (simpl in H |- *; try done; try lia)|..]).
  all: specialize (IH H);
    rewrite HexadecimalPos.Unsigned.of_lu_eqn;
    cbn [HexadecimalPos.Unsigned.hd HexadecimalPos.Unsigned.tl];
    cbn [Hexadecimal.nb_digits Nat.pred] in IH |- *;
    rewrite Nat2N.inj_succ, N.pow_succ_r'; lia.
Qed.

Lemma length_string_of_uint d :
  String.length (HexadecimalString.NilEmpty.string_of_uint d)
  = Hexadecimal.nb_digits d.
Proof. induction d; simpl; congruence. Qed.

Lemma length_toString16 n :
  0 <= n < 16 ^ 8 -> (String.length (toString16 n) <= 8)%nat.
Proof.
  intros Hn. unfold toString16.
  destruct (Z.to_N n) as [|p] eqn:Hp; [simpl; lia|].
  cbn [N.to_hex_uint]. unfold Pos.to_hex_uint.
  pose proof (top_nonzero_value _ (top_nonzero_little p)) as Hv.
  rewrite of_lu_little in Hv.
  pose proof (HexadecimalFacts.nb_digits_rev (Pos.to_little_hex_uint p)) as Hrev.
  assert (Hlen : String.length
                   (HexadecimalString.NilZero.string_of_uint
                      (Hexadecimal.rev (Pos.to_little_hex_uint p)))
                 = Hexadecimal.nb_digits (Pos.to_little_hex_uint p)).
  { rewrite <- Hrev.
    destruct (Hexadecimal.rev (Pos.to_little_hex_uint p)) eqn:Hu;
      try (rewrite <- length_string_of_uint; reflexivity).
    simpl in Hrev. symmetry in Hrev.
    apply HexadecimalFacts.nb_digits_0 in Hrev.
    pose proof (top_nonzero_little p) as Ht. by rewrite Hrev in Ht. }
  rewrite Hlen.
  destruct (le_lt_dec (Hexadecimal.nb_digits (Pos.to_little_hex_uint p)) 8)
    as [|Hbig]; [done|exfalso].
  assert (16 ^ 8 <= N.pos p)%N.
  { etrans; [|exact Hv]. apply N.pow_le_mono_r; lia. }
  lia.
Qed.

Lemma to_int32_range z : - 2 ^ 31 <= to_int32 z < 2 ^ 31.
Proof.
  unfold to_int32.
  pose proof (Z.mod_pos_bound (z + 2 ^ 31) (2 ^ 32) ltac:(lia)). lia.
Qed.

Lemma hash_loop_range data : forall hash,
  - 2 ^ 31 <= hash < 2 ^ 31 -> - 2 ^ 31 <= hash_loop hash data < 2 ^ 31.
Proof.
  induction data as [|c data IH]; intros hash Hh; simpl; [done|].
  apply IH. apply to_int32_range.
Qed.

Lemma length_append (s1 s2 : string) :
  String.length (s1 +:+ s2) = (String.length s1 + String.length s2)%nat.
Proof. induction s1 as [|c s1 IH]; simpl; [done|by rewrite IH]. Qed.

Lemma length_repeat_char c n : String.length (repeat_char c n) = n.
Proof. induction n as [|n IH]; simpl; [done|by rewrite IH]. Qed.

Lemma substring_repeat_char c n m s :
  substring 0 n (repeat_char c (n + m) +:+ s) = repeat_char c n.
Proof.
  induction n as [|n IH]; simpl.
  - by destruct (repeat_char c m +:+ s).
  - change (String c (repeat_char c (n + m)) +:+ s)
      with (String c (repeat_char c (n + m) +:+ s)).
    by rewrite IH.
Qed.

Lemma padStart_short s c :
  (String.length s <= 8)%nat ->
  String.length (padStart s 16 c) = 16%nat
  /\ substring 0 8 (padStart s 16 c) = repeat_char c 8.
Proof.
  intros Hs. unfold padStart. split.
  - rewrite length_append, length_repeat_char. lia.
  - replace (16 - String.length s)%nat with (8 + (8 - String.length s))%nat by lia.
    apply substring_repeat_char.
Qed.

(** X13: The token is always sixteen characters long and its first eight are
    zeros: the hash is a 32-bit integer, so its absolute value has at most
    eight hexadecimal digits and the padding fills the rest. *)
Theorem integrity_hash_shape (payload : object) :
  String.length (generateIntegrityHash payload) = 16%nat
  /\ substring 0 8 (generateIntegrityHash payload) = "00000000".
Proof.
  unfold generateIntegrityHash. apply padStart_short.
  apply length_toString16.
  pose proof (hash_loop_range (JSON_stringify (ordered payload)) 0 ltac:(lia)).
  lia.
Qed.

(** X14: For a whole number of minutes from 0 up to 99 hours 59 minutes,
    [formatDuration] gives five characters, two digits, a colon and two
    digits, that read back as the hours and the minutes of the
    duration. *)
Theorem formatDuration_reads_back (minutes : Z) :
  0 <= minutes < 6000 ->
  String.length (formatDuration minutes) = 5%nat
  /\ substring 2 1 (formatDuration minutes) = ":"
  /\ exists h m,
       DecimalString.NilZero.uint_of_string (substring 0 2 (formatDuration minutes))
       = Some h
       /\ DecimalString.NilZero.uint_of_string (substring 3 2 (formatDuration minutes))
          = Some m
       /\ Z.of_uint h = minutes / 60 /\ Z.of_uint m = minutes mod 60.
Proof.
  intros Hm.
  pose (reads := fun x : Z =>
          let s := formatDuration x in
          Nat.eqb (String.length s) 5 && String.eqb (substring 2 1 s) ":"
          && match DecimalString.NilZero.uint_of_string (substring 0 2 s),
                   DecimalString.NilZero.uint_of_string (substring 3 2 s) with
             | Some h, Some m =>
                 Z.eqb (Z.of_uint h) (x / 60) && Z.eqb (Z.of_uint m) (x mod 60)
             | _, _ => false
             end).
  assert (Hx : reads minutes = true).
  { assert (Hall : Forall (fun x => reads x = true) (seqZ 0 6000)).
    { apply (bool_decide_unpack _). vm_compute. exact I. }
    rewrite Forall_forall in Hall. apply Hall. clear Hall reads.
    apply elem_of_seqZ. lia. }
  unfold reads in Hx. cbv zeta in Hx. clear reads.
  apply andb_prop in Hx as [Hx H3]. apply andb_prop in Hx as [H1 H2].
  apply Nat.eqb_eq in H1. apply String.eqb_eq in H2.
  split; [exact H1|]. split; [exact H2|].
  destruct (DecimalString.NilZero.uint_of_string (substring 0 2 (formatDuration minutes)))
    as [h|]; [|discriminate H3].
  destruct (DecimalString.NilZero.uint_of_string (substring 3 2 (formatDuration minutes)))
    as [m|]; [|discriminate H3].
  apply andb_prop in H3 as [H3 H4]. apply Z.eqb_eq in H3, H4.
  exists h, m. repeat split; assumption.
Qed.

End HelpersShape.

(** ** The session in storage *)

Module AuthServiceFacts.
Import Storage Constants Api AuthService.

Section Facts.
Context {User : Type}.
Variable tenant_slug : User -> option string.
Variable JSON_stringify : User -> string.
Variable JSON_parse : string -> outcome (option User).

Abbreviation login := (login User tenant_slug JSON_stringify).
Abbreviation getStoredUser := (getStoredUser User JSON_parse).

(** The four keys of a session. *)
Lemma session_keys_distinct :
  ACCESS_TOKEN <> REFRESH_TOKEN /\ ACCESS_TOKEN <> USER_DATA
  /\ ACCESS_TOKEN <> TENANT_SLUG /\ REFRESH_TOKEN <> USER_DATA
  /\ REFRESH_TOKEN <> TENANT_SLUG /\ USER_DATA <> TENANT_SLUG.
Proof. repeat split; discriminate. Qed.

(** X15: [logout] never rejects, whatever becomes of its call to the backend,
    and it makes that call only when a non-empty refresh token is stored.
    Afterwards the two tokens, the user data and the tenant slug are gone,
    so that [isAuthenticated] answers no and no user, slug or tenant prefix
    is found; every other key, the offline queue among them, is as the
    call to the backend left it. *)
Theorem logout_clears_the_session
    (post : string -> EncryptedStorage -> reply unit * EncryptedStorage)
    (es : EncryptedStorage) :
  let '(posted, result, es') := logout post es in
  let before :=
    match posted with
    | Some refresh => (post refresh es).2
    | None => es
    end in
  result = Resolves tt
  /\ posted = (if truthy (get REFRESH_TOKEN es) then get REFRESH_TOKEN es else None)
  /\ get ACCESS_TOKEN es' = None /\ get REFRESH_TOKEN es' = None
  /\ get USER_DATA es' = None /\ get TENANT_SLUG es' = None
  /\ isAuthenticated es' = false
  /\ getStoredUser es' = Return None
  /\ getTenantSlug es' = None /\ getTenantPrefix es' = ""
  /\ forall key,
       key <> ACCESS_TOKEN -> key <> REFRESH_TOKEN -> key <> USER_DATA ->
       key <> TENANT_SLUG -> get key es' = get key before.
Proof.
  assert (Hall : forall es1 : EncryptedStorage,
            let es' := remove TENANT_SLUG
                         (remove USER_DATA
                            (remove REFRESH_TOKEN (remove ACCESS_TOKEN es1))) in
            get ACCESS_TOKEN es' = None /\ get REFRESH_TOKEN es' = None
            /\ get USER_DATA es' = None /\ get TENANT_SLUG es' = None
            /\ isAuthenticated es' = false
            /\ getStoredUser es' = Return None
            /\ getTenantSlug es' = None /\ getTenantPrefix es' = ""
            /\ forall key,
                 key <> ACCESS_TOKEN -> key <> REFRESH_TOKEN -> key <> USER_DATA ->
                 key <> TENANT_SLUG -> get key es' = get key es1).
  { intros es1 es'.
    assert (Ha : get ACCESS_TOKEN es' = None).
    { unfold es', get, remove. rewrite !lookup_delete_ne by discriminate.
      by rewrite lookup_delete_eq. }
    assert (Hr : get REFRESH_TOKEN es' = None).
    { unfold es', get, remove. rewrite !lookup_delete_ne by discriminate.
      by rewrite lookup_delete_eq. }
    assert (Hu : get USER_DATA es' = None).
    { unfold es', get, remove. rewrite !lookup_delete_ne by discriminate.
      by rewrite lookup_delete_eq. }
    assert (Ht : get TENANT_SLUG es' = None).
    { unfold es', get, remove. by rewrite lookup_delete_eq. }
    repeat split; try done.
    - unfold isAuthenticated. by rewrite Ha.
    - unfold AuthService.getStoredUser, getObject. unfold get in Hu. by rewrite Hu.
    - unfold getTenantPrefix, getTenantSlug. by rewrite Ht.
    - intros key H1 H2 H3 H4. unfold es', get, remove.
      by rewrite !lookup_delete_ne. }
  unfold logout. destruct (get REFRESH_TOKEN es) as [refresh|] eqn:Hget.
  - destruct (truthy (Some refresh)) eqn:Htr.
    + destruct (post refresh es) as [r es1] eqn:Hpost.
      split; [by destruct r|]. split; [done|]. rewrite Hpost. apply Hall.
    + split; [done|]. split; [done|]. apply Hall.
  - split; [done|]. split; [done|]. apply Hall.
Qed.

(** X16: A [login] whose call to the backend is rejected rejects with the
    same error and writes nothing: the storage is as the call left it.
    One whose call succeeds stores both tokens and the user, which
    [getStoredUser] gives back; [isAuthenticated] then answers yes unless
    the access token is empty.  The tenant slug is written only when the
    user has one: otherwise the slug of an earlier session stays.  No other
    key is touched. *)
Theorem login_stores_the_session
    (post : EncryptedStorage -> reply (login_data User) * EncryptedStorage)
    (es : EncryptedStorage) :
  (forall u, JSON_parse (JSON_stringify u) = Return (Some u)) ->
  (forall u, JSON_stringify u <> "") ->
  match (post es).1 with
  | Rejects e => login post es = (Rejects e, (post es).2)
  | Resolves data =>
      let es' := (login post es).2 in
      (login post es).1 = Resolves data
      /\ get ACCESS_TOKEN es' = Some (access _ data)
      /\ get REFRESH_TOKEN es' = Some (refresh _ data)
      /\ getStoredUser es' = Return (Some (user _ data))
      /\ isAuthenticated es' = negb (String.eqb (access _ data) "")
      /\ getTenantSlug es'
         = (if truthy (tenant_slug (user _ data)) then tenant_slug (user _ data)
            else getTenantSlug (post es).2)
      /\ forall key,
           key <> ACCESS_TOKEN -> key <> REFRESH_TOKEN -> key <> USER_DATA ->
           key <> TENANT_SLUG -> get key es' = get key (post es).2
  end.
Proof.
  intros Hround Hne. unfold AuthService.login.
  destruct (post es) as [response es0]. clear es. rename es0 into es.
  cbn [fst snd]. destruct response as [data|e]; [|done].
  cbn [fst snd].
  set (es3 := setObject JSON_stringify USER_DATA (user _ data)
                (set REFRESH_TOKEN (refresh _ data)
                   (set ACCESS_TOKEN (access _ data) es))).
  assert (H3a : get ACCESS_TOKEN es3 = Some (access _ data)).
  { unfold es3, get, set, setObject. rewrite !lookup_insert_ne by discriminate.
    by rewrite lookup_insert_eq. }
  assert (H3r : get REFRESH_TOKEN es3 = Some (refresh _ data)).
  { unfold es3, get, set, setObject. rewrite !lookup_insert_ne by discriminate.
    by rewrite lookup_insert_eq. }
  assert (H3u : es3 !! USER_DATA = Some (JSON_stringify (user _ data))).
  { unfold es3, setObject. by rewrite lookup_insert_eq. }
  assert (H3t : get TENANT_SLUG es3 = get TENANT_SLUG es).
  { unfold es3, get, set, setObject. by rewrite !lookup_insert_ne by discriminate. }
  assert (H3o : forall key,
             key <> ACCESS_TOKEN -> key <> REFRESH_TOKEN -> key <> USER_DATA ->
             get key es3 = get key es).
  { intros key H1 H2 H4. unfold es3, get, set, setObject.
    by rewrite !lookup_insert_ne. }
  assert (Huser : forall es4 : EncryptedStorage,
             es4 !! USER_DATA = Some (JSON_stringify (user _ data)) ->
             getStoredUser es4 = Return (Some (user _ data))).
  { intros es4 H4. unfold AuthService.getStoredUser, getObject. rewrite H4.
    destruct (String.eqb_spec (JSON_stringify (user _ data)) "") as [E|_];
      [by destruct (Hne _ E)|].
    by rewrite Hround. }
  destruct (tenant_slug (user _ data)) as [slug|] eqn:Hslug; cbn [truthy default].
  - destruct (String.eqb slug "") eqn:Hempty; cbn [negb].
    + split; [done|]. split; [done|]. split; [done|]. split; [by apply Huser|].
      split; [unfold isAuthenticated; by rewrite H3a|]. split; [done|].
      intros key H1 H2 H4 _. by apply H3o.
    + unfold set. split; [done|].
      split; [unfold get; by rewrite lookup_insert_ne by discriminate|].
      split; [unfold get; by rewrite lookup_insert_ne by discriminate|].
      split; [apply Huser; by rewrite lookup_insert_ne by discriminate|].
      split.
      { unfold isAuthenticated, get. rewrite lookup_insert_ne by discriminate.
        unfold get in H3a. by rewrite H3a. }
      split; [unfold getTenantSlug, get; by rewrite lookup_insert_eq|].
      intros key H1 H2 H4 H5. unfold get. rewrite lookup_insert_ne by done.
      by apply H3o.
  - split; [done|]. split; [done|]. split; [done|]. split; [by apply Huser|].
    split; [unfold isAuthenticated; by rewrite H3a|]. split; [done|].
    intros key H1 H2 H4 _. by apply H3o.
Qed.

End Facts.
End AuthServiceFacts.

(** ** What a clock-in leaves in the queue *)

Module HandleClockInFacts.
Import Helpers Storage Constants Api OfflineStore ClockInScreen HandleClockIn
  HelpersFacts.

Section Facts.
Variable JSON_stringify : list (OfflineRecord object) -> string.

Abbreviation handleClockIn := (handleClockIn JSON_stringify).

Lemma spread_clockInPayload shift selfie device timestamp location rooted :
  spread (clockInPayload shift selfie device timestamp location rooted)
  = clockInPayload shift selfie device timestamp location rooted.
Proof. reflexivity. Qed.

Lemma offlinePayload_fields payload timestamp :
  get_prop (offlinePayload payload timestamp) "integrity_hash"
  = JStr (generateIntegrityHash payload)
  /\ get_prop (offlinePayload payload timestamp) "recorded_at" = JStr timestamp
  /\ forall k, k <> "integrity_hash" -> k <> "recorded_at" ->
               get_prop (offlinePayload payload timestamp) k
               = get_prop (spread payload) k.
Proof.
  unfold offlinePayload. split; [|split].
  - by rewrite !get_set_prop.
  - by rewrite get_set_prop.
  - intros k H1 H2. rewrite !get_set_prop.
    destruct (String.eqb_spec "recorded_at" k) as [E|_]; [by destruct H2|].
    destruct (String.eqb_spec "integrity_hash" k) as [E|_]; [by destruct H1|].
    done.
Qed.

(** X17: With a selfie taken, a device id known and the position found,
    [handleClockIn] touches the offline queue only when the submission
    fails without a response and the queue has room: it then appends one
    unsynced event that carries every field of the submission as it was,
    the integrity hash of the submission and its timestamp as
    [recorded_at], and writes the queue to disk.  A submission that
    succeeds, or fails with a response, queues nothing; one that fails
    without a response on a full queue is dropped with the queue-full
    alert. *)
Theorem handleClockIn_queues_network_failures (sc : screen)
    (location : LocationData) (timestamp : string)
    (clockIn : object -> option error) (now rnd iso : string)
    (w : world object) (selfie device : string) :
  selfieBase64 sc = Some selfie -> selfie <> "" ->
  deviceId sc = Some device -> device <> "" ->
  let submitted :=
    clockInPayload (shiftId sc) selfie device timestamp location (isRooted sc) in
  let '(shown, w') :=
    handleClockIn sc (Return location) timestamp clockIn now rnd iso w in
  match clockIn submitted with
  | None => shown = Some AlertSuccess /\ w' = w
  | Some (AxiosError (Some _)) => shown = Some AlertValidationFailed /\ w' = w
  | Some _ =>
      if (MAX_QUEUE_SIZE <=? length (queue (state w)))%nat
      then shown = Some AlertQueueFull /\ w' = w
      else
        shown = Some AlertOffline
        /\ exists r,
             queue (state w') = (queue (state w) ++ [r])%list
             /\ synced r = false
             /\ get_prop (payload r) "integrity_hash"
                = JStr (generateIntegrityHash submitted)
             /\ get_prop (payload r) "recorded_at" = JStr timestamp
             /\ get_prop (payload r) "client_timestamp" = JStr timestamp
             /\ (forall k, k <> "integrity_hash" -> k <> "recorded_at" ->
                           get_prop (payload r) k = get_prop submitted k)
             /\ disk w' !! OFFLINE_QUEUE
                = Some (JSON_stringify (queue (state w')))
  end.
Proof.
  intros Hs Hsne Hd Hdne submitted.
  unfold HandleClockIn.handleClockIn. rewrite Hs, Hd.
  destruct (String.eqb_spec selfie "") as [E|_]; [by destruct Hsne|].
  destruct (String.eqb_spec device "") as [E|_]; [by destruct Hdne|].
  cbn [orb]. fold submitted.
  destruct (clockIn submitted) as [apiErr|]; [|done].
  assert (Hqueued :
    let '(queued, w') :=
      addToQueue object JSON_stringify (offlinePayload submitted timestamp)
        now rnd iso w in
    if (MAX_QUEUE_SIZE <=? length (queue (state w)))%nat
    then queued = false /\ w' = w
    else queued = true
         /\ exists r,
              queue (state w') = (queue (state w) ++ [r])%list
              /\ synced r = false
              /\ get_prop (payload r) "integrity_hash"
                 = JStr (generateIntegrityHash submitted)
              /\ get_prop (payload r) "recorded_at" = JStr timestamp
              /\ get_prop (payload r) "client_timestamp" = JStr timestamp
              /\ (forall k, k <> "integrity_hash" -> k <> "recorded_at" ->
                            get_prop (payload r) k = get_prop submitted k)
              /\ disk w' !! OFFLINE_QUEUE
                 = Some (JSON_stringify (queue (state w')))).
  { unfold addToQueue.
    destruct (MAX_QUEUE_SIZE <=? length (queue (state w)))%nat; [done|].
    split; [done|]. eexists. split; [reflexivity|]. cbn [synced payload].
    destruct (offlinePayload_fields submitted timestamp) as (H1 & H2 & H3).
    split; [done|]. split; [done|]. split; [done|]. split; [|split].
    - rewrite H3 by discriminate. unfold submitted.
      by rewrite spread_clockInPayload.
    - intros k Hk1 Hk2. rewrite H3 by done. unfold submitted.
      by rewrite spread_clockInPayload.
    - cbn [disk state queue]. unfold setObject. by rewrite lookup_insert_eq. }
  destruct apiErr as [[status|]|]; cbn [taken_for_network_failure]; [done|..];
    destruct (addToQueue object JSON_stringify _ now rnd iso w) as [queued w'];
    destruct (MAX_QUEUE_SIZE <=? length (queue (state w)))%nat;
    destruct Hqueued as [-> Hw]; done.
Qed.

End Facts.
End HandleClockInFacts.

(** ** The session and the clock-in on concrete inputs *)

Module SessionRuns.
Import Helpers Storage Constants Api OfflineStore AuthService HandleClockIn Demo
  DemoClockIn HelpersShape AuthServiceFacts HandleClockInFacts.

Lemma formatDuration_reads_back_witness :
  String.length (formatDuration 125) = 5%nat
  /\ substring 2 1 (formatDuration 125) = ":"
  /\ exists h m,
       DecimalString.NilZero.uint_of_string (substring 0 2 (formatDuration 125))
       = Some h
       /\ DecimalString.NilZero.uint_of_string (substring 3 2 (formatDuration 125))
          = Some m
       /\ Z.of_uint h = 125 / 60 /\ Z.of_uint m = 125 mod 60.
Proof. apply (formatDuration_reads_back 125). lia. Defined.

Lemma user_parse_stringify u : user_parse (user_stringify u) = Return (Some u).
Proof. reflexivity. Qed.

Lemma user_stringify_nonempty u : user_stringify u <> "".
Proof. discriminate. Qed.

Lemma login_stores_the_session_witness :
  let data := mkLoginData string "a1" "r1" "operator@example.com" in
  let post := fun es : EncryptedStorage => (Resolves data, es) in
  let es : EncryptedStorage := {[ TENANT_SLUG := "acme" ]} in
  let es' := (login string user_slug user_stringify post es).2 in
  (login string user_slug user_stringify post es).1 = Resolves data
  /\ get ACCESS_TOKEN es' = Some "a1"
  /\ get REFRESH_TOKEN es' = Some "r1"
  /\ getStoredUser string user_parse es' = Return (Some "operator@example.com")
  /\ isAuthenticated es' = negb (String.eqb "a1" "")
  /\ getTenantSlug es'
     = (if truthy (user_slug "operator@example.com")
        then user_slug "operator@example.com"
        else getTenantSlug es)
  /\ forall key,
       key <> ACCESS_TOKEN -> key <> REFRESH_TOKEN -> key <> USER_DATA ->
       key <> TENANT_SLUG -> get key es' = get key es.
Proof.
  exact (login_stores_the_session user_slug user_stringify user_parse
           (fun es : EncryptedStorage =>
              (Resolves (mkLoginData string "a1" "r1" "operator@example.com"), es))
           {[ TENANT_SLUG := "acme" ]}
           user_parse_stringify user_stringify_nonempty).
Defined.

Lemma handleClockIn_queues_network_failures_witness :
  let submitted :=
    clockInPayload "shift-1" "c2VsZmll" "device-1" "2024-01-01T08:00:00.000Z"
      at_the_gate false in
  let '(shown, w') :=
    handleClockIn (fun _ => "[]") ready (Return at_the_gate)
      "2024-01-01T08:00:00.000Z" no_network "1" "a" "t"
      {| state := initial; disk := ∅ |} in
  shown = Some AlertOffline
  /\ exists r,
       queue (state w') = ([] ++ [r])%list
       /\ synced r = false
       /\ get_prop (payload r) "integrity_hash"
          = JStr (generateIntegrityHash submitted)
       /\ get_prop (payload r) "recorded_at" = JStr "2024-01-01T08:00:00.000Z"
       /\ get_prop (payload r) "client_timestamp" = JStr "2024-01-01T08:00:00.000Z"
       /\ (forall k, k <> "integrity_hash" -> k <> "recorded_at" ->
                     get_prop (payload r) k = get_prop submitted k)
       /\ disk w' !! OFFLINE_QUEUE = Some "[]".
Proof.
  exact (handleClockIn_queues_network_failures (fun _ => "[]") ready at_the_gate
           "2024-01-01T08:00:00.000Z" no_network "1" "a" "t"
           {| state := initial; disk := ∅ |} "c2VsZmll" "device-1"
           eq_refl ltac:(discriminate) eq_refl ltac:(discriminate)).
Defined.

End SessionRuns.

(** ** Ids stay distinct *)

Module QueueIdsFacts.
Import Storage Constants OfflineStore QueueIds OfflineStoreFacts.

Lemma digits_no_underscore d c :
  c ∈ list_ascii_of_string (DecimalString.NilEmpty.string_of_uint d) ->
  c <> "_"%char.
Proof.
  induction d; simpl; intros Hin; try (by apply elem_of_nil in Hin);
    apply elem_of_cons in Hin as [->|Hin]; try discriminate; auto.
Qed.

Lemma milliseconds_no_underscore t c :
  c ∈ list_ascii_of_string (milliseconds t) -> c <> "_"%char.
Proof.
  unfold milliseconds, DecimalString.NilZero.string_of_uint.
  destruct (N.to_uint t) eqn:E; try apply digits_no_underscore.
  simpl. intros Hin. apply elem_of_cons in Hin as [->|Hin]; [discriminate|].
  by apply elem_of_nil in Hin.
Qed.

Lemma N_to_uint_nonnil t : N.to_uint t <> Decimal.Nil.
Proof.
  destruct t as [|p]; [discriminate|]. apply DecimalPos.Unsigned.to_uint_nonnil.
Qed.

(** Two texts without an underscore, each followed by an underscore and a
    rest, are equal only part by part. *)
Lemma split_at_underscore (a1 : string) : forall a2 b1 b2 : string,
  (forall c, c ∈ list_ascii_of_string a1 -> c <> "_"%char) ->
  (forall c, c ∈ list_ascii_of_string a2 -> c <> "_"%char) ->
  a1 +:+ "_" +:+ b1 = a2 +:+ "_" +:+ b2 -> a1 = a2 /\ b1 = b2.
Proof.
  induction a1 as [|c1 a1 IH]; intros [|c2 a2] b1 b2 H1 H2 Heq.
  - by inversion Heq.
  - inversion Heq; subst c2. exfalso. apply (H2 "_"%char); [left|done].
  - inversion Heq; subst c1. exfalso. apply (H1 "_"%char); [left|done].
  - inversion Heq; subst c2.
    destruct (IH a2 b1 b2) as [-> ->]; [| |done|done].
    + intros c Hc. apply H1. by right.
    + intros c Hc. apply H2. by right.
Qed.

(** X18: Two ids made by [addToQueue] are equal only when both the
    millisecond of [Date.now()] and the random suffix are. *)
Theorem new_id_injective (t1 t2 : N) (rnd1 rnd2 : string) :
  new_id (milliseconds t1) rnd1 = new_id (milliseconds t2) rnd2
  <-> t1 = t2 /\ rnd1 = rnd2.
Proof.
  split; [|by intros [-> ->]].
  unfold new_id. intros Heq. inversion Heq as [Heq'].
  apply split_at_underscore in Heq' as [Ht ->];
    [|apply milliseconds_no_underscore..].
  split; [|done]. unfold milliseconds in Ht.
  apply (f_equal DecimalString.NilZero.uint_of_string) in Ht.
  rewrite !DecimalString.NilZero.usu in Ht by apply N_to_uint_nonnil.
  inversion Ht as [Hu]. by apply DecimalN.Unsigned.to_uint_inj.
Qed.

Section Facts.
Context {Payload : Type}.
Variable JSON_stringify : list (OfflineRecord Payload) -> string.
Variable backend : Type.
Variable syncOfflineRecord : backend -> Payload -> backend * delivery.

Abbreviation run_ops := (run_ops Payload JSON_stringify backend syncOfflineRecord).
Abbreviation apply_op := (apply_op Payload JSON_stringify backend syncOfflineRecord).
Abbreviation syncAll := (syncAll Payload JSON_stringify backend syncOfflineRecord).
Abbreviation enqueued_ids := (enqueued_ids Payload).

Lemma syncAll_ids iso b (w : world Payload) :
  map id (queue (state (syncAll iso b w).2)) = map id (queue (state w)).
Proof.
  pose proof (syncAll_flag_kept JSON_stringify backend syncOfflineRecord iso b w) as Hk.
  induction Hk as [|r r' q q' [He _] _ IH]; [done|].
  simpl. rewrite IH. f_equal. unfold event_of in He. by inversion He.
Qed.

(** X19: As long as the ids that [addToQueue] generates are new, the queue
    never holds two events with the same id, whatever sequence of
    enqueues, drains and compactions is run: a drain keeps every id and a
    compaction only removes events. *)
Theorem ids_stay_distinct (ops : list (op Payload)) (b : backend)
    (w : world Payload) :
  NoDup (map id (queue (state w)) ++ enqueued_ids ops) ->
  NoDup (map id (queue (state (run_ops ops (b, w)).2))).
Proof.
  unfold OfflineStore.run_ops. revert b w.
  induction ops as [|o ops IH]; intros b w Hnd; simpl.
  - by rewrite app_nil_r in Hnd.
  - destruct o as [p now rnd iso|iso|]; simpl in *.
    + apply IH. unfold addToQueue.
      destruct (MAX_QUEUE_SIZE <=? length (queue (state w)))%nat; simpl.
      * eapply sublist_NoDup; [exact Hnd|].
        apply sublist_app; [done|]. by apply sublist_cons.
      * rewrite map_app. simpl. by rewrite <- app_assoc.
    + pose proof (syncAll_ids iso b w) as Hids.
      destruct (syncAll iso b w) as [[res b'] w']. simpl in *.
      apply IH. by rewrite Hids.
    + apply IH. simpl. eapply sublist_NoDup; [exact Hnd|].
      apply sublist_app; [|done]. apply fmap_sublist, sublist_filter.
Qed.

End Facts.
End QueueIdsFacts.

(** ** Ids on the concrete instance *)

Module QueueIdsRuns.
Import Storage Constants OfflineStore QueueIds Demo QueueIdsFacts.

Lemma ids_stay_distinct_witness :
  NoDup (map id (queue (state (run_ops string stringify nat submit
                                 [Enqueue _ "in" "4" "d" "t0"; Drain _ "t1";
                                  Compact _; Enqueue _ "out" "5" "e" "t2"]
                                 (0%nat, world_of three)).2))).
Proof.
  apply (ids_stay_distinct stringify nat submit
           [Enqueue _ "in" "4" "d" "t0"; Drain _ "t1"; Compact _;
            Enqueue _ "out" "5" "e" "t2"] 0%nat (world_of three)).
  by_decide.
Defined.

End QueueIdsRuns.
